(** * Claude-to-Speech: draft/final deduplication and the playback queue

    A shallow embedding of
      - [server/smart_streaming_processor.py] (class [SimplifiedTTSProcessor]),
      - [audio_manager_plugin.py] (class [AudioManager]),
      - [smart_streaming_processor.py] (class [StreamingTTSHandler]),
      - the part of Python's [difflib.SequenceMatcher] that the processor calls,
    followed by the properties of the design document that can be stated on
    them, and by further properties of the code.

    Python [str] values are lists of characters.  A character is a code
    point below 256, carried by [ascii]; on that range [str.lower],
    [str.isspace] and the regular expression class [\s] are total functions
    on single characters and preserve lengths, which is what the slicing in
    [process_chunk] relies on. *)

From Stdlib Require Import Ascii String.
From Stdlib Require DecimalString DecimalNat DecimalFacts.
From stdpp Require Import gmap strings list fin_maps.

Set Warnings "-clear-no-such-hyp".

Abbreviation str := (list ascii) (only parsing).

(** Literals of the examples are written [txt "..."]. *)
Definition txt (x : string) : str := String.list_ascii_of_string x.

(** ** Python string primitives *)
Module Py.

Definition code (c : ascii) : nat := nat_of_ascii c.

(** [str.isspace] on one character: TAB..CR, FS..US, SPACE, NEL, NBSP. *)
Definition isspace (c : ascii) : bool :=
  let n := code c in
  ((9 <=? n) && (n <=? 13)) || ((28 <=? n) && (n <=? 32))
  || (n =? 133) || (n =? 160).

(** [str.lower] on one character: A-Z, and the Latin-1 capitals except
    the multiplication sign. *)
Definition lower_char (c : ascii) : ascii :=
  let n := code c in
  if ((65 <=? n) && (n <=? 90))
     || ((192 <=? n) && (n <=? 222) && negb (n =? 215))
  then ascii_of_nat (n + 32) else c.

Definition lower (t : str) : str := map lower_char t.

Definition eqc (x y : ascii) : bool := bool_decide (x = y).

(** Truth value of a string in a condition: non-empty. *)
Definition truthy (t : str) : bool :=
  match t with [] => false | _ :: _ => true end.

Fixpoint lstrip (t : str) : str :=
  match t with
  | c :: r => if isspace c then lstrip r else t
  | [] => []
  end.

Definition rstrip (t : str) : str := rev (lstrip (rev t)).

(** [t.strip()] *)
Definition strip (t : str) : str := rstrip (lstrip t).

Definition nl : ascii := ascii_of_nat 10.

(** [t.replace('\n\n', '. ')]: left to right, occurrences do not overlap. *)
Fixpoint replace_nlnl (t : str) : str :=
  match t with
  | c1 :: r1 =>
      match r1 with
      | c2 :: r2 =>
          if eqc c1 nl && eqc c2 nl
          then "."%char :: " "%char :: replace_nlnl r2
          else c1 :: replace_nlnl r1
      | [] => [c1]
      end
  | [] => []
  end.

(** [t.replace('\n', ' ')] *)
Definition replace_nl (t : str) : str :=
  map (fun c => if eqc c nl then " "%char else c) t.

(** [re.sub(r'\s+', ' ', t)]: every maximal run of white space becomes
    one blank.  [in_run] tells that the previous character was white
    space, so the blank of the current run is already written. *)
Fixpoint collapse_ws_from (in_run : bool) (t : str) : str :=
  match t with
  | c :: r =>
      if isspace c
      then (if in_run then collapse_ws_from true r
            else " "%char :: collapse_ws_from true r)
      else c :: collapse_ws_from false r
  | [] => []
  end.

Definition collapse_ws (t : str) : str := collapse_ws_from false t.

(** Length of the match of [\s*\)] at the head of [t], if there is one. *)
Fixpoint ws_then_close (t : str) : option nat :=
  match t with
  | c :: r =>
      if eqc c ")"%char then Some 1
      else if isspace c then S <$> ws_then_close r
      else None
  | [] => None
  end.

(** [re.sub(r'\(\s*\)', '', t)]: [skip] counts the characters of the
    current match that are still to be dropped. *)
Fixpoint remove_empty_parens_from (skip : nat) (t : str) : str :=
  match t with
  | c :: r =>
      match skip with
      | S k => remove_empty_parens_from k r
      | O =>
          if eqc c "("%char then
            match ws_then_close r with
            | Some k => remove_empty_parens_from k r
            | None => c :: remove_empty_parens_from 0 r
            end
          else c :: remove_empty_parens_from 0 r
      end
  | [] => []
  end.

Definition remove_empty_parens (t : str) : str :=
  remove_empty_parens_from 0 t.

(** [t.split(sep)] for a one-character separator: never empty. *)
Fixpoint split (sep : ascii) (t : str) : list str :=
  match t with
  | c :: r =>
      if eqc c sep then [] :: split sep r
      else match split sep r with
           | h :: parts => (c :: h) :: parts
           | [] => [[c]]
           end
  | [] => [[]]
  end.

(** [sep.join(parts)] *)
Fixpoint join (sep : ascii) (parts : list str) : str :=
  match parts with
  | [] => []
  | [p] => p
  | p :: rest => p ++ sep :: join sep rest
  end.

Fixpoint startswith (p t : str) : bool :=
  match p, t with
  | [], _ => true
  | x :: p', y :: t' => eqc x y && startswith p' t'
  | _ :: _, [] => false
  end.

(** [p in t] for strings. *)
Fixpoint contains (p t : str) : bool :=
  startswith p t ||
  match t with
  | _ :: r => contains p r
  | [] => false
  end.

(** [x in xs] for a list of strings. *)
Definition mem (x : str) (xs : list str) : bool := bool_decide (x ∈ xs).

(** [xs[:-k]] *)
Definition drop_last (k : nat) {A} (xs : list A) : list A :=
  take (length xs - k) xs.

(** [xs[-k]] for [1 <= k <= len(xs)]. *)
Definition from_end {A} (k : nat) (xs : list A) : option A :=
  xs !! (length xs - k).

End Py.

(** ** [difflib.SequenceMatcher(None, a, b).find_longest_match(0, len(a), 0, len(b))]

    The matcher is built with [isjunk = None] and the default
    [autojunk = True]: no character is junk, and when [b] has 200
    characters or more, every character that occurs more than
    [len(b) // 100 + 1] times in it is dropped from the index [b2j]. *)
Module Difflib.

Record Match := { m_a : nat; m_b : nat; m_size : nat }.

(** [indices = b2j.setdefault(elt, []); indices.append(i)] *)
Definition setdefault_append (b2j : gmap ascii (list nat))
    (i : nat) (elt : ascii) : gmap ascii (list nat) :=
  <[elt := default [] (b2j !! elt) ++ [i]]> b2j.

(** First loop of [__chain_b]: [for i, elt in enumerate(b)]. *)
Fixpoint index_from (b2j : gmap ascii (list nat)) (i : nat) (b : str)
    : gmap ascii (list nat) :=
  match b with
  | elt :: r => index_from (setdefault_append b2j i elt) (S i) r
  | [] => b2j
  end.

Definition is_popular (n : nat) (idxs : list nat) : bool :=
  n `div` 100 + 1 <? length idxs.

(** [__chain_b]: the index, with the popular characters purged. *)
Definition chain_b (b : str) : gmap ascii (list nat) :=
  let b2j := index_from ∅ 0 b in
  let n := length b in
  if 200 <=? n
  then filter (λ p, is_popular n p.2 = false) b2j
  else b2j.

(** One pass of the inner loop, [for j in b2j.get(a[i], nothing)]:
    [k = newj2len[j] = j2lenget(j-1, 0) + 1] and the update of the best
    block when [k > bestsize]. *)
Definition inner (j2len : gmap nat nat) (i : nat)
    (acc : gmap nat nat * Match) (j : nat) : gmap nat nat * Match :=
  let '(newj2len, best) := acc in
  let k := match j with
           | O => 0
           | S j' => default 0 (j2len !! j')
           end + 1 in
  (<[j := k]> newj2len,
   if m_size best <? k
   then {| m_a := i + 1 - k; m_b := j + 1 - k; m_size := k |}
   else best).

(** The outer loop, [for i in range(alo, ahi)], from row [i] on. *)
Fixpoint rows (b2j : gmap ascii (list nat)) (i : nat) (a : str)
    (j2len : gmap nat nat) (best : Match) : Match :=
  match a with
  | ai :: r =>
      let '(newj2len, best') :=
        fold_left (inner j2len i) (default [] (b2j !! ai)) (∅, best) in
      rows b2j (S i) r newj2len best'
  | [] => best
  end.

Definition same_at (a b : str) (i j : nat) : bool :=
  match a !! i, b !! j with
  | Some x, Some y => Py.eqc x y
  | _, _ => false
  end.

(** [while besti > alo and bestj > blo and a[besti-1] == b[bestj-1]] *)
Fixpoint extend_left (a b : str) (besti bestj bestsize : nat) : Match :=
  match besti, bestj with
  | S i', S j' =>
      if same_at a b i' j'
      then extend_left a b i' j' (S bestsize)
      else {| m_a := besti; m_b := bestj; m_size := bestsize |}
  | _, _ => {| m_a := besti; m_b := bestj; m_size := bestsize |}
  end.

(** [while besti+bestsize < ahi and bestj+bestsize < bhi and
           a[besti+bestsize] == b[bestj+bestsize]]; the loop runs at
    most [len(a)] times, which is the [fuel] it is given. *)
Fixpoint extend_right (fuel : nat) (a b : str) (besti bestj bestsize : nat)
    : nat :=
  match fuel with
  | S fuel' =>
      if same_at a b (besti + bestsize) (bestj + bestsize)
      then extend_right fuel' a b besti bestj (S bestsize)
      else bestsize
  | O => bestsize
  end.

(** With no junk, the two loops guarded by [isbjunk] never run. *)
Definition find_longest_match (a b : str) : Match :=
  let best := rows (chain_b b) 0 a ∅ {| m_a := 0; m_b := 0; m_size := 0 |} in
  let m := extend_left a b (m_a best) (m_b best) (m_size best) in
  {| m_a := m_a m; m_b := m_b m;
     m_size := extend_right (length a) a b (m_a m) (m_b m) (m_size m) |}.

End Difflib.

(** ** [SimplifiedTTSProcessor] (server/smart_streaming_processor.py) *)
Module Dedup.

(** [audio_manager] records whether the processor was given an audio
    manager; [oneshot_raw_texts] is the dictionary
    [{base_response_id: raw_oneshot_text}]. *)
Record SimplifiedTTSProcessor := {
  audio_manager : bool;
  oneshot_raw_texts : gmap (list ascii) (list ascii)
}.

Definition init (has_manager : bool) : SimplifiedTTSProcessor :=
  {| audio_manager := has_manager; oneshot_raw_texts := ∅ |}.

Definition _clean_text_for_tts (text_from_client : str) : str :=
  if negb (Py.truthy text_from_client) then []
  else
    let cleaned_text := Py.strip text_from_client in
    let cleaned_text := Py.replace_nlnl cleaned_text in
    let cleaned_text := Py.replace_nl cleaned_text in
    let cleaned_text := Py.collapse_ws cleaned_text in
    let cleaned_text := Py.remove_empty_parens cleaned_text in
    Py.strip cleaned_text.

Definition known_suffixes : list str :=
  [txt "oneshot"; txt "delta"; txt "complete"; txt "full";
   txt "finalized"; txt "stop"].

Definition in_known (p : option str) : bool :=
  match p with
  | Some x => Py.mem x known_suffixes
  | None => false
  end.

Definition _get_base_response_id (full_response_id : str) : str :=
  let parts := Py.split "-" full_response_id in
  if (2 <? length parts) && in_known (Py.from_end 1 parts) then
    if (3 <? length parts) && in_known (Py.from_end 2 parts)
    then Py.join "-" (Py.drop_last 2 parts)
    else Py.join "-" (Py.drop_last 1 parts)
  else full_response_id.

(** [match.size > len(stored_oneshot) * 0.8].  The product is a double;
    [0.8] is stored as [0.8 * (1 + 2^-54)], so for a length that is a
    multiple of 5 the product rounds to the integer [4 * len / 5], and
    for any other length below [2^50] it stays on the same side of every
    integer as the exact [4 * len / 5]: the test is [5 * size > 4 * len]. *)
Definition good_match (size len : nat) : bool := 4 * len <? 5 * size.

(** [cleaned = self._clean_text_for_tts(text)] followed by
    [if cleaned: await self._queue_for_tts(cleaned, ...)]: [Some cleaned]
    is the text handed to the audio manager, [None] means no call. *)
Definition clean_and_queue (text : str) : option str :=
  let cleaned := _clean_text_for_tts text in
  if Py.truthy cleaned then Some cleaned else None.

(** What one call does with the audio manager: [_queue_for_tts] is called
    at most once; [Some text] is its argument. *)
Definition process_chunk (p : SimplifiedTTSProcessor)
    (text_content full_response_id : str) (is_complete : bool)
    : SimplifiedTTSProcessor * option str :=
  let drafts := oneshot_raw_texts p in
  let set d := {| audio_manager := audio_manager p;
                  oneshot_raw_texts := d |} in
  if negb (audio_manager p) then (p, None)
  else
    let base_id := _get_base_response_id full_response_id in
    if negb is_complete && Py.contains (txt "oneshot") full_response_id then
      (set (<[base_id := text_content]> drafts),
       clean_and_queue text_content)
    else if is_complete then
      match drafts !! base_id with
      | Some stored_oneshot =>
          let m := Difflib.find_longest_match
                     (Py.lower stored_oneshot) (Py.lower text_content) in
          if good_match (Difflib.m_size m) (length stored_oneshot) then
            let delta_text :=
              Py.strip (drop (Difflib.m_b m + Difflib.m_size m) text_content) in
            if Py.truthy delta_text
            then (set (delete base_id drafts),
                  clean_and_queue delta_text)
            else (set (delete base_id drafts), None)
          else (set (delete base_id drafts),
                clean_and_queue text_content)
      | None => (p, clean_and_queue text_content)
      end
    else (p, None).

(** [reset_conversation]: the dictionary is cleared; the calls to the
    audio manager ([clear_queue], [stop_current_audio]) are its own
    business. *)
Definition reset_conversation (p : SimplifiedTTSProcessor)
    : SimplifiedTTSProcessor :=
  {| audio_manager := audio_manager p; oneshot_raw_texts := ∅ |}.

(** What can happen to a processor: a chunk arrives, the conversation is
    reset, or time passes.  The class holds no clock and starts no timer,
    so the passing of time runs none of its code. *)
Inductive event :=
| Chunk (text_content full_response_id : str) (is_complete : bool)
| ResetConversation
| Idle (seconds : nat).

Definition step (p : SimplifiedTTSProcessor) (e : event)
    : SimplifiedTTSProcessor :=
  match e with
  | Chunk text id complete => (process_chunk p text id complete).1
  | ResetConversation => reset_conversation p
  | Idle _ => p
  end.

Definition run (p : SimplifiedTTSProcessor) (es : list event)
    : SimplifiedTTSProcessor := fold_left step es p.

End Dedup.

(** ** [AudioManager] (audio_manager_plugin.py)

    The manager runs on one asyncio event loop: a coroutine runs alone
    until it reaches an await that suspends it.  The awaits of
    [queue_audio], [process_audio_queue] and [play_audio] that can suspend
    are the synthesis, [audio_queue.get()], the acquisition of
    [playback_lock], [create_subprocess_shell], [current_process.wait()]
    and [asyncio.sleep(0.7)].  [state_lock] is never held across an await
    and [audio_queue] is unbounded, so [async with self.state_lock] and
    [audio_queue.put] go through without a switch.  The model has one
    step for each stretch of code between two suspensions.

    The microphone side ([pa], [audio_stream], [activation_lock]),
    [queue_processor_task], and [reset_audio_state], which nothing in the
    repository calls, are left out. *)
Module Audio.

(** The dataclass [AudioManagerState].  Clock readings and durations are
    counted in milliseconds. *)
Record AudioManagerState := {
  is_playing : bool;
  is_speaking : bool;
  is_listening : bool;
  playback_start_time : option nat;
  current_audio_file : option (list ascii);
  expected_duration : option nat;
  currently_queued_files : gset (list ascii)
}.

Definition fresh_state : AudioManagerState :=
  {| is_playing := false; is_speaking := false; is_listening := false;
     playback_start_time := None; current_audio_file := None;
     expected_duration := None; currently_queued_files := ∅ |}.

(** Everything the methods print. *)
Inductive message :=
| MsgGeneratingTts (text : str)
| MsgElevenLabsGenerated (nbytes : nat)
| MsgSavedTts (file : str)
| MsgElevenLabsError
| MsgErrorGeneratingTts
| MsgAlreadyQueued (file : str)
| MsgErrorDuration
| MsgErrorInPlayAudio
| MsgDeleted (file : str)
| MsgStopped
| MsgErrorStopping
| MsgQueueCleared.

(** Where a task made from [process_audio_queue] stands.  A task is
    [Created] by [asyncio.create_task] and runs its first statement only
    when the event loop schedules it.  Inside [play_audio] it is either
    suspended on [playback_lock] ([Waiting]) or, holding the lock, in one
    of the three awaits of the body: [create_subprocess_shell]
    ([Spawning]), [current_process.wait()] ([Running]) and
    [asyncio.sleep(0.7)] ([Settling]). *)
Inductive phase := Spawning | Running | Settling.

Inductive loop_state :=
| Created
| AtGet
| Waiting
| Playing (ph : phase) (audio_file : str) (delete_after_play : bool)
| Finished.

(** The manager: the fields of the object, the files of the audio cache,
    what was printed, and two history lists, [accepted] (the files put on
    the queue, in order) and [playback_trace] (the files for which the
    player was launched, in order).

    [current_process] is [Some true] for a subprocess that runs and
    [Some false] for one that has exited and is still referenced.
    [playback_lock] is an [asyncio.Lock]: [lock_held] is its flag,
    [lock_waiters] its queue of suspended acquirers with the arguments
    of their [play_audio] call, and [lock_woken] tells that the first of
    them has been woken by [release] and has not run yet. *)
Record AudioManager := {
  state : AudioManagerState;
  audio_queue : list (option (list ascii) * bool);
  unfinished_tasks : nat;
  is_processing_queue : bool;
  current_process : option bool;
  audio_complete : bool;
  audio_state_changed : nat;
  lock_held : bool;
  lock_waiters : list (nat * list ascii * bool);
  lock_woken : bool;
  loops : list loop_state;
  files : gset (list ascii);
  printed : list message;
  accepted : list (list ascii);
  playback_trace : list (list ascii)
}.

(** [__init__]: [audio_complete] is set, nothing is queued, no task
    exists.  [disk] is the content of the audio cache. *)
Definition init (disk : gset (list ascii)) : AudioManager :=
  {| state := fresh_state; audio_queue := []; unfinished_tasks := 0;
     is_processing_queue := false; current_process := None;
     audio_complete := true; audio_state_changed := 0;
     lock_held := false; lock_waiters := []; lock_woken := false;
     loops := []; files := disk; printed := [];
     accepted := []; playback_trace := [] |}.

(** Assignments to one field. *)
Definition set_state (f : AudioManagerState → AudioManagerState)
    (m : AudioManager) : AudioManager :=
  Build_AudioManager (f (state m)) (audio_queue m) (unfinished_tasks m)
    (is_processing_queue m) (current_process m) (audio_complete m)
    (audio_state_changed m) (lock_held m) (lock_waiters m) (lock_woken m)
    (loops m) (files m) (printed m) (accepted m) (playback_trace m).

Definition set_audio_queue (q : list (option (list ascii) * bool))
    (m : AudioManager) : AudioManager :=
  Build_AudioManager (state m) q (unfinished_tasks m)
    (is_processing_queue m) (current_process m) (audio_complete m)
    (audio_state_changed m) (lock_held m) (lock_waiters m) (lock_woken m)
    (loops m) (files m) (printed m) (accepted m) (playback_trace m).

Definition set_unfinished_tasks (n : nat) (m : AudioManager) : AudioManager :=
  Build_AudioManager (state m) (audio_queue m) n (is_processing_queue m)
    (current_process m) (audio_complete m) (audio_state_changed m)
    (lock_held m) (lock_waiters m) (lock_woken m) (loops m) (files m)
    (printed m) (accepted m) (playback_trace m).

Definition set_is_processing_queue (v : bool) (m : AudioManager) : AudioManager :=
  Build_AudioManager (state m) (audio_queue m) (unfinished_tasks m) v
    (current_process m) (audio_complete m) (audio_state_changed m)
    (lock_held m) (lock_waiters m) (lock_woken m) (loops m) (files m)
    (printed m) (accepted m) (playback_trace m).

Definition set_current_process (p : option bool) (m : AudioManager) : AudioManager :=
  Build_AudioManager (state m) (audio_queue m) (unfinished_tasks m)
    (is_processing_queue m) p (audio_complete m) (audio_state_changed m)
    (lock_held m) (lock_waiters m) (lock_woken m) (loops m) (files m)
    (printed m) (accepted m) (playback_trace m).

Definition set_audio_complete (v : bool) (m : AudioManager) : AudioManager :=
  Build_AudioManager (state m) (audio_queue m) (unfinished_tasks m)
    (is_processing_queue m) (current_process m) v (audio_state_changed m)
    (lock_held m) (lock_waiters m) (lock_woken m) (loops m) (files m)
    (printed m) (accepted m) (playback_trace m).

Definition set_audio_state_changed (n : nat) (m : AudioManager) : AudioManager :=
  Build_AudioManager (state m) (audio_queue m) (unfinished_tasks m)
    (is_processing_queue m) (current_process m) (audio_complete m) n
    (lock_held m) (lock_waiters m) (lock_woken m) (loops m) (files m)
    (printed m) (accepted m) (playback_trace m).

Definition set_lock (held : bool) (waiters : list (nat * list ascii * bool))
    (woken : bool) (m : AudioManager) : AudioManager :=
  Build_AudioManager (state m) (audio_queue m) (unfinished_tasks m)
    (is_processing_queue m) (current_process m) (audio_complete m)
    (audio_state_changed m) held waiters woken (loops m) (files m)
    (printed m) (accepted m) (playback_trace m).

Definition set_loops (l : list loop_state) (m : AudioManager) : AudioManager :=
  Build_AudioManager (state m) (audio_queue m) (unfinished_tasks m)
    (is_processing_queue m) (current_process m) (audio_complete m)
    (audio_state_changed m) (lock_held m) (lock_waiters m) (lock_woken m) l
    (files m) (printed m) (accepted m) (playback_trace m).

Definition set_files (fs : gset (list ascii)) (m : AudioManager) : AudioManager :=
  Build_AudioManager (state m) (audio_queue m) (unfinished_tasks m)
    (is_processing_queue m) (current_process m) (audio_complete m)
    (audio_state_changed m) (lock_held m) (lock_waiters m) (lock_woken m)
    (loops m) fs (printed m) (accepted m) (playback_trace m).

Definition print (msg : message) (m : AudioManager) : AudioManager :=
  Build_AudioManager (state m) (audio_queue m) (unfinished_tasks m)
    (is_processing_queue m) (current_process m) (audio_complete m)
    (audio_state_changed m) (lock_held m) (lock_waiters m) (lock_woken m)
    (loops m) (files m) (printed m ++ [msg]) (accepted m) (playback_trace m).

Definition record_accepted (file : str) (m : AudioManager) : AudioManager :=
  Build_AudioManager (state m) (audio_queue m) (unfinished_tasks m)
    (is_processing_queue m) (current_process m) (audio_complete m)
    (audio_state_changed m) (lock_held m) (lock_waiters m) (lock_woken m)
    (loops m) (files m) (printed m) (accepted m ++ [file])
    (playback_trace m).

Definition record_playback (file : str) (m : AudioManager) : AudioManager :=
  Build_AudioManager (state m) (audio_queue m) (unfinished_tasks m)
    (is_processing_queue m) (current_process m) (audio_complete m)
    (audio_state_changed m) (lock_held m) (lock_waiters m) (lock_woken m)
    (loops m) (files m) (printed m) (accepted m)
    (playback_trace m ++ [file]).

Definition set_loop (w : nat) (l : loop_state) (m : AudioManager)
    : AudioManager := set_loops (<[w := l]> (loops m)) m.

(** Truth value of an [Optional[str]] argument. *)
Definition given (o : option str) : bool :=
  match o with Some t => Py.truthy t | None => false end.

(** [os.path.expanduser("~/LAURA/audio_cache")], the home directory
    being written [~]. *)
Definition AUDIO_CACHE_DIR : str := txt "~/LAURA/audio_cache".

Definition decimal (n : nat) : str :=
  txt (DecimalString.NilEmpty.string_of_uint (Nat.to_uint n)).

(** [_generate_unique_audio_filename]: [ts] is
    [int(time.time() * 1000)] and [unique] is [uuid.uuid4().hex]. *)
Definition _generate_unique_audio_filename (ts : nat) (unique : str) : str :=
  AUDIO_CACHE_DIR ++ txt "/tts_" ++ decimal ts ++ txt "_" ++ unique
    ++ txt ".mp3".

Global Arguments _generate_unique_audio_filename : simpl never.

(** What the ElevenLabs call does: it returns audio bytes or raises. *)
Inductive tts_outcome := TtsBytes (nbytes : nat) | TtsRaises.

(** [_save_tts_to_file]: what it does to the manager and the disk before
    it returns or, when the ElevenLabs call raises, before it raises the
    exception again. *)
Definition _save_tts_to_file (text file_path : str) (tts : tts_outcome)
    (m : AudioManager) : AudioManager :=
  let m := print (MsgGeneratingTts (take 64 text)) m in
  match tts with
  | TtsBytes n =>
      let m := print (MsgElevenLabsGenerated n) m in
      let m := set_files ({[file_path]} ∪ files m) m in
      print (MsgSavedTts file_path) m
  | TtsRaises => print MsgElevenLabsError m
  end.

(** [asyncio.create_task(self.process_audio_queue())] *)
Definition create_task (m : AudioManager) : AudioManager :=
  set_loops (loops m ++ [Created]) m.

(** The test of [queue_audio] under [if audio_file:]:
    [audio_file in currently_queued_files or
     audio_file == current_audio_file]. *)
Definition already_queued (audio_file : option str) (m : AudioManager)
    : bool :=
  match audio_file with
  | Some f =>
      Py.truthy f &&
      (bool_decide (f ∈ currently_queued_files (state m))
       || bool_decide (Some f = current_audio_file (state m)))
  | None => false
  end.

(** [self.state.currently_queued_files.add(audio_file)], under
    [if audio_file:]. *)
Definition add_queued (audio_file : option str) (m : AudioManager)
    : AudioManager :=
  match audio_file with
  | Some f =>
      if Py.truthy f then
        record_accepted f
          (set_state (λ st,
             {| is_playing := is_playing st;
                is_speaking := is_speaking st;
                is_listening := is_listening st;
                playback_start_time := playback_start_time st;
                current_audio_file := current_audio_file st;
                expected_duration := expected_duration st;
                currently_queued_files :=
                  {[f]} ∪ currently_queued_files st |}) m)
      else m
  | None => m
  end.

(** [queue_audio] from [if audio_file:] on. *)
Definition queue_audio_put (audio_file : option str)
    (delete_after_play : bool) (m : AudioManager) : AudioManager :=
  if already_queued audio_file m
  then print (MsgAlreadyQueued (default [] audio_file)) m
  else
    let m := add_queued audio_file m in
    let m := set_audio_queue
               (audio_queue m ++ [(audio_file, delete_after_play)]) m in
    let m := set_unfinished_tasks (S (unfinished_tasks m)) m in
    if negb (is_processing_queue m) then create_task m else m.

(** [queue_audio].  The only await that suspends is the synthesis, and
    nothing of the manager is read before it returns, so the call acts
    on the manager in one step. *)
Definition queue_audio (audio_file generated_text : option str)
    (delete_after_play : bool) (ts : nat) (unique : str)
    (tts : tts_outcome) (m : AudioManager) : AudioManager :=
  if given generated_text && negb (given audio_file) then
    let unique_file := _generate_unique_audio_filename ts unique in
    let m :=
      _save_tts_to_file (default [] generated_text) unique_file tts m in
    match tts with
    | TtsBytes _ => queue_audio_put (Some unique_file) delete_after_play m
    | TtsRaises => print MsgErrorGeneratingTts m
    end
  else queue_audio_put audio_file delete_after_play m.

(** [play_audio] from the first statement under [playback_lock] to the
    await of [create_subprocess_shell].  [now] is [time.time()]; [mp3] is
    the length that [MP3(audio_file)] reads, [None] when it raises. *)
Definition play_audio_begin (w : nat) (audio_file : str)
    (delete_after_play : bool) (now : nat) (mp3 : option nat)
    (m : AudioManager) : AudioManager :=
  let m := set_state (λ st,
             {| is_playing := true; is_speaking := true;
                is_listening := is_listening st;
                playback_start_time := Some now;
                current_audio_file := Some audio_file;
                expected_duration := expected_duration st;
                currently_queued_files := currently_queued_files st |}) m in
  let m := set_audio_complete false m in
  let m := match mp3 with Some _ => m | None => print MsgErrorDuration m end in
  let m := set_state (λ st,
             {| is_playing := is_playing st; is_speaking := is_speaking st;
                is_listening := is_listening st;
                playback_start_time := playback_start_time st;
                current_audio_file := current_audio_file st;
                expected_duration := Some (default 2000 mp3);
                currently_queued_files := currently_queued_files st |}) m in
  set_loop w (Playing Spawning audio_file delete_after_play)
    (record_playback audio_file m).

(** [async with self.playback_lock]: [Lock.acquire] succeeds at once when
    the lock is free and nobody waits for it, and suspends the caller at
    the end of the waiters otherwise. *)
Definition play_audio (w : nat) (audio_file : str)
    (delete_after_play : bool) (now : nat) (mp3 : option nat)
    (m : AudioManager) : AudioManager :=
  if negb (lock_held m) && bool_decide (lock_waiters m = []) then
    play_audio_begin w audio_file delete_after_play now mp3
      (set_lock true [] false m)
  else
    set_loop w Waiting
      (set_lock (lock_held m)
         (lock_waiters m ++ [(w, audio_file, delete_after_play)])
         (lock_woken m) m).

(** [self.audio_queue.task_done()] *)
Definition task_done (m : AudioManager) : AudioManager :=
  set_unfinished_tasks (unfinished_tasks m - 1) m.

(** [while self.is_processing_queue:] at the top of the loop of
    [process_audio_queue]: the task goes on to wait for an item, or
    leaves the loop through [finally]. *)
Definition loop_again (w : nat) (m : AudioManager) : AudioManager :=
  if is_processing_queue m then set_loop w AtGet m
  else set_is_processing_queue false (set_loop w Finished m).

(** First statement of [process_audio_queue], run when the task is
    scheduled for the first time. *)
Definition process_audio_queue_start (w : nat) (m : AudioManager)
    : AudioManager :=
  match loops m !! w with
  | Some Created => loop_again w (set_is_processing_queue true m)
  | _ => m
  end.

(** [await asyncio.wait_for(self.audio_queue.get(), timeout=1.0)]
    returns an item: for an item with a file the task calls
    [play_audio]; for one without it calls [task_done] and loops.  The
    dequeue and the call are one step: when [wait_for] runs [get()] in
    a task of its own, the event loop wakes the waiting loops in the
    order in which their items were taken. *)
Definition process_audio_queue_get (w : nat) (now : nat)
    (mp3 : option nat) (m : AudioManager) : AudioManager :=
  match loops m !! w, audio_queue m with
  | Some AtGet, (audio_file, delete_after_play) :: rest =>
      let m := set_audio_queue rest m in
      match audio_file with
      | Some f =>
          if Py.truthy f
          then play_audio w f delete_after_play now mp3 m
          else loop_again w (task_done m)
      | None => loop_again w (task_done m)
      end
  | _, _ => m
  end.

(** The queue stayed empty for a second: [TimeoutError], [continue]. *)
Definition process_audio_queue_timeout (w : nat) (m : AudioManager)
    : AudioManager :=
  match loops m !! w, audio_queue m with
  | Some AtGet, [] => loop_again w m
  | _, _ => m
  end.

(** The waiter that [Lock.release] has woken runs again: it leaves the
    waiters, takes the lock and goes on in [play_audio]. *)
Definition lock_resume (w : nat) (now : nat) (mp3 : option nat)
    (m : AudioManager) : AudioManager :=
  match loops m !! w, lock_waiters m with
  | Some Waiting, (w', audio_file, delete_after_play) :: rest =>
      if lock_woken m && bool_decide (w' = w)
      then play_audio_begin w audio_file delete_after_play now mp3
             (set_lock true rest false m)
      else m
  | _, _ => m
  end.

(** [Lock.release]: the first waiter, if any, is woken. *)
Definition release (m : AudioManager) : AudioManager :=
  set_lock false (lock_waiters m)
    (negb (bool_decide (lock_waiters m = []))) m.

(** The [finally] block of [play_audio], the release of
    [playback_lock], and the two statements of [process_audio_queue]
    that follow the call: [currently_queued_files.discard] and
    [task_done]. *)
Definition play_audio_finally (w : nat) (audio_file : str)
    (delete_after_play : bool) (m : AudioManager) : AudioManager :=
  let m := set_current_process None m in
  let m := set_state (λ st,
             {| is_playing := false; is_speaking := false;
                is_listening := is_listening st;
                playback_start_time := None;
                current_audio_file := None;
                expected_duration := None;
                currently_queued_files := currently_queued_files st |}) m in
  let m := set_audio_complete true m in
  let m := set_audio_state_changed (S (audio_state_changed m)) m in
  let m := if delete_after_play && bool_decide (audio_file ∈ files m)
           then print (MsgDeleted audio_file)
                  (set_files (files m ∖ {[audio_file]}) m)
           else m in
  let m := release m in
  let m := set_state (λ st,
             {| is_playing := is_playing st; is_speaking := is_speaking st;
                is_listening := is_listening st;
                playback_start_time := playback_start_time st;
                current_audio_file := current_audio_file st;
                expected_duration := expected_duration st;
                currently_queued_files :=
                  currently_queued_files st ∖ {[audio_file]} |}) m in
  loop_again w (task_done m).

(** The await of [create_subprocess_shell] is over: with a subprocess, or
    with an exception that [except Exception] prints. *)
Definition spawn_done (w : nat) (ok : bool) (m : AudioManager)
    : AudioManager :=
  match loops m !! w with
  | Some (Playing Spawning f d) =>
      if ok
      then set_loop w (Playing Running f d) (set_current_process (Some true) m)
      else play_audio_finally w f d (print MsgErrorInPlayAudio m)
  | _ => m
  end.

(** The subprocess exits and [current_process.wait()] returns; the exit
    status is not looked at. *)
Definition process_exit (w : nat) (returncode : Z) (m : AudioManager)
    : AudioManager :=
  match loops m !! w with
  | Some (Playing Running f d) =>
      set_loop w (Playing Settling f d) (set_current_process (Some false) m)
  | _ => m
  end.

(** [asyncio.sleep(0.7)] is over. *)
Definition settle_done (w : nat) (m : AudioManager) : AudioManager :=
  match loops m !! w with
  | Some (Playing Settling f d) => play_audio_finally w f d m
  | _ => m
  end.

(** [stop_current_audio]: [terminate()] signals a running subprocess,
    whose exit is then seen by [process_exit], and raises for one that
    has exited already.  The message of the first case is printed when
    the subprocess has exited. *)
Definition stop_current_audio (m : AudioManager) : AudioManager :=
  match current_process m with
  | Some true => print MsgStopped m
  | Some false => print MsgErrorStopping m
  | None => m
  end.

Definition clear_queue (m : AudioManager) : AudioManager :=
  let m := set_unfinished_tasks
             (unfinished_tasks m - length (audio_queue m)) m in
  let m := set_audio_queue [] m in
  let m := set_state (λ st,
             {| is_playing := is_playing st; is_speaking := is_speaking st;
                is_listening := is_listening st;
                playback_start_time := playback_start_time st;
                current_audio_file := current_audio_file st;
                expected_duration := expected_duration st;
                currently_queued_files := ∅ |}) m in
  print MsgQueueCleared m.

(** [stop_audio_queue] up to its await. *)
Definition stop_audio_queue (m : AudioManager) : AudioManager :=
  set_is_processing_queue false m.

(** The steps that the event loop can run, with what the environment
    supplies to each. *)
Inductive event :=
| QueueAudio (audio_file generated_text : option (list ascii))
    (delete_after_play : bool) (ts : nat) (unique : list ascii)
    (tts : tts_outcome)
| LoopStart (w : nat)
| LoopGet (w : nat) (now : nat) (mp3 : option nat)
| LoopTimeout (w : nat)
| LockResume (w : nat) (now : nat) (mp3 : option nat)
| SpawnDone (w : nat) (ok : bool)
| ProcessExit (w : nat) (returncode : Z)
| SettleDone (w : nat)
| StopCurrentAudio
| ClearQueue
| StopAudioQueue.

Definition step (m : AudioManager) (e : event) : AudioManager :=
  match e with
  | QueueAudio audio_file generated_text d ts unique tts =>
      queue_audio audio_file generated_text d ts unique tts m
  | LoopStart w => process_audio_queue_start w m
  | LoopGet w now mp3 => process_audio_queue_get w now mp3 m
  | LoopTimeout w => process_audio_queue_timeout w m
  | LockResume w now mp3 => lock_resume w now mp3 m
  | SpawnDone w ok => spawn_done w ok m
  | ProcessExit w returncode => process_exit w returncode m
  | SettleDone w => settle_done w m
  | StopCurrentAudio => stop_current_audio m
  | ClearQueue => clear_queue m
  | StopAudioQueue => stop_audio_queue m
  end.

Definition run (m : AudioManager) (es : list event) : AudioManager :=
  fold_left step es m.

(** A call either returns, or suspends the caller, or raises. *)
Inductive exception := TypeError | TimeoutError.

Inductive outcome := Returned | Suspended | Raised (e : exception).

(** [wait_for_audio_completion(self)] called with the keyword arguments
    [kwargs]: the method has no parameter but [self], so any keyword is
    a [TypeError]. *)
Definition wait_for_audio_completion (kwargs : list string)
    (m : AudioManager) : outcome :=
  match kwargs with
  | [] =>
      if is_playing (state m) && negb (audio_complete m)
      then Suspended else Returned
  | _ :: _ => Raised TypeError
  end.

(** [wait_for_queue_empty(self)]: [audio_queue.join()]. *)
Definition wait_for_queue_empty (kwargs : list string)
    (m : AudioManager) : outcome :=
  match kwargs with
  | [] => if unfinished_tasks m =? 0 then Returned else Suspended
  | _ :: _ => Raised TypeError
  end.




(** The loops that have started and not returned. *)
Definition active (l : loop_state) : bool :=
  match l with Created | Finished => false | _ => true end.

Definition active_loops (m : AudioManager) : nat :=
  length (filter (λ l, active l = true) (loops m)).

Definition in_playback (l : loop_state) : bool :=
  match l with Playing _ _ _ => true | _ => false end.



End Audio.

(** ** More Python string primitives *)
Module PyStr.

(** [c.isdigit()] for one character: 0-9 and the superscripts two, three
    and one. *)
Definition isdigit_char (c : ascii) : bool :=
  let n := Py.code c in
  ((48 <=? n) && (n <=? 57)) || (n =? 178) || (n =? 179) || (n =? 185).

(** [t.isdigit()]: not empty, and digits only. *)
Definition isdigit (t : str) : bool :=
  Py.truthy t && forallb isdigit_char t.

(** [sys.int_info.default_max_str_digits] *)
Definition max_str_digits : nat := 4300.

(** [int(t)] for a [t] with [t.isdigit()]: the decimal value, or [None]
    for the [ValueError] raised on a superscript digit or on more than
    [max_str_digits] digits. *)
Definition int (t : str) : option nat :=
  if max_str_digits <? length t then None
  else Nat.of_uint <$>
         DecimalString.NilEmpty.uint_of_string (string_of_list_ascii t).

(** [t.rsplit(sep, 1)]: [None] stands for the one-element list [[t]],
    [Some (x, y)] for [[x, y]]. *)
Fixpoint rsplit1 (sep : ascii) (t : str) : option (str * str) :=
  match t with
  | c :: r =>
      match rsplit1 sep r with
      | Some (x, y) => Some (c :: x, y)
      | None => if Py.eqc c sep then Some ([], r) else None
      end
  | [] => None
  end.

(** [t.lstrip(chars)] *)
Fixpoint lstrip_chars (chars : list ascii) (t : str) : str :=
  match t with
  | c :: r => if bool_decide (c ∈ chars) then lstrip_chars chars r else t
  | [] => []
  end.

(** Whether all of [t] matches [\s*\.\s*]. *)
Fixpoint period_to_end (t : str) : bool :=
  match t with
  | c :: r =>
      if Py.eqc c "."%char then forallb Py.isspace r
      else Py.isspace c && period_to_end r
  | [] => false
  end.

(** [re.sub(r'\s*\.\s*$', '', t)]: the text is cut at the first position
    from which a period, with white space around it, ends the text. *)
Fixpoint sub_trailing_period (t : str) : str :=
  match t with
  | c :: r => if period_to_end t then [] else c :: sub_trailing_period r
  | [] => []
  end.

End PyStr.

(** ** [SimplifiedTTSProcessor._normalize_for_comparison] *)
Module Comparison.

(** The characters that [lstrip] is given: the double quote (code 34),
    the single quote and the backquote. *)
Definition quotes : list ascii := [ascii_of_nat 34; "'"%char; "`"%char].

Definition _normalize_for_comparison (text : str) : str :=
  if negb (Py.truthy text) then []
  else
    let normalized := Py.collapse_ws text in
    let normalized := PyStr.lstrip_chars quotes (Py.strip normalized) in
    let normalized := PyStr.sub_trailing_period normalized in
    let normalized := Py.collapse_ws normalized in
    Py.strip normalized.

End Comparison.

(** ** [StreamingTTSHandler] (smart_streaming_processor.py)

    A call of [process_stream_chunk] runs alone up to
    [await self.audio_manager.queue_audio(...)], where the synthesis
    suspends it, and goes on when that call has returned;
    [_cleanup_response] is a task that sleeps and then runs alone.  The
    model has one step for each of these stretches.  Clock readings are
    whole seconds. *)
Module Handler.

Record TextChunk := {
  content : list ascii;
  response_id : option (list ascii);
  sequence_number : nat;
  is_complete : bool;
  timestamp : nat
}.

(** [audio_manager] records whether the handler was given an audio
    manager or [None]. *)
Record StreamingTTSHandler := {
  audio_manager : bool;
  processed_response_ids : gset (option (list ascii));
  processing_lock : bool;
  current_response_base_id : option (list ascii);
  response_chunks : gmap (list ascii) (list TextChunk);
  chunk_counter : gmap (list ascii) nat
}.

Definition init (has_manager : bool) : StreamingTTSHandler :=
  {| audio_manager := has_manager; processed_response_ids := ∅;
     processing_lock := false; current_response_base_id := None;
     response_chunks := ∅; chunk_counter := ∅ |}.

Definition keywords : list str := [txt "chunk"; txt "delta"; txt "final"].

(** The loop over [base_parts]: a keyword is dropped together with the
    part that follows it. *)
Fixpoint filtered_parts (skip_next : bool) (base_parts : list str)
    : list str :=
  match base_parts with
  | part :: rest =>
      if skip_next then filtered_parts false rest
      else if Py.mem part keywords then filtered_parts true rest
      else part :: filtered_parts false rest
  | [] => []
  end.

(** ['-'.join(filtered_parts[:3])] *)
Definition clean_base_id (base_id : str) : str :=
  Py.join "-" (take 3 (filtered_parts false (Py.split "-" base_id))).

(** [_parse_response_id]; [now] is [int(time.time())].  The only
    statement of the [try] block that can raise is [int(parts[1])]. *)
Definition _parse_response_id (response_id : option str) (now : nat)
    : str * nat :=
  match response_id with
  | Some id =>
      if Py.truthy id then
        match PyStr.rsplit1 "-" id with
        | Some (base_id, last) =>
            if PyStr.isdigit last then
              match PyStr.int last with
              | Some sequence_num => (clean_base_id base_id, sequence_num)
              | None => (id, 0)
              end
            else (clean_base_id id, 0)
        | None => (clean_base_id id, 0)
        end
      else (txt "unknown-" ++ Audio.decimal now, 0)
  | None => (txt "unknown-" ++ Audio.decimal now, 0)
  end.

(** The handler with the tasks of the event loop that belong to it:
    [calls] are the calls of [process_stream_chunk] suspended in
    [queue_audio], with their [base_id] and [is_complete];
    [sleepers] are the [_cleanup_response] tasks that sleep, with their
    [base_id]. *)
Record system := {
  handler : StreamingTTSHandler;
  calls : list (list ascii * bool);
  sleepers : list (list ascii)
}.

Definition start (has_manager : bool) : system :=
  {| handler := init has_manager; calls := []; sleepers := [] |}.

Definition set_processed (ids : gset (option (list ascii)))
    (h : StreamingTTSHandler) : StreamingTTSHandler :=
  {| audio_manager := audio_manager h; processed_response_ids := ids;
     processing_lock := processing_lock h;
     current_response_base_id := current_response_base_id h;
     response_chunks := response_chunks h;
     chunk_counter := chunk_counter h |}.

Definition set_chunks (chunks : gmap (list ascii) (list TextChunk))
    (counter : gmap (list ascii) nat) (h : StreamingTTSHandler)
    : StreamingTTSHandler :=
  {| audio_manager := audio_manager h;
     processed_response_ids := processed_response_ids h;
     processing_lock := processing_lock h;
     current_response_base_id := current_response_base_id h;
     response_chunks := chunks; chunk_counter := counter |}.

(** [_finalize_response]: the statistics are only logged; the cleanup
    task is created unless the response is unknown. *)
Definition _finalize_response (base_id : str) (s : system) : system :=
  if bool_decide (base_id ∈ dom (response_chunks (handler s)))
  then {| handler := handler s; calls := calls s;
          sleepers := sleepers s ++ [base_id] |}
  else s.

(** The end of [process_stream_chunk]: [if is_complete: ...]. *)
Definition finish (base_id : str) (complete : bool) (s : system) : system :=
  if complete then _finalize_response base_id s else s.

(** What a call of [process_stream_chunk] asks of the audio manager:
    [Some text] for [queue_audio(generated_text=text,
    delete_after_play=True)]. *)
Definition process_stream_chunk (text : str) (complete : bool)
    (id : option str) (now : nat) (s : system) : system * option str :=
  let h := handler s in
  let '(base_id, sequence_num) := _parse_response_id id now in
  if bool_decide (id ∈ processed_response_ids h) then (s, None)
  else
    let h := set_processed ({[id]} ∪ processed_response_ids h) h in
    let chunk := {| content := Py.strip text; response_id := id;
                    sequence_number := sequence_num;
                    is_complete := complete; timestamp := now |} in
    let h :=
      if bool_decide (base_id ∈ dom (response_chunks h)) then h
      else set_chunks (<[base_id := []]> (response_chunks h))
             (<[base_id := 0]> (chunk_counter h)) h in
    let h :=
      set_chunks
        (<[base_id := default [] (response_chunks h !! base_id) ++ [chunk]]>
           (response_chunks h))
        (chunk_counter h) h in
    if Py.truthy (content chunk) && (5 <? length (content chunk)) then
      if audio_manager h then
        ({| handler := h; calls := calls s ++ [(base_id, complete)];
            sleepers := sleepers s |},
         Some (content chunk))
      else
        (* [None.queue_audio] raises [AttributeError]; the handler of
           the exception takes the identifier back. *)
        let h := set_processed (processed_response_ids h ∖ {[id]}) h in
        (finish base_id complete
           {| handler := h; calls := calls s; sleepers := sleepers s |},
         None)
    else
      (finish base_id complete
         {| handler := h; calls := calls s; sleepers := sleepers s |},
       None).

(** [queue_audio] has returned to the [k]-th suspended call. *)
Definition queue_audio_returns (k : nat) (s : system) : system :=
  match calls s !! k with
  | Some (base_id, complete) =>
      finish base_id complete
        {| handler := handler s; calls := delete k (calls s);
           sleepers := sleepers s |}
  | None => s
  end.

(** [_cleanup_response] after its sleep.  [del d[k]] raises [KeyError]
    when [k] is not in [d]: [None] stands for a task that ends with this
    exception. *)
Definition _cleanup_response (k : nat) (s : system) : option system :=
  match sleepers s !! k with
  | Some base_id =>
      let h := handler s in
      let rest := delete k (sleepers s) in
      if bool_decide (base_id ∈ dom (response_chunks h)) then
        if bool_decide (base_id ∈ dom (chunk_counter h)) then
          Some {| handler := set_chunks (delete base_id (response_chunks h))
                               (delete base_id (chunk_counter h)) h;
                  calls := calls s; sleepers := rest |}
        else None
      else Some {| handler := h; calls := calls s; sleepers := rest |}
  | None => Some s
  end.

(** [reset_conversation]; its call of [clear_queue] is the audio
    manager's business. *)
Definition reset_conversation (s : system) : system :=
  {| handler :=
       {| audio_manager := audio_manager (handler s);
          processed_response_ids := ∅; processing_lock := false;
          current_response_base_id := None;
          response_chunks := ∅; chunk_counter := ∅ |};
     calls := calls s; sleepers := sleepers s |}.

Inductive event :=
| Chunk (text : list ascii) (complete : bool) (id : option (list ascii))
    (now : nat)
| QueueAudioReturns (k : nat)
| CleanupWakes (k : nat)
| ResetConversation.

Definition step (s : system) (e : event) : option system :=
  match e with
  | Chunk text complete id now =>
      Some (process_stream_chunk text complete id now s).1
  | QueueAudioReturns k => Some (queue_audio_returns k s)
  | CleanupWakes k => _cleanup_response k s
  | ResetConversation => Some (reset_conversation s)
  end.

(** A run stops at the first task that ends with an exception. *)
Fixpoint run (s : system) (es : list event) : option system :=
  match es with
  | e :: rest =>
      match step s e with
      | Some s' => run s' rest
      | None => None
      end
  | [] => Some s
  end.

End Handler.

(** * Notions used in the statements *)

(** ** Blocks common to two strings, and the table of the matcher *)
Module Lcs.
(** Positions of [c] in [b], counted from [i], in increasing order. *)
Fixpoint positions (i : nat) (c : ascii) (b : str) : list nat :=
  match b with
  | x :: r =>
      if Py.eqc x c then i :: positions (S i) c r else positions (S i) c r
  | [] => []
  end.

(** [a[i : i+k]] and [b[j : j+k]] are the same string. *)
Definition common_block (a b : str) (i j k : nat) : Prop :=
  i + k ≤ length a ∧ j + k ≤ length b ∧
  ∀ t, t < k → a !! (i + t) = b !! (j + t).

(** The columns that row [i] of the matcher visits. *)
Definition cand (b2j : gmap ascii (list nat)) (a : str) (i : nat) : list nat :=
  match a !! i with
  | Some c => default [] (b2j !! c)
  | None => []
  end.

(** The number [k] that the matcher writes in cell [(i, j)]. *)
Fixpoint cell (b2j : gmap ascii (list nat)) (a : str) (i j : nat) : nat :=
  let prev := match i, j with
              | S i', S j' => cell b2j a i' j'
              | _, _ => 0
              end in
  if bool_decide (j ∈ cand b2j a i) then S prev else 0.

(** [j2lenget(j-1, 0)] *)
Definition prev (j2len : gmap nat nat) (j : nat) : nat :=
  match j with O => 0 | S j' => default 0 (j2len !! j') end.

End Lcs.

(** ** Events of the draft buffer *)
Section DraftNotions.
Import Dedup.

(** The events that can take the entry of [b] away. *)
Definition releases (b : str) (e : event) : Prop :=
  match e with
  | Chunk _ id true => _get_base_response_id id = b
  | ResetConversation => True
  | _ => False
  end.

(** [n] abandoned turns: draft [k] has the identifier made of [k] letters
    [r] and the suffix [-oneshot]; five idle minutes follow each draft. *)
Definition abandoned_id (k : nat) : str :=
  replicate k "r"%char ++ txt "-oneshot".

Fixpoint abandoned (n : nat) : list event :=
  match n with
  | O => []
  | S k => abandoned k ++ [Chunk (txt "draft") (abandoned_id k) false; Idle 300]
  end.

End DraftNotions.

(** ** Invariants and history of the audio manager *)
Section PlaybackNotions.
Import Audio.

(** What [current_process] holds in each await of [play_audio]. *)
Definition proc_of (ph : phase) : option bool :=
  match ph with
  | Spawning => None
  | Running => Some true
  | Settling => Some false
  end.

(** The playback fields as [finally] leaves them. *)
Definition cleared (st : AudioManagerState) : Prop :=
  is_playing st = false ∧ is_speaking st = false ∧
  playback_start_time st = None ∧ current_audio_file st = None ∧
  expected_duration st = None.

(** The invariant of the manager: a task inside the body of [play_audio]
    holds [playback_lock], it is the only one, and the playback fields
    describe it; when the lock is free the playback fields are cleared;
    a waiter is woken only when the lock is free. *)
Record Inv (m : AudioManager) : Prop := {
  inv_playing : ∀ w ph f d, loops m !! w = Some (Playing ph f d) →
    lock_held m = true ∧ is_playing (state m) = true ∧
    is_speaking (state m) = true ∧
    current_audio_file (state m) = Some f ∧ audio_complete m = false ∧
    current_process m = proc_of ph ∧
    ∀ w' ph' f' d', loops m !! w' = Some (Playing ph' f' d') → w' = w;
  inv_idle : lock_held m = false →
    cleared (state m) ∧ current_process m = None ∧ audio_complete m = true;
  inv_held : lock_held m = true →
    ∃ w ph f d, loops m !! w = Some (Playing ph f d);
  inv_woken : lock_woken m = true → lock_held m = false
}.

(** The manager with what was printed forgotten. *)
Definition silent (m : AudioManager) : AudioManager :=
  Build_AudioManager (state m) (audio_queue m) (unfinished_tasks m)
    (is_processing_queue m) (current_process m) (audio_complete m)
    (audio_state_changed m) (lock_held m) (lock_waiters m) (lock_woken m)
    (loops m) (files m) [] (accepted m) (playback_trace m).

(** The files of the tasks suspended on [playback_lock], first come first. *)
Definition waiting_files (m : AudioManager) : list str :=
  (λ x, x.1.2) <$> lock_waiters m.

(** The file of a queue item, when [if audio_file:] holds for it. *)
Definition file_of_item (x : option str * bool) : option str :=
  match x.1 with
  | Some f => if Py.truthy f then Some f else None
  | None => None
  end.

(** The files of the items of [audio_queue], first in first. *)
Definition queued_files (m : AudioManager) : list str :=
  omap file_of_item (audio_queue m).

(** The files still to play, in the order in which they will be. *)
Definition pending (m : AudioManager) : list str :=
  waiting_files m ++ queued_files m.

(** The fields that the order of playback depends on. *)
Record order_fields (m' : AudioManager) (tr : list str)
    (ws : list (nat * list ascii * bool))
    (q : list (option (list ascii) * bool)) (acc : list str) : Prop := {
  of_trace : playback_trace m' = tr;
  of_waiters : lock_waiters m' = ws;
  of_queue : audio_queue m' = q;
  of_accepted : accepted m' = acc
}.

(** The fields that deduplication reads. *)
Record names_fields (m' : AudioManager) (qs : gset (list ascii))
    (cur : option (list ascii)) : Prop := {
  nf_queued : currently_queued_files (state m') = qs;
  nf_current : current_audio_file (state m') = cur
}.




(** The pending set, the current file, the files played and the files to
    play hold accepted files only. *)
Definition known (m : AudioManager) : Prop :=
  ∀ f, (f ∈ currently_queued_files (state m) ∨
        current_audio_file (state m) = Some f ∨
        f ∈ playback_trace m ∨ f ∈ pending m) → f ∈ accepted m.

(** The identity of the task that an event tries to enqueue. *)
Definition identity (e : event) : option str :=
  match e with
  | QueueAudio o g d ts u tts =>
      if given g && negb (given o) then
        match tts with
        | TtsBytes _ => Some (_generate_unique_audio_filename ts u)
        | TtsRaises => None
        end
      else file_of_item (o, d)
  | _ => None
  end.

(** [queue_audio(audio_file=f, delete_after_play=d)] *)
Definition enq (f : string) (d : bool) : event :=
  QueueAudio (Some (txt f)) None d 0 [] TtsRaises.

(** [queue_audio(generated_text=text, delete_after_play=True)], as
    [_queue_for_tts] calls it, with a synthesis that succeeds. *)
Definition speak (text : string) (ts : nat) (unique : string) : event :=
  QueueAudio None (Some (txt text)) true ts (txt unique) (TtsBytes 1024).

(** One playback by loop [w], from the dequeue to the end of [finally]. *)
Definition plays (w : nat) (returncode : Z) : list event :=
  [LoopGet w 0 (Some 1500); SpawnDone w true; ProcessExit w returncode;
   SettleDone w].


End PlaybackNotions.

(** ** The first of the longest blocks *)
Section MatcherNotions.
Import Difflib Lcs.

(** [best] is the block that ends in the first cell, rows first, that
    holds the largest value of the rows before [i]; it is the initial
    block when no cell holds a value. *)
Definition first_cell (b2j : gmap ascii (list nat)) (a : str) (i : nat)
    (best : Match) : Prop :=
  (m_size best = 0 ∧ m_a best = 0 ∧ m_b best = 0) ∨
  ∃ i0 j0, i0 < i ∧ 0 < m_size best ∧
    cell b2j a i0 j0 = m_size best ∧
    m_a best = S i0 - m_size best ∧ m_b best = S j0 - m_size best ∧
    ∀ i' j', i' < i → cell b2j a i' j' = m_size best →
             i0 < i' ∨ (i0 = i' ∧ j0 ≤ j').

End MatcherNotions.

(** ** Counting, deleting and clearing in the audio manager *)
Section ManagerNotions.
Import Audio.




(** The player was launched for the file of every task in the body of
    [play_audio]. *)
Definition traced (m : AudioManager) : Prop :=
  ∀ w ph f d, loops m !! w = Some (Playing ph f d) → f ∈ playback_trace m.

(** The files that are playing or still to play. *)
Definition in_flight (m : AudioManager) : list str :=
  option_list (current_audio_file (state m)) ++ pending m.

(** The pending set holds the files in flight, each once. *)
Definition exact (m : AudioManager) : Prop :=
  NoDup (in_flight m) ∧
  ∀ f, f ∈ currently_queued_files (state m) ↔ f ∈ in_flight m.

(** The events that call [queue_audio]. *)
Definition enqueues (e : event) : bool :=
  match e with QueueAudio _ _ _ _ _ _ => true | _ => false end.

End ManagerNotions.

Section DeletionNotions.
Import Audio.

(** What a step may do: the playback trace grows at its end; a task in
    the body of [play_audio] was there before with the same file, or the
    player has just been launched for its file; a file leaves the disk
    only when a task has it in the body of [play_audio]. *)
Definition step_effect (m m' : AudioManager) : Prop :=
  playback_trace m `prefix_of` playback_trace m' ∧
  (∀ w ph f d, loops m' !! w = Some (Playing ph f d) →
     (∃ ph', loops m !! w = Some (Playing ph' f d)) ∨
     f ∈ playback_trace m') ∧
  (∀ f, f ∈ files m →
     f ∈ files m' ∨ ∃ w ph d, loops m !! w = Some (Playing ph f d)).

End DeletionNotions.

Section ClearedNotions.
Import Audio.


End ClearedNotions.

Section DiskNotions.
Import Audio.

(** The calls of [queue_audio] that give no [audio_file]: the file, if
    any, is synthesised by the call. *)
Definition generated (e : event) : bool :=
  match e with
  | QueueAudio o _ _ _ _ _ => negb (given o)
  | _ => true
  end.

(** What a step does to the files in flight and to the disk: files are
    added at the end, and are on disk when they were synthesised; or the
    file that played leaves, and the other files stay on disk. *)
Definition flight_effect (m m' : AudioManager) : Prop :=
  (∃ added, in_flight m' = in_flight m ++ added ∧
            files m ⊆ files m' ∧ ∀ x, x ∈ added → x ∈ files m') ∨
  (∃ f, in_flight m = f :: in_flight m' ∧ files m ∖ {[f]} ⊆ files m').

End DiskNotions.

Section LoopNotions.
Import Audio.

Definition created (l : loop_state) : bool :=
  match l with Created => true | _ => false end.

(** The tasks created by [queue_audio] that have not started yet. *)
Definition created_loops (m : AudioManager) : nat :=
  length (filter (λ l, created l = true) (loops m)).

(** Every call of [queue_audio] in [es] finds the task created by the
    call before it, if any, already started. *)
Definition started_promptly (disk : gset (list ascii)) (es : list event)
    : Prop :=
  ∀ es1 e es2, es = es1 ++ e :: es2 → enqueues e = true →
    created_loops (run (init disk) es1) = 0.

(** One loop at most, created or running; the flag tells which; no task
    waits for the playback lock. *)
Definition single (m : AudioManager) : Prop :=
  created_loops m + active_loops m ≤ 1 ∧
  (is_processing_queue m = false → active_loops m = 0) ∧
  (is_processing_queue m = true → created_loops m = 0) ∧
  lock_waiters m = [].

End LoopNotions.

(** ** The dictionaries of the streaming handler *)
Section HandlerNotions.
Import Handler.

(** The characters that [str(n)] is made of. *)
Definition decimal_digit (c : ascii) : Prop :=
  c ∈ String.list_ascii_of_string "0123456789".

(** The two dictionaries of the handler have the same keys. *)
Definition keyed (s : system) : Prop :=
  dom (response_chunks (handler s)) = dom (chunk_counter (handler s)).

End HandlerNotions.

(** * Properties of the string primitives *)

Lemma truthy_nil_iff (t : str) : Py.truthy t = false ↔ t = [].
Proof. destruct t; simpl; split; congruence. Qed.

Lemma eqc_true (x y : ascii) : Py.eqc x y = true ↔ x = y.
Proof. unfold Py.eqc. apply bool_decide_eq_true. Qed.

Lemma eqc_false (x y : ascii) : Py.eqc x y = false ↔ x ≠ y.
Proof. unfold Py.eqc. apply bool_decide_eq_false. Qed.

Lemma lower_length (t : str) : length (Py.lower t) = length t.
Proof. apply length_map. Qed.

(** Splitting at a separator that occurs nowhere gives the string itself. *)
Lemma split_no_sep (sep : ascii) (t : str) :
  sep ∉ t → Py.split sep t = [t].
Proof.
  induction t as [|c r IH]; intros Hn; simpl; [done|].
  destruct (Py.eqc c sep) eqn:E.
  - apply eqc_true in E. subst. exfalso. apply Hn. left.
  - rewrite IH; [done|]. intros Hin. apply Hn. by right.
Qed.

Lemma split_nonempty (sep : ascii) (t : str) : Py.split sep t ≠ [].
Proof.
  destruct t as [|c r]; simpl; [done|].
  destruct (Py.eqc c sep); [done|]. by destruct (Py.split sep r).
Qed.

Lemma split_app_sep (sep : ascii) (t u : str) :
  sep ∉ t → Py.split sep (t ++ sep :: u) = t :: Py.split sep u.
Proof.
  induction t as [|c r IH]; intros Hn; simpl.
  - replace (Py.eqc sep sep) with true; [done|].
    symmetry. by apply eqc_true.
  - destruct (Py.eqc c sep) eqn:E.
    + apply eqc_true in E. subst. exfalso. apply Hn. left.
    + rewrite IH; [done|]. intros Hin. apply Hn. by right.
Qed.

Lemma startswith_app (p t : str) : Py.startswith p (p ++ t) = true.
Proof.
  induction p as [|c r IH]; simpl; [done|].
  rewrite IH, andb_true_r. by apply eqc_true.
Qed.

Lemma contains_prefix (p t : str) :
  Py.startswith p t = true → Py.contains p t = true.
Proof. intros H. destruct t; simpl; rewrite H; done. Qed.

Lemma contains_app (p t u : str) : Py.contains p (t ++ p ++ u) = true.
Proof.
  induction t as [|c r IH].
  - simpl. apply contains_prefix, startswith_app.
  - simpl. rewrite IH. apply orb_true_r.
Qed.

Lemma contains_oneshot (base : str) :
  Py.contains (txt "oneshot") (base ++ txt "-oneshot") = true.
Proof.
  replace (base ++ txt "-oneshot")
    with ((base ++ ["-"%char]) ++ txt "oneshot" ++ []).
  - apply contains_app.
  - by rewrite <- app_assoc.
Qed.

(** * Properties of [_get_base_response_id] *)

(** An identifier with at most two dash-separated parts is its own base. *)
Lemma base_id_short (id : str) :
  length (Py.split "-" id) ≤ 2 → Dedup._get_base_response_id id = id.
Proof.
  intros H. unfold Dedup._get_base_response_id.
  replace (2 <? length (Py.split "-" id)) with false; [done|].
  symmetry. apply Nat.ltb_ge. done.
Qed.

Lemma base_id_two_parts (base suffix : str) :
  "-"%char ∉ base → "-"%char ∉ suffix →
  Dedup._get_base_response_id (base ++ "-"%char :: suffix)
  = base ++ "-"%char :: suffix.
Proof.
  intros Hb Hs. apply base_id_short.
  rewrite split_app_sep, split_no_sep by done. simpl. lia.
Qed.

Example base_id_three_parts :
  Dedup._get_base_response_id (txt "claude-resp-oneshot") = txt "claude-resp".
Proof. reflexivity. Qed.

Example base_id_compound :
  Dedup._get_base_response_id (txt "claude-resp-XYZ-oneshot-finalized")
  = txt "claude-resp-XYZ".
Proof. reflexivity. Qed.

(** * The draft buffer of [SimplifiedTTSProcessor] *)

Section DraftBuffer.
Import Dedup.

Lemma process_chunk_draft (p : SimplifiedTTSProcessor) (text id : str) :
  audio_manager p = true →
  Py.contains (txt "oneshot") id = true →
  process_chunk p text id false
  = ({| audio_manager := audio_manager p;
        oneshot_raw_texts :=
          <[_get_base_response_id id := text]> (oneshot_raw_texts p) |},
     clean_and_queue text).
Proof. intros Hm Hc. unfold process_chunk. rewrite Hm, Hc. done. Qed.

Lemma process_chunk_final_no_draft (p : SimplifiedTTSProcessor)
    (text id : str) :
  audio_manager p = true →
  oneshot_raw_texts p !! _get_base_response_id id = None →
  process_chunk p text id true = (p, clean_and_queue text).
Proof. intros Hm Hn. unfold process_chunk. rewrite Hm, Hn. done. Qed.

(** A call either leaves an entry alone or is a complete chunk for it. *)
Lemma process_chunk_keeps (p : SimplifiedTTSProcessor)
    (text id b : str) (complete : bool) :
  (complete = true → _get_base_response_id id ≠ b) →
  is_Some (oneshot_raw_texts p !! b) →
  is_Some (oneshot_raw_texts (process_chunk p text id complete).1 !! b).
Proof.
  intros Hid Hb. unfold process_chunk.
  destruct (audio_manager p); simpl; [|done].
  destruct complete; simpl.
  - specialize (Hid eq_refl).
    destruct (oneshot_raw_texts p !! _get_base_response_id id); [|done].
    repeat case_match; simpl; by rewrite lookup_delete_ne.
  - destruct (Py.contains _ id); simpl; [|done].
    destruct (decide (_get_base_response_id id = b)) as [->|Hne].
    + rewrite lookup_insert_eq. eauto.
    + by rewrite lookup_insert_ne.
Qed.

Lemma run_keeps (es : list event) (p : SimplifiedTTSProcessor) (b : str) :
  Forall (λ e, ¬ releases b e) es →
  is_Some (oneshot_raw_texts p !! b) →
  is_Some (oneshot_raw_texts (run p es) !! b).
Proof.
  revert p. induction es as [|e es IH]; intros p Hall Hb; [done|].
  apply Forall_cons in Hall as [He Hes]. unfold run. simpl.
  apply IH; [done|]. destruct e as [text id complete| |n]; simpl.
  - apply process_chunk_keeps; [|done].
    intros ->. exact He.
  - exfalso. by apply He.
  - done.
Qed.

Lemma abandoned_id_base (k : nat) :
  _get_base_response_id (abandoned_id k) = abandoned_id k.
Proof.
  apply base_id_two_parts.
  - intros [? _]%elem_of_replicate. done.
  - vm_compute. intros H. repeat (apply elem_of_cons in H as [H|H]; [done|]).
    by apply elem_of_nil in H.
Qed.

Lemma abandoned_id_inj (j k : nat) : abandoned_id j = abandoned_id k → j = k.
Proof.
  intros H. apply (f_equal length) in H. unfold abandoned_id in H.
  rewrite !length_app, !length_replicate in H. lia.
Qed.

Lemma abandoned_run (n : nat) :
  audio_manager (run (init true) (abandoned n)) = true ∧
  dom (oneshot_raw_texts (run (init true) (abandoned n)))
  = list_to_set (abandoned_id <$> seq 0 n).
Proof.
  induction n as [|n [IHm IHd]]; [done|].
  replace (seq 0 (S n)) with (seq 0 n ++ [n]) by (symmetry; apply seq_S).
  rewrite fmap_app, list_to_set_app_L, <- IHd.
  simpl abandoned. unfold run in *. rewrite fold_left_app. simpl.
  rewrite process_chunk_draft; [simpl|done|apply contains_oneshot].
  split; [done|].
  rewrite dom_insert_L, abandoned_id_base. simpl.
  rewrite (right_id_L ∅ (∪)). apply (comm_L (∪)).
Qed.

Lemma abandoned_size (n : nat) :
  size (oneshot_raw_texts (run (init true) (abandoned n))) = n.
Proof.
  rewrite <- size_dom, (proj2 (abandoned_run n)).
  rewrite size_list_to_set.
  - by rewrite length_fmap, length_seq.
  - apply NoDup_fmap_2; [|apply NoDup_seq].
    intros j k. apply abandoned_id_inj.
Qed.

End DraftBuffer.

(** * The longest matching block *)

Section LongestMatch.
Import Difflib Lcs.

Lemma positions_elem (b : str) (i j : nat) (c : ascii) :
  j ∈ positions i c b ↔ i ≤ j ∧ b !! (j - i) = Some c.
Proof.
  revert i. induction b as [|x r IH]; intros i; simpl.
  - rewrite elem_of_nil. split; [done|]. intros [_ H]. by rewrite lookup_nil in H.
  - destruct (Py.eqc x c) eqn:E.
    + apply eqc_true in E. subst x. rewrite elem_of_cons, IH. split.
      * intros [->|[H1 H2]].
        -- rewrite Nat.sub_diag. done.
        -- split; [lia|]. replace (j - i) with (S (j - S i)) by lia. done.
      * intros [H1 H2]. destruct (decide (j = i)) as [->|Hne]; [by left|right].
        split; [lia|]. replace (j - i) with (S (j - S i)) in H2 by lia. done.
    + apply eqc_false in E. rewrite IH. split.
      * intros [H1 H2]. split; [lia|].
        replace (j - i) with (S (j - S i)) by lia. done.
      * intros [H1 H2]. destruct (decide (j = i)) as [->|Hne].
        -- rewrite Nat.sub_diag in H2. simpl in H2. congruence.
        -- split; [lia|]. replace (j - i) with (S (j - S i)) in H2 by lia. done.
Qed.

Lemma index_from_lookup (b : str) (m : gmap ascii (list nat)) (i : nat)
    (c : ascii) :
  index_from m i b !! c =
  match positions i c b with
  | [] => m !! c
  | occ => Some (default [] (m !! c) ++ occ)
  end.
Proof.
  revert m i. induction b as [|x r IH]; intros m i; simpl; [done|].
  rewrite IH. unfold setdefault_append.
  destruct (Py.eqc x c) eqn:E.
  - apply eqc_true in E. subst x. rewrite lookup_insert_eq. simpl.
    destruct (positions (S i) c r); [done|]. by rewrite <- app_assoc.
  - apply eqc_false in E. rewrite lookup_insert_ne by done. done.
Qed.

Lemma index_lookup (b : str) (c : ascii) :
  index_from ∅ 0 b !! c =
  match positions 0 c b with [] => None | occ => Some occ end.
Proof. rewrite index_from_lookup, lookup_empty. done. Qed.

(** Every entry of the index lists positions of its character. *)
Lemma chain_b_sound (b : str) (c : ascii) (l : list nat) (j : nat) :
  chain_b b !! c = Some l → j ∈ l → b !! j = Some c.
Proof.
  unfold chain_b. intros H Hj.
  assert (index_from ∅ 0 b !! c = Some l) as Hl.
  { destruct (200 <=? length b); [|done].
    apply map_lookup_filter_Some in H as [H _]. done. }
  rewrite index_lookup in Hl.
  destruct (positions 0 c b) eqn:E; [done|]. injection Hl as <-.
  rewrite <- E in Hj. apply positions_elem in Hj as [_ Hj].
  by rewrite Nat.sub_0_r in Hj.
Qed.

(** Below 200 characters the index lists every position. *)
Lemma chain_b_complete (b : str) (c : ascii) (j : nat) :
  length b < 200 → b !! j = Some c →
  ∃ l, chain_b b !! c = Some l ∧ j ∈ l.
Proof.
  intros Hlen Hj. unfold chain_b.
  replace (200 <=? length b) with false by (symmetry; apply Nat.leb_gt; lia).
  rewrite index_lookup.
  assert (j ∈ positions 0 c b) as Hin.
  { apply positions_elem. rewrite Nat.sub_0_r. split; [lia|done]. }
  destruct (positions 0 c b) eqn:E; [by apply elem_of_nil in Hin|]. eauto.
Qed.

(** The inner loop over the columns [js] of row [i]: the entries written
    and the best block kept. *)
Lemma inner_fold (j2len : gmap nat nat) (i : nat) (js : list nat)
    (acc : gmap nat nat) (best : Match) :
  let res := fold_left (inner j2len i) js (acc, best) in
  (∀ j, res.1 !! j =
        if bool_decide (j ∈ js) then Some (S (prev j2len j)) else acc !! j)
  ∧ m_size best ≤ m_size res.2
  ∧ (∀ j, j ∈ js → S (prev j2len j) ≤ m_size res.2)
  ∧ (res.2 = best ∨
     ∃ j, j ∈ js ∧ res.2 = {| m_a := i + 1 - S (prev j2len j);
                               m_b := j + 1 - S (prev j2len j);
                               m_size := S (prev j2len j) |}).
Proof.
  revert acc best. induction js as [|j0 js IH]; intros acc best; cbv zeta; simpl.
  - split; [|split; [lia|split; [|by left]]].
    + done.
    + intros j H. by apply elem_of_nil in H.
  - replace (match j0 with 0 => 0 | S j' => default 0 (j2len !! j') end + 1)
      with (S (prev j2len j0)) by (unfold prev; lia).
    set (best1 := if m_size best <? S (prev j2len j0) then _ else best).
    destruct (IH (<[j0:=S (prev j2len j0)]> acc) best1) as (H1 & H2 & H3 & H4);
      cbv zeta in *.
    assert (m_size best ≤ m_size best1 ∧ S (prev j2len j0) ≤ m_size best1)
      as [Hb1 Hb2].
    { unfold best1. destruct (m_size best <? S (prev j2len j0)) eqn:E; simpl.
      - apply Nat.ltb_lt in E. lia.
      - apply Nat.ltb_ge in E. lia. }
    split; [|split; [lia|split]].
    + intros j. rewrite H1. repeat case_bool_decide; try done.
      * exfalso. set_solver.
      * destruct (decide (j = j0)) as [->|Hne].
        -- by rewrite lookup_insert_eq.
        -- exfalso. set_solver.
      * rewrite lookup_insert_ne; [done|]. set_solver.
    + intros j [->|Hj]%elem_of_cons; [lia|]. by apply H3.
    + destruct H4 as [H4|(j & Hj & H4)].
      * rewrite H4. unfold best1.
        destruct (m_size best <? S (prev j2len j0)); [|by left].
        right. exists j0. split; [left|done].
      * right. exists j. split; [by right|done].
Qed.

Section Matcher.
Variables (a b : str) (b2j : gmap ascii (list nat)).

(** The index only lists positions of the character it is asked for. *)
Hypothesis b2j_sound :
  ∀ c l j, b2j !! c = Some l → j ∈ l → b !! j = Some c.

Lemma cand_sound (i j : nat) :
  j ∈ cand b2j a i → ∃ c, a !! i = Some c ∧ b !! j = Some c.
Proof.
  unfold cand. destruct (a !! i) as [c|]; [|by intros ?%elem_of_nil].
  destruct (b2j !! c) as [l|] eqn:E; simpl; [|by intros ?%elem_of_nil].
  intros Hj. exists c. split; [done|]. by eapply b2j_sound.
Qed.

Lemma cell_unfold (i j : nat) :
  cell b2j a i j =
  if bool_decide (j ∈ cand b2j a i)
  then S (match i, j with S i', S j' => cell b2j a i' j' | _, _ => 0 end)
  else 0.
Proof. destruct i; reflexivity. Qed.

(** A cell holding [k > 0] closes a common block of [k] characters. *)
Lemma cell_block (i j : nat) :
  0 < cell b2j a i j →
  cell b2j a i j ≤ S i ∧ cell b2j a i j ≤ S j ∧
  common_block a b (S i - cell b2j a i j) (S j - cell b2j a i j)
    (cell b2j a i j).
Proof.
  revert j. induction i as [|i IH]; intros j; rewrite cell_unfold;
    case_bool_decide as Hc; try lia; intros _;
    apply cand_sound in Hc as (c & Ha & Hb);
    apply lookup_lt_Some in Ha as Hla; apply lookup_lt_Some in Hb as Hlb.
  - split; [lia|]. split; [lia|]. split; [lia|]. split; [lia|].
    intros t Ht. replace (1 - 1 + t) with 0 by lia.
    replace (S j - 1 + t) with j by lia. congruence.
  - destruct j as [|j].
    + split; [lia|]. split; [lia|]. split; [lia|]. split; [lia|].
      intros t Ht. replace (S (S i) - 1 + t) with (S i) by lia.
      replace (1 - 1 + t) with 0 by lia. congruence.
    + destruct (decide (cell b2j a i j = 0)) as [Hz|Hz].
      * rewrite Hz. split; [lia|]. split; [lia|]. split; [lia|]. split; [lia|].
        intros t Ht. replace (S (S i) - 1 + t) with (S i) by lia.
        replace (S (S j) - 1 + t) with (S j) by lia. congruence.
      * destruct (IH j) as (H1 & H2 & H3 & H4 & H5); [lia|].
        set (k := cell b2j a i j) in *.
        split; [lia|]. split; [lia|]. split; [lia|]. split; [lia|].
        intros t Ht. destruct (decide (t = k)) as [->|Hne].
        -- replace (S (S i) - S k + k) with (S i) by lia.
           replace (S (S j) - S k + k) with (S j) by lia. congruence.
        -- replace (S (S i) - S k + t) with (S i - k + t) by lia.
           replace (S (S j) - S k + t) with (S j - k + t) by lia.
           apply H5. lia.
Qed.

Lemma rows_spec (r : str) (i : nat) (j2len : gmap nat nat) (best : Match) :
  drop i a = r →
  (∀ j, default 0 (j2len !! j)
        = match i with O => 0 | S i' => cell b2j a i' j end) →
  common_block a b (m_a best) (m_b best) (m_size best) →
  (∀ i' j, i' < i → cell b2j a i' j ≤ m_size best) →
  let res := rows b2j i r j2len best in
  common_block a b (m_a res) (m_b res) (m_size res) ∧
  ∀ i' j, cell b2j a i' j ≤ m_size res.
Proof.
  revert i j2len best.
  induction r as [|ai r IH]; intros i j2len best Hr HJ HV HM; cbv zeta; simpl.
  - split; [done|]. intros i' j.
    destruct (decide (i' < i)) as [Hlt|Hge]; [by apply HM|].
    apply drop_nil_inv in Hr.
    rewrite cell_unfold. unfold cand.
    rewrite (lookup_ge_None_2 a i') by lia.
    rewrite bool_decide_false; [lia|]. apply not_elem_of_nil.
  - assert (a !! i = Some ai) as Hai.
    { rewrite <- (Nat.add_0_r i), <- lookup_drop, Hr. done. }
    assert (drop (S i) a = r) as Hr'.
    { replace (S i) with (i + 1) by lia. rewrite <- drop_drop, Hr. done. }
    assert (cand b2j a i = default [] (b2j !! ai)) as Hcand.
    { unfold cand. by rewrite Hai. }
    rewrite <- Hcand.
    pose proof (inner_fold j2len i (cand b2j a i) ∅ best) as Hin.
    cbv zeta in Hin.
    destruct (fold_left (inner j2len i) (cand b2j a i) (∅, best))
      as [new best'] eqn:E.
    simpl in Hin. destruct Hin as (H1 & H2 & H3 & H4).
    assert (∀ j, S (prev j2len j) =
                 S (match i, j with
                    | S i', S j' => cell b2j a i' j'
                    | _, _ => 0
                    end)) as Hprev.
    { intros j. f_equal. unfold prev. destruct j as [|j'].
      - by destruct i.
      - rewrite HJ. by destruct i. }
    apply IH; [done|..].
    + intros j. rewrite H1, cell_unfold, lookup_empty.
      case_bool_decide; simpl; [by rewrite Hprev|done].
    + destruct H4 as [->|(j & Hj & ->)]; [done|]. simpl.
      assert (cell b2j a i j = S (prev j2len j)) as Hc.
      { rewrite cell_unfold, bool_decide_true by done. by rewrite Hprev. }
      rewrite <- Hc. replace (i + 1) with (S i) by lia.
      replace (j + 1) with (S j) by lia. apply cell_block. lia.
    + intros i' j Hi'. destruct (decide (i' = i)) as [->|Hne].
      * rewrite cell_unfold. case_bool_decide as Hj; [|lia].
        rewrite <- Hprev. by apply H3.
      * etrans; [apply HM; lia|done].
Qed.

Lemma same_at_true (i j : nat) :
  same_at a b i j = true →
  i < length a ∧ j < length b ∧ a !! i = b !! j.
Proof.
  unfold same_at. destruct (a !! i) as [x|] eqn:Ea; [|done].
  destruct (b !! j) as [y|] eqn:Eb; [|done].
  intros ->%eqc_true. apply lookup_lt_Some in Ea, Eb. done.
Qed.

Lemma extend_left_spec (i j k : nat) :
  common_block a b i j k →
  let m := extend_left a b i j k in
  common_block a b (m_a m) (m_b m) (m_size m) ∧ k ≤ m_size m.
Proof.
  revert j k. induction i as [|i IH]; intros j k Hb; cbv zeta; simpl.
  - done.
  - destruct j as [|j]; [done|].
    destruct (same_at a b i j) eqn:E; [|done].
    apply same_at_true in E as (Hi & Hj & Hij).
    destruct Hb as (H1 & H2 & H3).
    destruct (IH j (S k)) as [H4 H5]; cbv zeta in *.
    + split; [lia|]. split; [lia|]. intros t Ht. destruct t as [|t].
      * by rewrite !Nat.add_0_r.
      * replace (i + S t) with (S i + t) by lia.
        replace (j + S t) with (S j + t) by lia. apply H3. lia.
    + split; [done|lia].
Qed.

Lemma extend_right_spec (fuel i j k : nat) :
  common_block a b i j k →
  common_block a b i j (extend_right fuel a b i j k) ∧
  k ≤ extend_right fuel a b i j k.
Proof.
  revert k. induction fuel as [|fuel IH]; intros k Hb; simpl; [done|].
  destruct (same_at a b (i + k) (j + k)) eqn:E; [|done].
  apply same_at_true in E as (Hi & Hj & Hij).
  destruct Hb as (H1 & H2 & H3).
  destruct (IH (S k)) as [H4 H5]; [|split; [done|lia]].
  split; [lia|]. split; [lia|]. intros t Ht.
  destruct (decide (t = k)) as [->|Hne]; [done|]. apply H3. lia.
Qed.

(** When the index misses no position, a common block of [k + 1]
    characters starting at [(p, q)] shows in the cell of its last
    character. *)
Hypothesis b2j_complete :
  ∀ c j, b !! j = Some c → ∃ l, b2j !! c = Some l ∧ j ∈ l.

Lemma cell_complete (k p q : nat) :
  common_block a b p q (S k) → S k ≤ cell b2j a (p + k) (q + k).
Proof.
  induction k as [|k IH]; intros (H1 & H2 & H3).
  - rewrite !Nat.add_0_r, cell_unfold.
    rewrite bool_decide_true; [lia|].
    specialize (H3 0). rewrite !Nat.add_0_r in H3.
    destruct (lookup_lt_is_Some_2 b q) as [c Hc]; [lia|].
    unfold cand. rewrite H3, Hc by lia.
    destruct (b2j_complete c q Hc) as (l & -> & Hl). done.
  - rewrite !Nat.add_succ_r, cell_unfold.
    rewrite bool_decide_true.
    + apply le_n_S, IH. split; [lia|]. split; [lia|].
      intros t Ht. apply H3. lia.
    + specialize (H3 (S k)). rewrite !Nat.add_succ_r in H3.
      destruct (lookup_lt_is_Some_2 b (S (q + k))) as [c Hc]; [lia|].
      unfold cand. rewrite H3, Hc by lia.
      destruct (b2j_complete c _ Hc) as (l & -> & Hl). done.
Qed.
End Matcher.

Lemma common_block_nil (a b : str) : common_block a b 0 0 0.
Proof. split; [simpl; lia|]. split; [simpl; lia|]. intros; lia. Qed.

(** The block that [find_longest_match] reports is common to both strings,
    whatever their lengths. *)
Lemma find_longest_match_common (a b : str) :
  let m := find_longest_match a b in
  common_block a b (m_a m) (m_b m) (m_size m).
Proof.
  cbv zeta. unfold find_longest_match. simpl.
  apply extend_right_spec, extend_left_spec.
  eapply (rows_spec a b (chain_b b)); try done.
  - apply chain_b_sound.
  - apply common_block_nil.
  - intros; lia.
Qed.

(** When [b] has fewer than 200 characters, no common block is longer. *)
Lemma find_longest_match_longest (a b : str) (i j k : nat) :
  length b < 200 → common_block a b i j k →
  k ≤ m_size (find_longest_match a b).
Proof.
  intros Hlen Hb. destruct k as [|k]; [lia|].
  unfold find_longest_match. simpl.
  set (best := rows _ _ _ _ _).
  assert (common_block a b (m_a best) (m_b best) (m_size best) ∧
          ∀ i' j', cell (chain_b b) a i' j' ≤ m_size best) as [HV HM].
  { eapply (rows_spec a b (chain_b b)); try done.
    - apply chain_b_sound.
    - apply common_block_nil.
    - intros; lia. }
  apply (extend_left_spec a b) in HV as [HV' Hle]. cbv zeta in *.
  pose proof (extend_right_spec a b (length a) _ _ _ HV') as [_ Hle'].
  pose proof (cell_complete a b (chain_b b)
                (λ c j, chain_b_complete b c j Hlen) k i j Hb) as Hc.
  specialize (HM (i + k) (j + k)). lia.
Qed.

(** ** A string matched against itself *)

Lemma positions_split (b : str) (i0 i : nat) (c : ascii) :
  i ∈ positions i0 c b →
  ∃ l1 l2, positions i0 c b = l1 ++ i :: l2 ∧
           (∀ j, j ∈ l1 → j < i) ∧ (∀ j, j ∈ l2 → i < j).
Proof.
  revert i0. induction b as [|x r IH]; intros i0 Hi; simpl in *.
  - by apply elem_of_nil in Hi.
  - destruct (Py.eqc x c).
    + apply elem_of_cons in Hi as [->|Hi].
      * exists [], (positions (S i0) c r). split; [done|]. split.
        -- intros j H. by apply elem_of_nil in H.
        -- intros j [H _]%positions_elem. lia.
      * destruct (IH _ Hi) as (l1 & l2 & E & H1 & H2).
        exists (i0 :: l1), l2. rewrite E. split; [done|]. split; [|done].
        intros j [->|H]%elem_of_cons; [|by apply H1].
        apply positions_elem in Hi as [Hi _]. lia.
    + by apply IH.
Qed.

(** An entry of the index holds all the positions of its character. *)
Lemma chain_b_entry (b : str) (c : ascii) (l : list nat) :
  chain_b b !! c = Some l → l = positions 0 c b.
Proof.
  unfold chain_b. intros H.
  assert (index_from ∅ 0 b !! c = Some l) as Hl.
  { destruct (200 <=? length b); [|done].
    by apply map_lookup_filter_Some in H as [H _]. }
  rewrite index_lookup in Hl. destruct (positions 0 c b); by simplify_eq.
Qed.

Lemma inner_fold_best (j2len : gmap nat nat) (i : nat) (js : list nat)
    (acc : gmap nat nat) (best : Match) :
  (fold_left (inner j2len i) js (acc, best)).2
  = fold_left (λ bst j,
      if m_size bst <? S (prev j2len j)
      then {| m_a := i + 1 - S (prev j2len j);
              m_b := j + 1 - S (prev j2len j);
              m_size := S (prev j2len j) |}
      else bst) js best.
Proof.
  revert acc best. induction js as [|j js IH]; intros acc best; [done|].
  simpl. rewrite IH. f_equal. unfold prev.
  by replace (match j with 0 => 0 | S j' => default 0 (j2len !! j') end + 1)
    with (S match j with 0 => 0 | S j' => default 0 (j2len !! j') end) by lia.
Qed.

Lemma best_fold_keep (j2len : gmap nat nat) (i : nat) (js : list nat)
    (best : Match) :
  (∀ j, j ∈ js → S (prev j2len j) ≤ m_size best) →
  fold_left (λ bst j,
      if m_size bst <? S (prev j2len j)
      then {| m_a := i + 1 - S (prev j2len j);
              m_b := j + 1 - S (prev j2len j);
              m_size := S (prev j2len j) |}
      else bst) js best = best.
Proof.
  induction js as [|j js IH]; intros H; [done|]. simpl.
  replace (m_size best <? S (prev j2len j)) with false.
  - apply IH. intros j' Hj'. apply H. by right.
  - symmetry. apply Nat.ltb_ge. apply H. left.
Qed.

Section Self.
Variable a : str.
Let b2j := chain_b a.

Lemma cand_self (i j : nat) : j ∈ cand b2j a i → i ∈ cand b2j a i ∧ j ∈ cand b2j a j.
Proof.
  unfold cand. destruct (a !! i) as [c|] eqn:Hi; [|by intros ?%elem_of_nil].
  destruct (b2j !! c) as [l|] eqn:Hl; simpl; [|by intros ?%elem_of_nil].
  intros Hj. pose proof (chain_b_sound a c l j Hl Hj) as Haj.
  rewrite Haj, Hl. simpl. split; [|done].
  rewrite (chain_b_entry a c l Hl). apply positions_elem.
  rewrite Nat.sub_0_r. split; [lia|done].
Qed.

Lemma cell_le_column (i j : nat) : cell b2j a i j ≤ cell b2j a j j.
Proof.
  revert j. induction i as [|i IH]; intros j;
    rewrite (cell_unfold a b2j _ j), (cell_unfold a b2j j j);
    case_bool_decide as Hc; try lia;
    destruct (cand_self _ _ Hc) as [_ Hj];
    rewrite (bool_decide_true _ Hj).
  - lia.
  - destruct j as [|j]; [lia|]. apply le_n_S, IH.
Qed.

Lemma cell_le_row (i j : nat) : cell b2j a i j ≤ cell b2j a i i.
Proof.
  revert j. induction i as [|i IH]; intros j;
    rewrite (cell_unfold a b2j _ j), (cell_unfold a b2j _ (_ : nat));
    case_bool_decide as Hc; try lia;
    destruct (cand_self _ _ Hc) as [Hi _];
    rewrite (bool_decide_true _ Hi).
  - lia.
  - destruct j as [|j]; [lia|]. apply le_n_S, IH.
Qed.

Lemma rows_self (r : str) (i : nat) (j2len : gmap nat nat) (best : Match) :
  drop i a = r →
  (∀ j, default 0 (j2len !! j)
        = match i with O => 0 | S i' => cell b2j a i' j end) →
  (∀ i' j, i' < i → cell b2j a i' j ≤ m_size best) →
  m_a best = m_b best →
  m_a (rows b2j i r j2len best) = m_b (rows b2j i r j2len best).
Proof.
  revert i j2len best.
  induction r as [|ai r IH]; intros i j2len best Hr HJ HM HD; simpl; [done|].
  assert (a !! i = Some ai) as Hai.
  { rewrite <- (Nat.add_0_r i), <- lookup_drop, Hr. done. }
  assert (drop (S i) a = r) as Hr'.
  { replace (S i) with (i + 1) by lia. rewrite <- drop_drop, Hr. done. }
  assert (cand b2j a i = default [] (b2j !! ai)) as Hcand.
  { unfold cand. by rewrite Hai. }
  rewrite <- Hcand.
  pose proof (inner_fold j2len i (cand b2j a i) ∅ best) as Hin.
  pose proof (inner_fold_best j2len i (cand b2j a i) ∅ best) as Hbest.
  cbv zeta in Hin.
  destruct (fold_left (inner j2len i) (cand b2j a i) (∅, best))
    as [new best'] eqn:E.
  simpl in Hin, Hbest. destruct Hin as (H1 & H2 & H3 & _).
  assert (∀ j, j ∈ cand b2j a i → S (prev j2len j) = cell b2j a i j) as HK.
  { intros j Hj. rewrite cell_unfold, bool_decide_true by done. f_equal.
    unfold prev. destruct j as [|j']; [by destruct i|].
    rewrite HJ. by destruct i. }
  apply IH; [done|..].
  - intros j. rewrite H1, lookup_empty.
    destruct (decide (j ∈ cand b2j a i)) as [Hj|Hj].
    + rewrite bool_decide_true by done. simpl. by apply HK.
    + by rewrite bool_decide_false, cell_unfold, bool_decide_false.
  - intros i' j Hi'. destruct (decide (i' = i)) as [->|Hne].
    + destruct (decide (j ∈ cand b2j a i)) as [Hj|Hj].
      * rewrite <- (HK j Hj). by apply H3.
      * rewrite cell_unfold, bool_decide_false by done. lia.
    + etrans; [apply HM; lia|done].
  - rewrite Hbest. clear E H1 H2 H3 Hbest.
    destruct (decide (cand b2j a i = [])) as [->|Hne]; [done|].
    assert (i ∈ cand b2j a i) as Hi.
    { destruct (cand b2j a i) as [|j0 js0] eqn:Ec; [done|].
      rewrite <- Ec. apply (cand_self i j0). rewrite Ec. left. }
    assert (∃ l1 l2, cand b2j a i = l1 ++ i :: l2 ∧
                     (∀ j, j ∈ l1 → j < i) ∧ (∀ j, j ∈ l2 → i < j))
      as (l1 & l2 & El & Hl1 & Hl2).
    { revert Hi. unfold cand. rewrite Hai.
      destruct (b2j !! ai) as [l|] eqn:Hl; simpl;
        [|by intros ?%elem_of_nil].
      rewrite (chain_b_entry a ai l Hl). apply positions_split. }
    rewrite El, fold_left_app. simpl.
    rewrite (best_fold_keep j2len i l1 best).
    + set (best1 := if m_size best <? S (prev j2len i) then _ else best).
      assert (m_a best1 = m_b best1 ∧ S (prev j2len i) ≤ m_size best1)
        as [HD1 HM1].
      { unfold best1.
        destruct (m_size best <? S (prev j2len i)) eqn:Eb; simpl.
        - split; [done|apply Nat.le_refl].
        - split; [done|]. by apply Nat.ltb_ge in Eb. }
      rewrite best_fold_keep; [done|].
      intros j Hj. rewrite (HK j) by (rewrite El; set_solver).
      etrans; [apply cell_le_row|]. by rewrite <- (HK i Hi).
    + intros j Hj. rewrite (HK j) by (rewrite El; set_solver).
      etrans; [apply cell_le_column|]. apply HM. by apply Hl1.
Qed.

Lemma same_at_self (i : nat) : i < length a → same_at a a i i = true.
Proof.
  intros Hi. unfold same_at.
  destruct (lookup_lt_is_Some_2 a i Hi) as [c ->]. by apply eqc_true.
Qed.

Lemma extend_left_self (i k : nat) :
  i ≤ length a →
  extend_left a a i i k = {| m_a := 0; m_b := 0; m_size := k + i |}.
Proof.
  revert k. induction i as [|i IH]; intros k Hi; simpl.
  - by rewrite Nat.add_0_r.
  - rewrite same_at_self by lia. rewrite IH by lia. f_equal. lia.
Qed.

Lemma extend_right_self (fuel k : nat) :
  k ≤ length a → length a ≤ k + fuel →
  extend_right fuel a a 0 0 k = length a.
Proof.
  revert k. induction fuel as [|fuel IH]; intros k H1 H2; simpl; [lia|].
  destruct (decide (k < length a)) as [Hlt|Hge].
  - rewrite same_at_self by done. apply IH; lia.
  - unfold same_at. rewrite (lookup_ge_None_2 a k) by lia. lia.
Qed.

(** Matching a string against itself reports the whole string. *)
Lemma find_longest_match_self :
  find_longest_match a a = {| m_a := 0; m_b := 0; m_size := length a |}.
Proof.
  unfold find_longest_match. simpl. fold b2j.
  set (best := rows b2j 0 a ∅ _).
  assert (m_a best = m_b best) as HD.
  { apply rows_self; try done. intros; lia. }
  assert (common_block a a (m_a best) (m_b best) (m_size best)) as (HV & _).
  { apply (rows_spec a a b2j); try done.
    - apply chain_b_sound.
    - apply common_block_nil.
    - intros; lia. }
  rewrite <- HD, extend_left_self by lia. simpl.
  rewrite extend_right_self; [done|lia|lia].
Qed.
End Self.

End LongestMatch.

(** * The deduplication engine *)

Section Reconciliation.
Import Dedup Difflib Lcs.

(** ** Reconciliation of a final chunk with its draft *)

Lemma process_chunk_final_draft (p : SimplifiedTTSProcessor)
    (text id draft : str) :
  audio_manager p = true →
  oneshot_raw_texts p !! _get_base_response_id id = Some draft →
  let m := find_longest_match (Py.lower draft) (Py.lower text) in
  let delta := Py.strip (drop (m_b m + m_size m) text) in
  process_chunk p text id true =
  ({| audio_manager := audio_manager p;
      oneshot_raw_texts :=
        delete (_get_base_response_id id) (oneshot_raw_texts p) |},
   if good_match (m_size m) (length draft)
   then (if Py.truthy delta then clean_and_queue delta else None)
   else clean_and_queue text).
Proof.
  intros Hm Hd. cbv zeta. unfold process_chunk. rewrite Hm, Hd. simpl.
  destruct (good_match _ _); [|done]. by destruct (Py.truthy _).
Qed.



(** From 200 characters on, the characters that occur often in the final
    text are not indexed, and the block reported need not be the longest:
    here the draft shares nine letters [e] with the final text, the block
    found is the single [z], and the whole final text is enqueued. *)
Example popular_characters_are_skipped :
  let draft := txt "eeeeeeeeeZ" in
  let final := txt "Z" ++ replicate 250 "e"%char in
  let p := (process_chunk (init true) draft (txt "r-1-oneshot") false).1 in
  common_block (Py.lower draft) (Py.lower final) 0 1 9 ∧
  find_longest_match (Py.lower draft) (Py.lower final)
  = {| m_a := 9; m_b := 0; m_size := 1 |} ∧
  (process_chunk p final (txt "r-1-complete") true).2 = Some final.
Proof.
  cbv zeta. split; [|split; by vm_compute].
  split; [vm_compute; lia|]. split; [vm_compute; lia|].
  intros t Ht. do 9 (destruct t as [|t]; [by vm_compute|]). lia.
Qed.

(** A final chunk that repeats its draft character for character adds
    nothing to say. *)
Lemma identical_final_is_silent (draft : str) :
  let m := find_longest_match (Py.lower draft) (Py.lower draft) in
  (if good_match (m_size m) (length draft)
   then (if Py.truthy (Py.strip (drop (m_b m + m_size m) draft))
         then clean_and_queue (Py.strip (drop (m_b m + m_size m) draft))
         else None)
   else clean_and_queue draft) = None.
Proof.
  cbv zeta. rewrite find_longest_match_self, lower_length. simpl.
  rewrite drop_all. simpl.
  destruct (good_match (length draft) (length draft)) eqn:E; [done|].
  destruct draft as [|c r]; [done|].
  unfold good_match in E. apply Nat.ltb_ge in E. simpl in E. lia.
Qed.



(** ** Drafts that no final chunk claims *)

(** C9, as stated, fails: a stored draft is still there after five
    minutes, and after an hour, without a final chunk. *)
Lemma C9_counterexample :
  let p := run (init true)
             [Chunk (txt "Hello") (txt "resp-1-oneshot") false;
              Idle 300; Idle 3600] in
  oneshot_raw_texts p !! txt "resp-1" = Some (txt "Hello").
Proof. by vm_compute. Qed.

(** C9, amended.  A stored draft leaves the buffer only through a
    complete chunk with its base identifier or through
    [reset_conversation]; the passing of time removes nothing, and [n]
    abandoned turns leave [n] drafts in the buffer. *)
Theorem C9_drafts_are_not_evicted (p : SimplifiedTTSProcessor)
    (es : list event) (b : str) :
  is_Some (oneshot_raw_texts p !! b) →
  Forall (λ e, ¬ releases b e) es →
  is_Some (oneshot_raw_texts (run p es) !! b) ∧
  (∀ seconds, step p (Idle seconds) = p) ∧
  (∀ n, size (oneshot_raw_texts (run (init true) (abandoned n))) = n).
Proof.
  intros Hb Hes. split; [by apply run_keeps|]. split; [done|].
  apply abandoned_size.
Qed.

Lemma C9_witness :
  let p := run (init true) [Chunk (txt "Hello") (txt "resp-1-oneshot") false] in
  is_Some (oneshot_raw_texts
             (run p [Idle 300; Chunk (txt "Other") (txt "resp-2-oneshot") false;
                     Chunk (txt "Other, longer") (txt "resp-2-complete") true;
                     Idle 3600])
           !! txt "resp-1").
Proof.
  cbv zeta.
  apply (C9_drafts_are_not_evicted _ _ (txt "resp-1")).
  - vm_compute. eauto.
  - repeat constructor; simpl; try tauto; vm_compute; discriminate.
Defined.

(** ** Identifiers with a single dash *)



End Reconciliation.

(** * The playback queue manager *)

Section Playback.
Import Audio.

Lemma lookup_set {A} (l : list A) (w w' : nat) (x old : A) :
  l !! w = Some old →
  <[w := x]> l !! w' = if decide (w' = w) then Some x else l !! w'.
Proof.
  intros H. case_decide as E.
  - subst. apply list_lookup_insert_eq. by eapply lookup_lt_Some.
  - by apply list_lookup_insert_ne.
Qed.

Lemma lookup_snoc_Some {A} (l : list A) (x y : A) (w : nat) :
  (l ++ [x]) !! w = Some y → l !! w = Some y ∨ (w = length l ∧ y = x).
Proof.
  intros H. apply lookup_app_Some in H as [H|[H1 H2]]; [by left|right].
  destruct (w - length l) as [|k] eqn:E; simpl in H2; [|by destruct k].
  split; [lia|congruence].
Qed.

Lemma Inv_init (disk : gset (list ascii)) : Inv (init disk).
Proof.
  split; simpl; done.
Qed.

Lemma no_playing_when_free (m : AudioManager) (w : nat) ph f d :
  Inv m → lock_held m = false → loops m !! w ≠ Some (Playing ph f d).
Proof.
  intros HI Hf H. apply (inv_playing m HI) in H as [H _]. congruence.
Qed.

(** Changing a loop that is not in [play_audio] into another such loop. *)
Lemma Inv_set_idle_loop (m m' : AudioManager) (w : nat) (old new : loop_state) :
  Inv m → loops m !! w = Some old →
  in_playback old = false → in_playback new = false →
  loops m' = <[w := new]> (loops m) →
  lock_held m' = lock_held m → lock_woken m' = lock_woken m →
  is_playing (state m') = is_playing (state m) →
  is_speaking (state m') = is_speaking (state m) →
  playback_start_time (state m') = playback_start_time (state m) →
  current_audio_file (state m') = current_audio_file (state m) →
  expected_duration (state m') = expected_duration (state m) →
  current_process m' = current_process m →
  audio_complete m' = audio_complete m →
  Inv m'.
Proof.
  intros HI Hw Ho Hn Hl E1 E2 E3 E4 E5 E6 E7 E8 E9.
  assert (∀ w' ph f d, loops m' !! w' = Some (Playing ph f d) →
                        loops m !! w' = Some (Playing ph f d)) as Hback.
  { intros w' ph f d. rewrite Hl, (lookup_set _ _ _ _ _ Hw).
    case_decide; [|done]. intros [= ->]. done. }
  assert (∀ w' ph f d, loops m !! w' = Some (Playing ph f d) →
                        loops m' !! w' = Some (Playing ph f d)) as Hfwd.
  { intros w' ph f d H. rewrite Hl, (lookup_set _ _ _ _ _ Hw).
    case_decide; [|done]. subst. rewrite Hw in H. injection H as ->. done. }
  split; unfold cleared; rewrite ?E1, ?E2, ?E3, ?E4, ?E5, ?E6, ?E7, ?E8, ?E9.
  - intros w' ph f d H%Hback.
    destruct (inv_playing m HI _ _ _ _ H) as (?&?&?&?&?&?&Hu).
    repeat (split; [done|]). intros ???? H'%Hback. by eapply Hu.
  - apply (inv_idle m HI).
  - intros H. destruct (inv_held m HI H) as (w'&ph&f&d&H').
    exists w', ph, f, d. by apply Hfwd.
  - apply (inv_woken m HI).
Qed.

(** Changes that touch neither the loops, nor the lock, nor the playback
    fields. *)
Lemma Inv_same (m m' : AudioManager) :
  Inv m → loops m' = loops m →
  lock_held m' = lock_held m → lock_woken m' = lock_woken m →
  is_playing (state m') = is_playing (state m) →
  is_speaking (state m') = is_speaking (state m) →
  playback_start_time (state m') = playback_start_time (state m) →
  current_audio_file (state m') = current_audio_file (state m) →
  expected_duration (state m') = expected_duration (state m) →
  current_process m' = current_process m →
  audio_complete m' = audio_complete m →
  Inv m'.
Proof.
  intros HI Hl E1 E2 E3 E4 E5 E6 E7 E8 E9.
  split; unfold cleared; rewrite ?Hl, ?E1, ?E2, ?E3, ?E4, ?E5, ?E6, ?E7, ?E8, ?E9;
    apply HI.
Qed.

Lemma Inv_create_task (m : AudioManager) : Inv m → Inv (create_task m).
Proof.
  intros HI.
  assert (∀ w' ph f d, (loops m ++ [Created]) !! w' = Some (Playing ph f d) →
                        loops m !! w' = Some (Playing ph f d)) as Hback.
  { intros w' ph f d [H|[_ H]]%lookup_snoc_Some; done. }
  split; simpl.
  - intros w' ph f d H%Hback.
    destruct (inv_playing m HI _ _ _ _ H) as (?&?&?&?&?&?&Hu).
    repeat (split; [done|]). intros ???? H'%Hback. by eapply Hu.
  - apply (inv_idle m HI).
  - intros H. destruct (inv_held m HI H) as (w'&ph&f&d&H').
    exists w', ph, f, d. by apply lookup_app_l_Some.
  - apply (inv_woken m HI).
Qed.

Lemma Inv_print (msg : message) (m : AudioManager) : Inv m → Inv (print msg m).
Proof. intros HI. by apply (Inv_same m). Qed.

Lemma Inv_loop_again (w : nat) (old : loop_state) (m : AudioManager) :
  Inv m → loops m !! w = Some old → in_playback old = false →
  Inv (loop_again w m).
Proof.
  intros HI Hw Ho. unfold loop_again.
  destruct (is_processing_queue m).
  - by apply (Inv_set_idle_loop m _ w old AtGet).
  - by apply (Inv_set_idle_loop m _ w old Finished).
Qed.

Lemma Inv_begin (w : nat) (old : loop_state) (f : str) (d : bool) (now : nat)
    (mp3 : option nat) (ws : list (nat * list ascii * bool))
    (m : AudioManager) :
  Inv m → lock_held m = false → loops m !! w = Some old →
  Inv (play_audio_begin w f d now mp3 (set_lock true ws false m)).
Proof.
  intros HI Hfree Hw.
  destruct (inv_idle m HI Hfree) as (_ & Hproc & _).
  assert (∀ w' ph' f' d',
            loops (play_audio_begin w f d now mp3 (set_lock true ws false m))
              !! w' = Some (Playing ph' f' d') →
            w' = w ∧ ph' = Spawning ∧ f' = f ∧ d' = d) as Hone.
  { intros w' ph' f' d'. unfold play_audio_begin. destruct mp3; simpl;
      rewrite (lookup_set _ _ _ _ _ Hw); case_decide;
      try (intros [= <- <- <-]; done);
      intros Hp; by apply (no_playing_when_free m) in Hp. }
  split.
  - intros w' ph' f' d' H. destruct (Hone _ _ _ _ H) as (-> & -> & -> & ->).
    unfold play_audio_begin. destruct mp3; simpl;
      (repeat (split; [done|])); intros ???? H'%Hone; by destruct H'.
  - unfold play_audio_begin. destruct mp3; simpl; done.
  - intros _. exists w, Spawning, f, d.
    unfold play_audio_begin. destruct mp3; simpl;
      rewrite (lookup_set _ _ _ _ _ Hw); by rewrite decide_True.
  - unfold play_audio_begin. destruct mp3; simpl; done.
Qed.

Lemma Inv_phase (w : nat) (ph ph' : phase) (f : str) (d : bool)
    (m : AudioManager) :
  Inv m → loops m !! w = Some (Playing ph f d) →
  Inv (set_loop w (Playing ph' f d) (set_current_process (proc_of ph') m)).
Proof.
  intros HI Hw.
  destruct (inv_playing m HI _ _ _ _ Hw) as (H1&H2&H3&H4&H5&H6&Hu).
  assert (∀ w' ph'' f' d',
            <[w := Playing ph' f d]> (loops m) !! w' = Some (Playing ph'' f' d') →
            w' = w ∧ ph'' = ph' ∧ f' = f ∧ d' = d) as Hone.
  { intros w' ph'' f' d'. rewrite (lookup_set _ _ _ _ _ Hw). case_decide.
    - intros [= <- <- <-]. done.
    - intros H'. by apply Hu in H'. }
  split; simpl.
  - intros w' ph'' f' d' H. destruct (Hone _ _ _ _ H) as (-> & -> & -> & ->).
    repeat (split; [done|]). intros ???? H'%Hone. by destruct H'.
  - congruence.
  - intros _. exists w, ph', f, d.
    rewrite (lookup_set _ _ _ _ _ Hw). by rewrite decide_True.
  - apply (inv_woken m HI).
Qed.

Lemma loops_play_audio_finally (w : nat) (f : str) (d : bool)
    (m : AudioManager) :
  ∃ l, in_playback l = false ∧
       loops (play_audio_finally w f d m) = <[w := l]> (loops m).
Proof.
  unfold play_audio_finally, loop_again.
  destruct (d && bool_decide (f ∈ files _)); simpl;
    destruct (is_processing_queue m); simpl;
    (by exists AtGet) || (by exists Finished).
Qed.

Lemma Inv_finally (w : nat) (ph : phase) (f : str) (d : bool)
    (m : AudioManager) :
  Inv m → loops m !! w = Some (Playing ph f d) →
  Inv (play_audio_finally w f d m).
Proof.
  intros HI Hw.
  destruct (inv_playing m HI _ _ _ _ Hw) as (_&_&_&_&_&_&Hu).
  destruct (loops_play_audio_finally w f d m) as (l & Hl & El).
  assert (lock_held (play_audio_finally w f d m) = false) as Hfree.
  { unfold play_audio_finally, loop_again.
    destruct (d && bool_decide (f ∈ files _)); simpl;
      destruct (is_processing_queue m); done. }
  split.
  - intros w' ph' f' d'. rewrite El, (lookup_set _ _ _ _ _ Hw). case_decide.
    + intros [= ->]. done.
    + intros H'. by apply Hu in H'.
  - intros _. unfold play_audio_finally, loop_again, cleared.
    destruct (d && bool_decide (f ∈ files _)); simpl;
      destruct (is_processing_queue m); done.
  - rewrite Hfree. done.
  - done.
Qed.

Lemma Inv_add_queued (o : option str) (m : AudioManager) :
  Inv m → Inv (add_queued o m).
Proof.
  intros HI. unfold add_queued. destruct o as [f|]; [|done].
  destruct (Py.truthy f); [|done]. by apply (Inv_same m).
Qed.

Lemma Inv_queue_audio_put (o : option str) (d : bool) (m : AudioManager) :
  Inv m → Inv (queue_audio_put o d m).
Proof.
  intros HI. unfold queue_audio_put.
  destruct (already_queued o m); [by apply Inv_print|]. cbv zeta.
  pose proof (Inv_add_queued o m HI) as HI1. revert HI1.
  generalize (add_queued o m). intros m1 HI1.
  match goal with |- Inv (if ?c then _ else _) => destruct c end.
  - apply Inv_create_task. by apply (Inv_same m1).
  - by apply (Inv_same m1).
Qed.

Lemma Inv_step (m : AudioManager) (e : event) : Inv m → Inv (step m e).
Proof.
  intros HI. destruct e as [o g d ts u tts|w|w now mp3|w|w now mp3|w ok|w rc|w| | |];
    simpl.
  - unfold queue_audio.
    destruct (given g && negb (given o)); [|by apply Inv_queue_audio_put].
    unfold _save_tts_to_file. destruct tts; cbv zeta.
    + apply Inv_queue_audio_put. by apply (Inv_same m).
    + by apply (Inv_same m).
  - unfold process_audio_queue_start.
    destruct (loops m !! w) as [[| | | |]|] eqn:Hw; try done.
    apply (Inv_loop_again w Created); [by apply (Inv_same m)|done..].
  - unfold process_audio_queue_get.
    destruct (loops m !! w) as [[| | | |]|] eqn:Hw; try done.
    destruct (audio_queue m) as [|[o d] rest] eqn:Hq; [done|].
    assert (Inv (set_audio_queue rest m)) as HI1 by by apply (Inv_same m).
    assert (∀ m1, Inv m1 → loops m1 = loops m → Inv (loop_again w (task_done m1)))
      as Hagain.
    { intros m1 H1 Hl. apply (Inv_loop_again w AtGet); [|simpl; congruence|done].
      by apply (Inv_same m1). }
    destruct o as [f|]; [|by apply Hagain].
    destruct (Py.truthy f); [|by apply Hagain].
    unfold play_audio. simpl.
    destruct (negb (lock_held m) && bool_decide (lock_waiters m = [])) eqn:Hc.
    + apply andb_true_iff in Hc as [Hc _]. apply negb_true_iff in Hc.
      by apply (Inv_begin w AtGet).
    + by apply (Inv_set_idle_loop m _ w AtGet Waiting).
  - unfold process_audio_queue_timeout.
    destruct (loops m !! w) as [[| | | |]|] eqn:Hw; try done.
    destruct (audio_queue m); [|done].
    by apply (Inv_loop_again w AtGet).
  - unfold lock_resume.
    destruct (loops m !! w) as [[| | | |]|] eqn:Hw; try done.
    destruct (lock_waiters m) as [|[[w' f] d] rest]; [done|].
    destruct (lock_woken m && bool_decide (w' = w)) eqn:Hc; [|done].
    apply andb_true_iff in Hc as [Hc1 Hc2].
    pose proof (inv_woken m HI Hc1) as Hfree.
    by apply (Inv_begin w Waiting).
  - unfold spawn_done.
    destruct (loops m !! w) as [[| | |[] f d|]|] eqn:Hw; try done.
    destruct ok.
    + by apply (Inv_phase w Spawning Running).
    + apply (Inv_finally w Spawning); [by apply Inv_print|done].
  - unfold process_exit.
    destruct (loops m !! w) as [[| | |[] f d|]|] eqn:Hw; try done.
    by apply (Inv_phase w Running Settling).
  - unfold settle_done.
    destruct (loops m !! w) as [[| | |[] f d|]|] eqn:Hw; try done.
    by apply (Inv_finally w Settling).
  - unfold stop_current_audio.
    destruct (current_process m) as [[]|]; try done; by apply Inv_print.
  - by apply (Inv_same m).
  - by apply (Inv_same m).
Qed.

Lemma Inv_run (es : list event) (m : AudioManager) : Inv m → Inv (run m es).
Proof.
  revert m. induction es as [|e es IH]; intros m HI; [done|].
  apply IH, Inv_step, HI.
Qed.

(** ** Nothing that is printed is ever read

    Two managers that differ in [printed] only make the same steps. *)

(** Case analysis on the innermost scrutinee first. *)
Ltac split_cases :=
  repeat (simpl;
          match goal with
          | |- context [match ?c with _ => _ end] =>
              lazymatch c with
              | context [match _ with _ => _ end] => fail
              | _ => destruct c
              end
          end);
  try reflexivity.

Lemma silent_step (m1 m2 : AudioManager) (e : event) :
  silent m1 = silent m2 → silent (step m1 e) = silent (step m2 e).
Proof.
  destruct m1, m2. unfold silent. simpl.
  intros [= -> -> -> -> -> -> -> -> -> -> -> -> -> ->].
  destruct e; simpl;
    unfold queue_audio, _save_tts_to_file, queue_audio_put, already_queued,
      add_queued, create_task, process_audio_queue_start,
      process_audio_queue_get, process_audio_queue_timeout, play_audio,
      play_audio_begin, lock_resume, spawn_done, process_exit, settle_done,
      play_audio_finally, release, task_done, loop_again, stop_current_audio,
      clear_queue, stop_audio_queue, set_loop; split_cases.
Qed.

Lemma silent_run (es : list event) (m1 m2 : AudioManager) :
  silent m1 = silent m2 → silent (run m1 es) = silent (run m2 es).
Proof.
  revert m1 m2. induction es as [|e es IH]; intros m1 m2 H; [done|].
  apply IH, silent_step, H.
Qed.

Lemma play_audio_begin_order w f d now mp3 m :
  order_fields (play_audio_begin w f d now mp3 m)
    (playback_trace m ++ [f]) (lock_waiters m) (audio_queue m) (accepted m).
Proof. unfold play_audio_begin. destruct mp3; done. Qed.

Lemma loop_again_order w m :
  order_fields (loop_again w m)
    (playback_trace m) (lock_waiters m) (audio_queue m) (accepted m).
Proof. unfold loop_again. destruct (is_processing_queue m); done. Qed.

Lemma play_audio_finally_order w f d m :
  order_fields (play_audio_finally w f d m)
    (playback_trace m) (lock_waiters m) (audio_queue m) (accepted m).
Proof.
  unfold play_audio_finally, loop_again.
  destruct (d && bool_decide (f ∈ files _)); simpl;
    destruct (is_processing_queue m); done.
Qed.

Lemma queue_audio_put_order o d m :
  order_fields (queue_audio_put o d m) (playback_trace m) (lock_waiters m)
    (if already_queued o m then audio_queue m else audio_queue m ++ [(o, d)])
    (if already_queued o m then accepted m
     else accepted m ++ option_list (file_of_item (o, d))).
Proof.
  unfold queue_audio_put. destruct (already_queued o m); [done|].
  unfold add_queued, file_of_item. simpl.
  destruct o as [f|]; simpl; [destruct (Py.truthy f); simpl|];
    rewrite ?app_nil_r;
    match goal with |- context [if ?c then _ else _] => destruct c end; done.
Qed.










(** ** What the pending set and the current file can hold *)

Lemma play_audio_begin_names w f d now mp3 m :
  names_fields (play_audio_begin w f d now mp3 m)
    (currently_queued_files (state m)) (Some f).
Proof. unfold play_audio_begin. destruct mp3; done. Qed.

Lemma loop_again_names w m :
  names_fields (loop_again w m)
    (currently_queued_files (state m)) (current_audio_file (state m)).
Proof. unfold loop_again. destruct (is_processing_queue m); done. Qed.

Lemma play_audio_finally_names w f d m :
  names_fields (play_audio_finally w f d m)
    (currently_queued_files (state m) ∖ {[f]}) None.
Proof.
  unfold play_audio_finally, loop_again.
  destruct (d && bool_decide (f ∈ files _)); simpl;
    destruct (is_processing_queue m); done.
Qed.

Lemma known_of (m' : AudioManager) tr ws q acc qs cur :
  order_fields m' tr ws q acc → names_fields m' qs cur →
  (∀ f, (f ∈ qs ∨ cur = Some f ∨ f ∈ tr ∨
         f ∈ ((λ x, x.1.2) <$> ws) ++ omap file_of_item q) → f ∈ acc) →
  known m'.
Proof. intros [<- <- <- <-] [<- <-]. done. Qed.



Lemma known_queue_audio_put (o : option str) (d : bool) (m : AudioManager) :
  known m → known (queue_audio_put o d m).
Proof.
  intros Hk. unfold queue_audio_put.
  destruct (already_queued o m); [done|].
  unfold add_queued. cbv zeta.
  assert (∀ m1, known m1 → known
            (if negb (is_processing_queue m1) then create_task m1 else m1))
    as Hc.
  { intros m1 H1. by destruct (negb (is_processing_queue m1)). }
  destruct o as [f|]; [destruct (Py.truthy f) eqn:Ef|]; apply Hc.
  - intros x. unfold pending, waiting_files, queued_files. simpl.
    rewrite omap_app. simpl. unfold file_of_item at 2. simpl. rewrite Ef.
    rewrite !elem_of_app, elem_of_union, !list_elem_of_singleton,
      elem_of_singleton.
    intros H. destruct (decide (x = f)) as [->|Hne]; [by right|left].
    apply Hk. unfold pending, waiting_files, queued_files.
    rewrite elem_of_app. naive_solver.
  - intros x. unfold pending, waiting_files, queued_files. simpl.
    rewrite omap_app. simpl. unfold file_of_item at 2. simpl. rewrite Ef.
    rewrite app_nil_r. apply Hk.
  - intros x. unfold pending, waiting_files, queued_files. simpl.
    rewrite omap_app. simpl. rewrite app_nil_r. apply Hk.
Qed.

Ltac known_same :=
  first [ done
        | eapply known_of;
          [apply loop_again_order|apply loop_again_names
          |first [done | eassumption]] ].

Lemma known_step (m : AudioManager) (e : event) : known m → known (step m e).
Proof.
  intros Hk.
  assert (∀ f, f ∈ pending m → f ∈ accepted m) as Hp by (intros; apply Hk; auto).
  assert (∀ f, f ∈ playback_trace m → f ∈ accepted m) as Ht
    by (intros; apply Hk; auto).
  unfold pending, waiting_files, queued_files in Hp.
  destruct e as [o g d ts u tts|w|w now mp3|w|w now mp3|w ok|w rc|w| | |];
    simpl.
  - unfold queue_audio. destruct (given g && negb (given o));
      [|by apply known_queue_audio_put].
    unfold _save_tts_to_file. destruct tts; cbv zeta;
      [by apply known_queue_audio_put|done].
  - unfold process_audio_queue_start.
    destruct (loops m !! w) as [[| | | |]|]; known_same.
  - unfold process_audio_queue_get.
    destruct (loops m !! w) as [[| | | |]|]; try done.
    destruct (audio_queue m) as [|[o d] rest] eqn:Hq; [done|].
    assert (known (set_audio_queue rest m)) as Hk1.
    { intros x H. apply Hk. unfold pending, queued_files in *. rewrite Hq.
      simpl in *. rewrite elem_of_app in *.
      destruct (file_of_item (o, d)); [|done]. set_solver. }
    destruct o as [f|]; [destruct (Py.truthy f) eqn:Ef|].
    + assert (f ∈ accepted m) as Hf.
      { apply Hp. simpl. unfold file_of_item at 1. simpl.
        rewrite Ef. set_solver. }
      unfold play_audio. simpl.
      destruct (negb (lock_held m) && bool_decide (lock_waiters m = [])).
      * eapply known_of;
          [apply play_audio_begin_order|apply play_audio_begin_names|].
        simpl. intros x. rewrite elem_of_app, list_elem_of_singleton.
        intros [H|[H|[[H|H]|H]]]; try (apply Hk; by auto); try congruence.
        apply Hp. simpl. destruct (file_of_item (Some f, d)); set_solver.
      * intros x. unfold pending, waiting_files, queued_files. simpl.
        rewrite fmap_app. simpl. intros [H|[H|[H|H]]]; try (apply Hk; by auto).
        rewrite !elem_of_app, list_elem_of_singleton in H.
        destruct H as [[H| ->]|H]; [apply Hp; set_solver|done|].
        apply Hp. simpl. destruct (file_of_item (Some f, d)); set_solver.
    + eapply known_of; [apply loop_again_order|apply loop_again_names|].
      simpl. intros x H. by apply Hk1.
    + eapply known_of; [apply loop_again_order|apply loop_again_names|].
      simpl. intros x H. by apply Hk1.
  - unfold process_audio_queue_timeout.
    destruct (loops m !! w) as [[| | | |]|]; try done.
    destruct (audio_queue m); known_same.
  - unfold lock_resume.
    destruct (loops m !! w) as [[| | | |]|]; try done.
    destruct (lock_waiters m) as [|[[w' f] d] rest] eqn:Hw; [done|].
    destruct (lock_woken m && bool_decide (w' = w)); [|done].
    eapply known_of;
      [apply play_audio_begin_order|apply play_audio_begin_names|].
    simpl. simpl in Hp. intros x. rewrite elem_of_app, list_elem_of_singleton.
    intros [H|[H|[[H|H]|H]]]; try (apply Hk; by auto).
    + injection H as ->. apply Hp. set_solver.
    + subst. apply Hp. set_solver.
    + apply Hp. set_solver.
  - unfold spawn_done.
    destruct (loops m !! w) as [[| | |[] f d|]|]; try done.
    destruct ok; [done|].
    eapply known_of;
      [apply play_audio_finally_order|apply play_audio_finally_names|].
    simpl. intros x [H|[H|H]]; [|done|apply Hk; tauto].
    apply Hk. set_solver.
  - unfold process_exit.
    destruct (loops m !! w) as [[| | |[] f d|]|]; done.
  - unfold settle_done.
    destruct (loops m !! w) as [[| | |[] f d|]|]; try done.
    eapply known_of;
      [apply play_audio_finally_order|apply play_audio_finally_names|].
    simpl. intros x [H|[H|H]]; [|done|apply Hk; tauto].
    apply Hk. set_solver.
  - unfold stop_current_audio. destruct (current_process m) as [[]|]; done.
  - intros x. unfold pending, waiting_files, queued_files. simpl.
    rewrite app_nil_r.
    intros [H|[H|[H|H]]];
      [by apply elem_of_empty in H|apply Hk; auto|apply Hk; auto|].
    apply Hp. set_solver.
  - done.
Qed.

Lemma known_run (es : list event) (m : AudioManager) :
  known m → known (run m es).
Proof.
  revert m. induction es as [|e es IH]; intros m H; [done|].
  apply IH, known_step, H.
Qed.

Lemma unique_name_truthy (ts : nat) (u : str) :
  Py.truthy (_generate_unique_audio_filename ts u) = true.
Proof. reflexivity. Qed.





(** ** Counting the tasks inside [play_audio] *)








(** ** Deduplication on enqueue *)

Lemma queue_audio_duplicate (m : AudioManager) (f : str) (g : option str)
    (d : bool) (ts : nat) (u : str) (tts : tts_outcome) :
  Py.truthy f = true →
  (f ∈ currently_queued_files (state m) ∨
   current_audio_file (state m) = Some f) →
  queue_audio (Some f) g d ts u tts m = print (MsgAlreadyQueued f) m.
Proof.
  intros Ht Hd. unfold queue_audio. simpl. rewrite Ht.
  rewrite andb_false_r. unfold queue_audio_put, already_queued. rewrite Ht.
  replace (bool_decide (f ∈ currently_queued_files (state m))
           || bool_decide (Some f = current_audio_file (state m)))
    with true; [done|].
  symmetry. apply orb_true_iff. destruct Hd as [Hd|Hd]; [left|right];
    by apply bool_decide_eq_true.
Qed.

(** C2. A call of [queue_audio] with a file that is in
    [currently_queued_files] or is [current_audio_file] returns at once:
    the manager is left as it was but for the message that is printed, so
    the queue and the pending set are unchanged; and whatever happens
    afterwards happens as if the call had not been made: the duplicate adds
    no playback. *)
Theorem C2_duplicate_enqueue_is_suppressed (m : AudioManager) (f : str)
    (g : option str) (d : bool) (ts : nat) (u : str) (tts : tts_outcome) :
  Py.truthy f = true →
  (f ∈ currently_queued_files (state m) ∨
   current_audio_file (state m) = Some f) →
  let m' := queue_audio (Some f) g d ts u tts m in
  m' = print (MsgAlreadyQueued f) m ∧
  audio_queue m' = audio_queue m ∧
  currently_queued_files (state m') = currently_queued_files (state m) ∧
  loops m' = loops m ∧
  ∀ es, silent (run m' es) = silent (run m es) ∧
        playback_trace (run m' es) = playback_trace (run m es).
Proof.
  intros Ht Hd m'. subst m'. rewrite (queue_audio_duplicate m f) by done.
  repeat (split; [done|]). intros es.
  assert (silent (run (print (MsgAlreadyQueued f) m) es) = silent (run m es))
    as E by by apply silent_run.
  split; [done|]. by injection E.
Qed.

(** The file is enqueued twice while it is pending, and is played once. *)
Lemma C2_witness :
  let m := step (init ∅) (enq "a.mp3" false) in
  let es := LoopStart 0 :: plays 0 0 ++ [LoopTimeout 0] in
  audio_queue (step m (enq "a.mp3" false)) = audio_queue m ∧
  playback_trace (run (step m (enq "a.mp3" false)) es) = [txt "a.mp3"].
Proof.
  pose proof (C2_duplicate_enqueue_is_suppressed
                (step (init ∅) (enq "a.mp3" false)) (txt "a.mp3") None false
                0 [] TtsRaises) as H.
  cbv zeta in H. destruct H as (_ & Hq & _ & _ & Hes).
  - reflexivity.
  - left. vm_compute. set_solver.
  - split; [exact Hq|]. cbv zeta.
    destruct (Hes (LoopStart 0 :: plays 0 0 ++ [LoopTimeout 0])) as [_ E].
    etrans; [exact E|]. vm_compute. reflexivity.
Defined.

(** ** Identity of synthesized text *)

(** C3, as stated, fails: the same text enqueued twice while the first
    task is still pending gives two tasks with two identities, and both
    are played. *)
Lemma C3_counterexample :
  let m := run (init ∅) [speak "Hello" 1 "aa"; speak "Hello" 2 "bb"] in
  accepted m = [_generate_unique_audio_filename 1 (txt "aa");
                _generate_unique_audio_filename 2 (txt "bb")] ∧
  length (audio_queue m) = 2 ∧
  playback_trace (run m (LoopStart 0 :: plays 0 0 ++ plays 0 0))
  = [_generate_unique_audio_filename 1 (txt "aa");
     _generate_unique_audio_filename 2 (txt "bb")].
Proof. vm_compute. done. Qed.

Lemma unique_name_inj (ts : nat) (u u' : str) :
  _generate_unique_audio_filename ts u = _generate_unique_audio_filename ts u'
  → u = u'.
Proof.
  unfold _generate_unique_audio_filename. intros H.
  repeat apply app_inv_head in H. by apply app_inv_tail in H.
Qed.

Lemma queue_audio_text (m : AudioManager) (text : str) (d : bool)
    (ts : nat) (u : str) (tts : tts_outcome) :
  Py.truthy text = true →
  queue_audio None (Some text) d ts u tts m =
  let m1 := _save_tts_to_file text (_generate_unique_audio_filename ts u)
              tts m in
  match tts with
  | TtsBytes _ =>
      queue_audio_put (Some (_generate_unique_audio_filename ts u)) d m1
  | TtsRaises => print MsgErrorGeneratingTts m1
  end.
Proof. intros Ht. unfold queue_audio, given. by rewrite Ht. Qed.

(** C3, amended.  The identity of a task made from text is the file name
    [_generate_unique_audio_filename ts unique], built from the clock and a
    random UUID: the text has no part in it, two UUIDs give two names, and
    when the name is neither pending nor playing the task is put on the
    queue even if the same text is already there. *)
Theorem C3_identity_is_a_generated_file_name (m : AudioManager)
    (text text' : str) (d : bool) (ts : nat) (u : str) (n n' : nat) :
  Py.truthy text = true → Py.truthy text' = true →
  let name := _generate_unique_audio_filename ts u in
  let m1 := queue_audio None (Some text) d ts u (TtsBytes n) m in
  silent m1 = silent (queue_audio None (Some text') d ts u (TtsBytes n') m) ∧
  (∀ u', _generate_unique_audio_filename ts u' = name → u' = u) ∧
  (already_queued (Some name) m = false →
   accepted m1 = accepted m ++ [name] ∧
   audio_queue m1 = audio_queue m ++ [(Some name, d)] ∧
   name ∈ currently_queued_files (state m1)).
Proof.
  intros Ht Ht' name m1. subst m1 name.
  rewrite !queue_audio_text by done. cbv zeta.
  set (name := _generate_unique_audio_filename ts u).
  assert (∀ t k, already_queued (Some name)
                   (_save_tts_to_file t name (TtsBytes k) m)
                 = already_queued (Some name) m) as Hsame by done.
  assert (Py.truthy name = true) as Hn by apply unique_name_truthy.
  split; [|split].
  - unfold queue_audio_put. rewrite !Hsame.
    destruct (already_queued (Some name) m); [done|].
    unfold add_queued. rewrite Hn. simpl.
    destruct (negb (is_processing_queue m)); done.
  - intros u' H. by apply unique_name_inj in H.
  - intros Hq. unfold queue_audio_put. rewrite Hsame, Hq.
    unfold add_queued. rewrite Hn. simpl.
    destruct (negb (is_processing_queue m)); simpl;
      (split; [done|split; [done|set_solver]]).
Qed.

Lemma C3_witness :
  let m := step (init ∅) (speak "Hello" 1 "aa") in
  accepted (step m (speak "Hello" 1 "bb"))
  = accepted m ++ [_generate_unique_audio_filename 1 (txt "bb")].
Proof.
  pose proof (C3_identity_is_a_generated_file_name
                (step (init ∅) (speak "Hello" 1 "aa"))
                (txt "Hello") (txt "Hello") true 1 (txt "bb") 1024 1024
                eq_refl eq_refl) as H.
  cbv zeta in H. destruct H as (_ & _ & H).
  destruct H as (H & _ & _); [vm_compute; reflexivity|exact H].
Defined.

(** ** A failure stays with its task *)






(** ** First in, first out; one playback at a time *)

Lemma reachable_Inv (disk : gset (list ascii)) (es : list event) :
  Inv (run (init disk) es).
Proof. apply Inv_run, Inv_init. Qed.




(** ** The playback state *)



(** ** Waiting for the end of a playback *)


(** ** The number of loops *)

(** C8.  Two calls of [queue_audio] that follow each other before the
    event loop has run the first task both see [is_processing_queue]
    false, and both create a task: two loops are then active. *)
Theorem C8_two_loops :
  let m := run (init ∅) [enq "a.mp3" false; enq "b.mp3" false] in
  loops m = [Created; Created] ∧
  is_processing_queue m = false ∧
  let m' := run m [LoopStart 0; LoopStart 1] in
  loops m' = [AtGet; AtGet] ∧ active_loops m' = 2.
Proof. vm_compute. done. Qed.

(** Once a loop has set the flag, a call creates none. *)
Lemma queue_audio_no_task (m : AudioManager) (o g : option str) (d : bool)
    (ts : nat) (u : str) (tts : tts_outcome) :
  is_processing_queue m = true →
  loops (queue_audio o g d ts u tts m) = loops m.
Proof.
  intros Hflag.
  assert (∀ o' m1, loops m1 = loops m →
                   is_processing_queue m1 = true →
                   loops (queue_audio_put o' d m1) = loops m) as Hput.
  { intros o' m1 E1 E2. unfold queue_audio_put.
    destruct (already_queued o' m1); [done|]. unfold add_queued.
    destruct o' as [f|]; [destruct (Py.truthy f)|]; simpl; by rewrite E2. }
  unfold queue_audio. destruct (given g && negb (given o)); [|by apply Hput].
  cbv zeta. destruct tts; [by apply Hput|done].
Qed.

End Playback.

(** * The text cleaner *)

Section Cleaner.
Import Dedup.

(** ** Stripping *)

Lemma lstrip_suffix (t : str) : Py.lstrip t `suffix_of` t.
Proof.
  induction t as [|c r IH]; simpl; [done|].
  destruct (Py.isspace c); [|done]. by apply suffix_cons_r.
Qed.

Lemma lstrip_head (t : str) (c : ascii) :
  head (Py.lstrip t) = Some c → Py.isspace c = false.
Proof.
  induction t as [|x r IH]; simpl; [done|].
  destruct (Py.isspace x) eqn:E; [done|]. simpl. congruence.
Qed.

Lemma lstrip_id (t : str) :
  (∀ c, head t = Some c → Py.isspace c = false) → Py.lstrip t = t.
Proof.
  destruct t as [|x r]; simpl; [done|]. intros H. by rewrite (H x).
Qed.

Lemma lstrip_app_nonspace (x y : str) (c : ascii) :
  Py.isspace c = false → Py.lstrip (x ++ c :: y) = Py.lstrip x ++ c :: y.
Proof.
  intros Hc. induction x as [|d x IH]; simpl.
  - by rewrite Hc.
  - by destruct (Py.isspace d).
Qed.

Lemma lstrip_spaces (t : str) :
  Forall (λ c, Py.isspace c = true) t → Py.lstrip t = [].
Proof. induction 1 as [|c r Hc _ IH]; simpl; [done|]. by rewrite Hc. Qed.

Lemma last_rev {A} (l : list A) : last (rev l) = head l.
Proof. destruct l as [|x r]; simpl; [done|]. by rewrite last_snoc. Qed.

Lemma head_rev {A} (l : list A) : head (rev l) = last l.
Proof. by rewrite <- last_rev, rev_involutive. Qed.

Lemma rstrip_prefix (t : str) : Py.rstrip t `prefix_of` t.
Proof.
  unfold Py.rstrip. destruct (lstrip_suffix (rev t)) as [k Hk].
  exists (rev k). apply (f_equal (@rev _)) in Hk.
  by rewrite rev_involutive, rev_app_distr in Hk.
Qed.

Lemma rstrip_last (t : str) (c : ascii) :
  last (Py.rstrip t) = Some c → Py.isspace c = false.
Proof.
  unfold Py.rstrip. rewrite last_rev. apply lstrip_head.
Qed.

Lemma rstrip_id (t : str) :
  (∀ c, last t = Some c → Py.isspace c = false) → Py.rstrip t = t.
Proof.
  intros H. unfold Py.rstrip. rewrite lstrip_id, rev_involutive; [done|].
  intros c Hc. apply H. by rewrite <- head_rev.
Qed.

Lemma rstrip_cons_nonspace (c : ascii) (r : str) :
  Py.isspace c = false → Py.rstrip (c :: r) = c :: Py.rstrip r.
Proof.
  intros Hc. unfold Py.rstrip. simpl.
  rewrite lstrip_app_nonspace by done. by rewrite rev_app_distr.
Qed.

Lemma strip_elem (t : str) (c : ascii) : c ∈ Py.strip t → c ∈ t.
Proof.
  unfold Py.strip. intros H.
  destruct (rstrip_prefix (Py.lstrip t)) as [k Hk].
  destruct (lstrip_suffix t) as [k' Hk'].
  rewrite Hk', Hk. set_solver.
Qed.

Lemma strip_head (t : str) (c : ascii) :
  head (Py.strip t) = Some c → Py.isspace c = false.
Proof.
  unfold Py.strip. destruct (Py.lstrip t) as [|x r] eqn:E; [done|].
  assert (Py.isspace x = false) as Hx by (apply (lstrip_head t); by rewrite E).
  rewrite rstrip_cons_nonspace by done. simpl. congruence.
Qed.

Lemma strip_last (t : str) (c : ascii) :
  last (Py.strip t) = Some c → Py.isspace c = false.
Proof. apply rstrip_last. Qed.

Lemma strip_id (t : str) :
  (∀ c, head t = Some c → Py.isspace c = false) →
  (∀ c, last t = Some c → Py.isspace c = false) →
  Py.strip t = t.
Proof. intros H1 H2. unfold Py.strip. by rewrite lstrip_id, rstrip_id. Qed.

Lemma strip_strip (t : str) : Py.strip (Py.strip t) = Py.strip t.
Proof. apply strip_id; [apply strip_head|apply strip_last]. Qed.

Lemma strip_spaces (t : str) :
  Forall (λ c, Py.isspace c = true) t → Py.strip t = [].
Proof. intros H. unfold Py.strip. by rewrite lstrip_spaces. Qed.

Lemma strip_length (t : str) : length (Py.strip t) ≤ length t.
Proof.
  unfold Py.strip.
  destruct (rstrip_prefix (Py.lstrip t)) as [k Hk].
  destruct (lstrip_suffix t) as [k' Hk'].
  apply (f_equal length) in Hk, Hk'. rewrite length_app in Hk, Hk'. lia.
Qed.

(** ** The two replacements of newlines *)

Lemma replace_nlnl_length (t : str) :
  length (Py.replace_nlnl t) = length t.
Proof.
  induction t as [t IH] using (induction_ltof1 _ (@length _)).
  unfold ltof in IH.
  destruct t as [|c1 [|c2 r2]]; [done..|].
  simpl. destruct (Py.eqc c1 Py.nl && Py.eqc c2 Py.nl); simpl.
  - rewrite IH by (simpl; lia). done.
  - f_equal. apply (IH (c2 :: r2)). simpl. lia.
Qed.

Lemma replace_nlnl_elem (t : str) (c : ascii) :
  c ∈ Py.replace_nlnl t → c ∈ t ∨ c = "."%char ∨ c = " "%char.
Proof.
  induction t as [t IH] using (induction_ltof1 _ (@length _)).
  unfold ltof in IH.
  destruct t as [|c1 [|c2 r2]]; [by left..|].
  simpl. destruct (Py.eqc c1 Py.nl && Py.eqc c2 Py.nl).
  - intros [->|[->|H]%elem_of_cons]%elem_of_cons; [by right; left|by right; right|].
    apply IH in H; [|simpl; lia]. set_solver.
  - intros [->|H]%elem_of_cons; [left; left|].
    apply (IH (c2 :: r2)) in H; [|simpl; lia]. set_solver.
Qed.

Lemma replace_nlnl_id (t : str) : Py.nl ∉ t → Py.replace_nlnl t = t.
Proof.
  induction t as [t IH] using (induction_ltof1 _ (@length _)).
  unfold ltof in IH.
  destruct t as [|c1 [|c2 r2]]; [done..|]. intros Hn.
  simpl. replace (Py.eqc c1 Py.nl) with false.
  - simpl. f_equal. apply (IH (c2 :: r2)); [simpl; lia|set_solver].
  - symmetry. apply eqc_false. set_solver.
Qed.

Lemma replace_nl_elem (t : str) (c : ascii) :
  c ∈ Py.replace_nl t → c ∈ t ∨ c = " "%char.
Proof.
  unfold Py.replace_nl. induction t as [|x r IH]; simpl; [by left|].
  intros [->|H]%elem_of_cons.
  - destruct (Py.eqc x Py.nl); [by right|left; left].
  - apply IH in H. set_solver.
Qed.

Lemma replace_nl_id (t : str) : Py.nl ∉ t → Py.replace_nl t = t.
Proof.
  intros Hn. unfold Py.replace_nl. induction t as [|c r IH]; [done|].
  simpl. rewrite IH by set_solver.
  replace (Py.eqc c Py.nl) with false; [done|].
  symmetry. apply eqc_false. set_solver.
Qed.

(** ** Runs of white space *)

Lemma collapse_ws_from_length (b : bool) (t : str) :
  length (Py.collapse_ws_from b t) ≤ length t.
Proof.
  revert b. induction t as [|c r IH]; intros b; simpl; [done|].
  pose proof (IH true). pose proof (IH false).
  destruct (Py.isspace c); [destruct b|]; simpl; lia.
Qed.

(** After the collapse every white space character is a blank. *)
Lemma collapse_ws_from_space (b : bool) (t : str) (c : ascii) :
  c ∈ Py.collapse_ws_from b t → Py.isspace c = true → c = " "%char.
Proof.
  revert b. induction t as [|x r IH]; intros b; simpl.
  - by intros ?%elem_of_nil.
  - destruct (Py.isspace x) eqn:E; [destruct b|].
    + apply IH.
    + intros [->|H]%elem_of_cons; [done|]. by apply (IH true).
    + intros [->|H]%elem_of_cons; [congruence|]. by apply (IH false).
Qed.

Lemma collapse_ws_from_elem (b : bool) (t : str) (c : ascii) :
  c ∈ Py.collapse_ws_from b t → c ∈ t ∨ c = " "%char.
Proof.
  revert b. induction t as [|x r IH]; intros b; simpl.
  - by intros ?%elem_of_nil.
  - destruct (Py.isspace x) eqn:E; [destruct b|].
    + intros H. apply IH in H. set_solver.
    + intros [->|H]%elem_of_cons; [by right|]. apply IH in H. set_solver.
    + intros [->|H]%elem_of_cons; [left; left|]. apply IH in H. set_solver.
Qed.

Lemma collapse_ws_from_idemp (b : bool) (t : str) :
  Py.collapse_ws_from b (Py.collapse_ws_from b t) = Py.collapse_ws_from b t.
Proof.
  revert b. induction t as [|x r IH]; intros b; simpl; [done|].
  destruct (Py.isspace x) eqn:E; [destruct b|]; simpl.
  - apply IH.
  - replace (Py.isspace " ") with true by done. by rewrite IH.
  - by rewrite E, IH.
Qed.

(** The state of the collapse after [x]: inside a run or not. *)
Lemma collapse_ws_from_app (b : bool) (x y : str) :
  Py.collapse_ws_from b (x ++ y)
  = Py.collapse_ws_from b x
    ++ Py.collapse_ws_from
         (match last x with Some c => Py.isspace c | None => b end) y.
Proof.
  revert b. induction x as [|c r IH]; intros b; [done|].
  assert (match last (c :: r) with Some c0 => Py.isspace c0 | None => b end
          = match last r with Some c0 => Py.isspace c0 | None => Py.isspace c end)
    as ->.
  { destruct r as [|a r]; [done|]. rewrite last_cons_cons.
    destruct (last (a :: r)) eqn:El; [done|]. by apply last_None in El. }
  simpl. destruct (Py.isspace c) eqn:E; [destruct b|]; simpl; by rewrite IH.
Qed.

Lemma collapse_ws_from_head (b b' : bool) (t : str) :
  (∀ c, head t = Some c → Py.isspace c = false) →
  Py.collapse_ws_from b t = Py.collapse_ws_from b' t.
Proof.
  destruct t as [|c r]; simpl; [done|]. intros H. by rewrite (H c).
Qed.

(** A fixed point of the collapse stays one when it is stripped. *)
Lemma collapse_fixed_lstrip (b : bool) (t : str) :
  Py.collapse_ws_from b t = t →
  Py.collapse_ws_from false (Py.lstrip t) = Py.lstrip t.
Proof.
  destruct t as [|c r]; simpl; [done|].
  destruct (Py.isspace c) eqn:E.
  - destruct b.
    + intros H. apply (f_equal length) in H.
      pose proof (collapse_ws_from_length true r). simpl in H. lia.
    + intros [= _ H]. destruct r as [|c' r']; simpl in *; [done|].
      destruct (Py.isspace c') eqn:E'.
      * apply (f_equal length) in H.
        pose proof (collapse_ws_from_length true r'). simpl in H. lia.
      * simpl. by rewrite E'.
  - simpl. rewrite E. intros [= H]. by rewrite H.
Qed.

Lemma collapse_fixed_prefix (b : bool) (x y : str) :
  Py.collapse_ws_from b (x ++ y) = x ++ y → Py.collapse_ws_from b x = x.
Proof.
  rewrite collapse_ws_from_app. intros H.
  set (b' := match last x with Some c => Py.isspace c | None => b end) in *.
  pose proof (collapse_ws_from_length b x).
  pose proof (collapse_ws_from_length b' y).
  apply app_inj_1 in H as [H _]; [done|].
  apply (f_equal length) in H. rewrite !length_app in H. lia.
Qed.

Lemma collapse_fixed_strip (t : str) :
  Py.collapse_ws t = t → Py.collapse_ws (Py.strip t) = Py.strip t.
Proof.
  intros H. apply collapse_fixed_lstrip in H.
  unfold Py.strip, Py.collapse_ws.
  destruct (rstrip_prefix (Py.lstrip t)) as [k Hk].
  apply (collapse_fixed_prefix false _ k). by rewrite <- Hk.
Qed.

(** ** Empty parentheses *)

Lemma remove_empty_parens_from_length (k : nat) (t : str) :
  length (Py.remove_empty_parens_from k t) ≤ length t.
Proof.
  revert k. induction t as [|c r IH]; intros k; simpl; [done|].
  destruct k as [|k].
  - pose proof (IH 0).
    destruct (Py.eqc c "("); [destruct (Py.ws_then_close r) as [n|]|]; simpl;
      try lia. specialize (IH n). lia.
  - specialize (IH k). lia.
Qed.

Lemma remove_empty_parens_from_elem (k : nat) (t : str) (c : ascii) :
  c ∈ Py.remove_empty_parens_from k t → c ∈ t.
Proof.
  revert k. induction t as [|x r IH]; intros k; simpl; [done|].
  destruct k as [|k].
  - destruct (Py.eqc x "("); [destruct (Py.ws_then_close r)|].
    + intros H. apply IH in H. by right.
    + intros [->|H]%elem_of_cons; [left|]. apply IH in H. by right.
    + intros [->|H]%elem_of_cons; [left|]. apply IH in H. by right.
  - intros H. apply IH in H. by right.
Qed.

Lemma remove_empty_parens_id (t : str) :
  "("%char ∉ t → Py.remove_empty_parens t = t.
Proof.
  unfold Py.remove_empty_parens. induction t as [|c r IH]; [done|].
  intros Hn. simpl. replace (Py.eqc c "(") with false.
  - rewrite IH; [done|set_solver].
  - symmetry. apply eqc_false. set_solver.
Qed.

(** ** [_clean_text_for_tts] *)

Lemma clean_unfold (t : str) :
  _clean_text_for_tts t
  = Py.strip (Py.remove_empty_parens (Py.collapse_ws
      (Py.replace_nl (Py.replace_nlnl (Py.strip t))))).
Proof. unfold _clean_text_for_tts. by destruct t. Qed.

Lemma clean_strip (t : str) :
  _clean_text_for_tts (Py.strip t) = _clean_text_for_tts t.
Proof. by rewrite !clean_unfold, strip_strip. Qed.

Lemma clean_space (t : str) (c : ascii) :
  c ∈ _clean_text_for_tts t → Py.isspace c = true → c = " "%char.
Proof.
  rewrite clean_unfold. intros H%strip_elem Hs.
  apply remove_empty_parens_from_elem in H.
  eapply collapse_ws_from_space; [exact H|done].
Qed.

Lemma clean_elem (t : str) (c : ascii) :
  c ∈ _clean_text_for_tts t → c ∈ t ∨ c = "."%char ∨ c = " "%char.
Proof.
  rewrite clean_unfold. intros H%strip_elem.
  apply remove_empty_parens_from_elem in H.
  apply collapse_ws_from_elem in H as [H| ->]; [|by right; right].
  apply replace_nl_elem in H as [H| ->]; [|by right; right].
  apply replace_nlnl_elem in H as [H|H]; [|by right].
  left. by apply strip_elem.
Qed.

Lemma clean_spaces (t : str) :
  Forall (λ c, Py.isspace c = true) t → _clean_text_for_tts t = [].
Proof. intros H. rewrite clean_unfold, (strip_spaces t) by done. done. Qed.

(** The text handed to the synthesizer holds no line break, no tabulation
    and no other white space than the blank, and neither starts nor ends
    with a blank. *)
Theorem cleaned_text_has_blanks_only (t : str) :
  let u := _clean_text_for_tts t in
  (∀ c, c ∈ u → Py.isspace c = true → c = " "%char) ∧
  (Py.nl ∉ u) ∧
  (∀ c, head u = Some c → Py.isspace c = false) ∧
  (∀ c, last u = Some c → Py.isspace c = false).
Proof.
  cbv zeta. split; [apply clean_space|]. split.
  - intros H. by apply clean_space in H.
  - rewrite clean_unfold. split; [apply strip_head|apply strip_last].
Qed.

Lemma clean_length (t : str) : length (_clean_text_for_tts t) ≤ length t.
Proof.
  rewrite clean_unfold.
  etrans; [apply strip_length|].
  etrans; [apply remove_empty_parens_from_length|].
  etrans; [apply collapse_ws_from_length|].
  unfold Py.replace_nl. rewrite length_map, replace_nlnl_length.
  apply strip_length.
Qed.

(** Cleaning never makes a text longer, and it makes a text of white
    space only the empty text. *)
Theorem cleaned_text_is_not_longer (t : str) :
  length (_clean_text_for_tts t) ≤ length t ∧
  (Forall (λ c, Py.isspace c = true) t → _clean_text_for_tts t = []).
Proof. split; [apply clean_length|apply clean_spaces]. Qed.

(** On a text without an opening parenthesis, cleaning twice is cleaning
    once. *)
Theorem cleaning_is_idempotent_without_parentheses (t : str) :
  "("%char ∉ t →
  _clean_text_for_tts (_clean_text_for_tts t) = _clean_text_for_tts t.
Proof.
  intros Hp.
  assert ("("%char ∉ _clean_text_for_tts t) as Hp'.
  { intros [H|[H|H]]%clean_elem; done. }
  assert (Py.nl ∉ _clean_text_for_tts t) as Hn.
  { intros H. by apply clean_space in H. }
  assert (Py.collapse_ws (_clean_text_for_tts t) = _clean_text_for_tts t) as Hc.
  { rewrite clean_unfold. rewrite clean_unfold in Hp'.
    set (v := Py.collapse_ws _) in *.
    assert ("("%char ∉ v) as Hv.
    { intros H. unfold v in H.
      apply collapse_ws_from_elem in H as [H|H]; [|done].
      apply replace_nl_elem in H as [H|H]; [|done].
      apply replace_nlnl_elem in H as [H|[H|H]]; [|done..].
      by apply strip_elem in H. }
    rewrite remove_empty_parens_id by done.
    apply collapse_fixed_strip. apply collapse_ws_from_idemp. }
  rewrite (clean_unfold (_clean_text_for_tts t)).
  assert (Py.strip (_clean_text_for_tts t) = _clean_text_for_tts t) as ->.
  { rewrite clean_unfold. apply strip_strip. }
  rewrite replace_nlnl_id, replace_nl_id, Hc, remove_empty_parens_id by done.
  rewrite clean_unfold. apply strip_strip.
Qed.

Lemma cleaning_is_idempotent_witness :
  _clean_text_for_tts (_clean_text_for_tts (txt "  Hello,
 world.   Bye  "))
  = _clean_text_for_tts (txt "  Hello,
 world.   Bye  ").
Proof.
  apply cleaning_is_idempotent_without_parentheses. vm_compute.
  intros H. repeat (apply elem_of_cons in H as [H|H]; [done|]).
  by apply elem_of_nil in H.
Defined.

(** A chunk of white space only is never handed to the audio manager,
    whatever the identifier, the flag and the stored drafts. *)
Theorem blank_chunk_is_not_queued (p : SimplifiedTTSProcessor)
    (text id : str) (is_complete : bool) :
  Forall (λ c, Py.isspace c = true) text →
  (process_chunk p text id is_complete).2 = None.
Proof.
  intros H.
  assert (clean_and_queue text = None) as Hq.
  { unfold clean_and_queue. by rewrite clean_spaces. }
  unfold process_chunk. destruct (audio_manager p); simpl; [|done].
  destruct is_complete; simpl.
  - destruct (oneshot_raw_texts p !! _); [|done].
    destruct (good_match _ _); [|done].
    rewrite strip_spaces; [done|]. by apply Forall_drop.
  - by destruct (Py.contains _ id).
Qed.

Lemma blank_chunk_is_not_queued_witness :
  (process_chunk (init true) (txt "   ") (txt "claude-resp-1-oneshot") false).2
  = None.
Proof. apply blank_chunk_is_not_queued. by vm_compute; repeat constructor. Defined.

End Cleaner.

(** * Identifiers with a suffix *)

Section Suffixes.
Import Dedup Difflib.

Lemma split_app (sep : ascii) (t u : str) :
  Py.split sep (t ++ sep :: u) = Py.split sep t ++ Py.split sep u.
Proof.
  induction t as [|c r IH]; simpl.
  - replace (Py.eqc sep sep) with true; [done|]. symmetry. by apply eqc_true.
  - destruct (Py.eqc c sep); [by rewrite IH|].
    rewrite IH. pose proof (split_nonempty sep r).
    by destruct (Py.split sep r).
Qed.

(** Joining what was split gives the string back. *)
Lemma join_split (sep : ascii) (t : str) :
  Py.join sep (Py.split sep t) = t.
Proof.
  induction t as [|c r IH]; simpl; [done|].
  pose proof (split_nonempty sep r) as Hne.
  destruct (Py.eqc c sep) eqn:E.
  - apply eqc_true in E. subst c.
    destruct (Py.split sep r) as [|h parts]; [done|].
    simpl in *. by rewrite IH.
  - destruct (Py.split sep r) as [|h parts]; [done|].
    destruct parts; simpl in *; by rewrite <- IH.
Qed.

Lemma from_end_1_snoc {A} (xs : list A) (x : A) :
  Py.from_end 1 (xs ++ [x]) = Some x.
Proof.
  unfold Py.from_end. rewrite length_app. simpl.
  replace (length xs + 1 - 1) with (length xs) by lia.
  by rewrite list_lookup_middle.
Qed.

Lemma from_end_2_snoc {A} (xs : list A) (x : A) :
  1 ≤ length xs → Py.from_end 2 (xs ++ [x]) = Py.from_end 1 xs.
Proof.
  intros Hn. unfold Py.from_end. rewrite length_app. simpl.
  replace (length xs + 1 - 2) with (length xs - 1) by lia.
  apply lookup_app_l. lia.
Qed.

Lemma drop_last_snoc {A} (xs ys : list A) :
  Py.drop_last (length ys) (xs ++ ys) = xs.
Proof.
  unfold Py.drop_last. rewrite length_app.
  replace (length xs + length ys - length ys) with (length xs) by lia.
  by rewrite take_app_length.
Qed.

Lemma known_suffix_no_dash (s : str) :
  s ∈ known_suffixes → "-"%char ∉ s.
Proof.
  unfold known_suffixes. intros H.
  repeat (apply elem_of_cons in H as [->|H];
          [vm_compute; intros H;
           repeat (apply elem_of_cons in H as [H|H]; [done|]);
           by apply elem_of_nil in H|]).
  by apply elem_of_nil in H.
Qed.

Lemma in_known_Some (s : str) : s ∈ known_suffixes → in_known (Some s) = true.
Proof. intros H. unfold in_known, Py.mem. by apply bool_decide_eq_true. Qed.

Lemma split_suffix (b s : str) :
  "-"%char ∉ s → Py.split "-" (b ++ "-"%char :: s) = Py.split "-" b ++ [s].
Proof. intros H. by rewrite split_app, (split_no_sep _ s). Qed.

Lemma base_of_one_suffix (b s : str) :
  s ∈ known_suffixes →
  2 ≤ length (Py.split "-" b) →
  (3 ≤ length (Py.split "-" b) →
   in_known (Py.from_end 1 (Py.split "-" b)) = false) →
  _get_base_response_id (b ++ "-"%char :: s) = b.
Proof.
  intros Hs Hn Hlast. unfold _get_base_response_id.
  rewrite split_suffix by by apply known_suffix_no_dash.
  rewrite from_end_1_snoc, from_end_2_snoc, in_known_Some by (done || lia).
  rewrite length_app. simpl.
  replace (2 <? length (Py.split "-" b) + 1) with true
    by (symmetry; apply Nat.ltb_lt; lia).
  simpl.
  destruct (3 <? length (Py.split "-" b) + 1) eqn:E.
  - apply Nat.ltb_lt in E. rewrite Hlast by lia. simpl.
    rewrite (drop_last_snoc _ [s]). apply join_split.
  - simpl. rewrite (drop_last_snoc _ [s]). apply join_split.
Qed.

Lemma base_of_two_suffixes (b s s' : str) :
  s ∈ known_suffixes → s' ∈ known_suffixes →
  2 ≤ length (Py.split "-" b) →
  _get_base_response_id (b ++ "-"%char :: s ++ "-"%char :: s') = b.
Proof.
  intros Hs Hs' Hn. unfold _get_base_response_id.
  replace (b ++ "-"%char :: s ++ "-"%char :: s')
    with ((b ++ "-"%char :: s) ++ "-"%char :: s')
    by (by rewrite <- app_assoc).
  rewrite split_suffix by by apply known_suffix_no_dash.
  rewrite split_suffix by by apply known_suffix_no_dash.
  rewrite from_end_1_snoc, from_end_2_snoc, from_end_1_snoc
    by (rewrite length_app; simpl; lia).
  rewrite !in_known_Some by done.
  rewrite !length_app. simpl.
  replace (2 <? length (Py.split "-" b) + 1 + 1) with true
    by (symmetry; apply Nat.ltb_lt; lia).
  replace (3 <? length (Py.split "-" b) + 1 + 1) with true
    by (symmetry; apply Nat.ltb_lt; lia).
  simpl. rewrite <- app_assoc. simpl.
  rewrite (drop_last_snoc _ [s; s']). apply join_split.
Qed.

(** A known suffix is taken off an identifier whose base has two
    dash-separated parts or more, provided the last part of the base is
    not itself a known suffix when the base has three parts or more; two
    known suffixes in a row are taken off together. *)
Theorem known_suffix_is_stripped (b s : str) :
  s ∈ known_suffixes →
  2 ≤ length (Py.split "-" b) →
  ((3 ≤ length (Py.split "-" b) →
    in_known (Py.from_end 1 (Py.split "-" b)) = false) →
   _get_base_response_id (b ++ "-"%char :: s) = b) ∧
  (∀ s', s' ∈ known_suffixes →
     _get_base_response_id (b ++ "-"%char :: s ++ "-"%char :: s') = b).
Proof.
  intros Hs Hn. split.
  - by apply base_of_one_suffix.
  - intros s' Hs'. by apply base_of_two_suffixes.
Qed.

Lemma known_suffix_is_stripped_witness :
  _get_base_response_id (txt "claude-resp-42" ++ "-"%char :: txt "complete")
  = txt "claude-resp-42" ∧
  _get_base_response_id
    (txt "claude-resp-42" ++ "-"%char :: txt "oneshot"
       ++ "-"%char :: txt "finalized")
  = txt "claude-resp-42".
Proof.
  assert (txt "complete" ∈ known_suffixes) as H1
    by (unfold known_suffixes; repeat first [by left | right]).
  assert (txt "oneshot" ∈ known_suffixes) as H2
    by (unfold known_suffixes; repeat first [by left | right]).
  assert (txt "finalized" ∈ known_suffixes) as H3
    by (unfold known_suffixes; repeat first [by left | right]).
  assert (2 ≤ length (Py.split "-" (txt "claude-resp-42"))) as Hn
    by (vm_compute; lia).
  split.
  - refine (proj1 (known_suffix_is_stripped _ _ H1 Hn) _). by vm_compute.
  - exact (proj2 (known_suffix_is_stripped _ _ H2 Hn) _ H3).
Defined.

(** A draft sent as [base-oneshot] and a final chunk sent as [base-suffix]
    meet under [base] when it has two dash-separated parts or more: the
    draft is spoken, a final chunk with the same text adds nothing, and
    the buffer ends without an entry for [base]. *)
Theorem draft_and_final_meet (p : SimplifiedTTSProcessor)
    (b s text : str) :
  audio_manager p = true →
  s ∈ known_suffixes →
  2 ≤ length (Py.split "-" b) →
  (3 ≤ length (Py.split "-" b) →
   in_known (Py.from_end 1 (Py.split "-" b)) = false) →
  let r1 := process_chunk p text (b ++ txt "-oneshot") false in
  let r2 := process_chunk r1.1 text (b ++ "-"%char :: s) true in
  r1.2 = clean_and_queue text ∧
  oneshot_raw_texts r1.1 !! b = Some text ∧
  r2.2 = None ∧
  oneshot_raw_texts r2.1 = delete b (oneshot_raw_texts p).
Proof.
  intros Hm Hs Hn Hlast r1 r2.
  assert (txt "oneshot" ∈ known_suffixes) as Ho
    by (unfold known_suffixes; repeat first [by left | right]).
  assert (_get_base_response_id (b ++ txt "-oneshot") = b) as Hb1.
  { by apply base_of_one_suffix. }
  assert (_get_base_response_id (b ++ "-"%char :: s) = b) as Hb2.
  { by apply base_of_one_suffix. }
  assert (r1 = ({| audio_manager := audio_manager p;
                   oneshot_raw_texts := <[b := text]> (oneshot_raw_texts p) |},
                clean_and_queue text)) as E1.
  { unfold r1. rewrite process_chunk_draft, Hb1; [done..|].
    apply contains_oneshot. }
  assert (oneshot_raw_texts r1.1 !! _get_base_response_id (b ++ "-"%char :: s)
          = Some text) as Hd.
  { rewrite Hb2, E1. simpl. apply lookup_insert_eq. }
  assert (audio_manager r1.1 = true) as Hm1 by by rewrite E1.
  pose proof (process_chunk_final_draft r1.1 text _ text Hm1 Hd) as E2.
  cbv zeta in E2. fold r2 in E2.
  rewrite identical_final_is_silent in E2.
  rewrite E2, Hb2, E1. simpl.
  split; [done|]. split; [apply lookup_insert_eq|]. split; [done|].
  apply delete_insert_eq.
Qed.

Lemma draft_and_final_meet_witness :
  let r1 := process_chunk (init true) (txt "Hello there")
              (txt "claude-resp" ++ txt "-oneshot") false in
  let r2 := process_chunk r1.1 (txt "Hello there")
              (txt "claude-resp" ++ "-"%char :: txt "complete") true in
  r1.2 = clean_and_queue (txt "Hello there") ∧
  oneshot_raw_texts r1.1 !! txt "claude-resp" = Some (txt "Hello there") ∧
  r2.2 = None ∧
  oneshot_raw_texts r2.1
  = delete (txt "claude-resp") (oneshot_raw_texts (init true)).
Proof.
  refine (draft_and_final_meet (init true) (txt "claude-resp")
            (txt "complete") (txt "Hello there") eq_refl _ _ _).
  - unfold known_suffixes. repeat first [by left | right].
  - vm_compute. lia.
  - vm_compute. lia.
Defined.

(** A final chunk that is sent twice is spoken in full the second time:
    whatever the first call did with a stored draft, the draft is gone,
    and the second call enqueues the whole cleaned text. *)
Theorem final_sent_twice_is_spoken_in_full (p : SimplifiedTTSProcessor)
    (text id : str) :
  audio_manager p = true →
  let r1 := process_chunk p text id true in
  process_chunk r1.1 text id true = (r1.1, clean_and_queue text).
Proof.
  intros Hm r1.
  assert (audio_manager r1.1 = true ∧
          oneshot_raw_texts r1.1 !! _get_base_response_id id = None)
    as [Hm1 Hd1].
  { unfold r1.
    destruct (oneshot_raw_texts p !! _get_base_response_id id) as [draft|]
      eqn:Hd.
    - rewrite (process_chunk_final_draft p text id draft Hm Hd). simpl.
      split; [done|]. apply lookup_delete_eq.
    - by rewrite (process_chunk_final_no_draft p text id Hm Hd). }
  by apply process_chunk_final_no_draft.
Qed.

Lemma final_sent_twice_is_spoken_in_full_witness :
  let p := (process_chunk (init true) (txt "Hello there")
              (txt "claude-resp-oneshot") false).1 in
  let r1 := process_chunk p (txt "Hello there") (txt "claude-resp-complete")
              true in
  process_chunk r1.1 (txt "Hello there") (txt "claude-resp-complete") true
  = (r1.1, clean_and_queue (txt "Hello there")).
Proof.
  cbv zeta.
  exact (final_sent_twice_is_spoken_in_full
           (process_chunk (init true) (txt "Hello there")
              (txt "claude-resp-oneshot") false).1
           (txt "Hello there") (txt "claude-resp-complete") eq_refl).
Defined.

End Suffixes.

(** * Which of the longest blocks is reported *)

Section FirstBlock.
Import Dedup Difflib Lcs.

(** The positions of a character are listed in increasing order. *)
Lemma positions_sorted (b : str) (i0 j : nat) (c : ascii) (l1 l2 : list nat) :
  positions i0 c b = l1 ++ j :: l2 →
  (∀ x, x ∈ l1 → x < j) ∧ (∀ x, x ∈ l2 → j < x).
Proof.
  revert i0 l1. induction b as [|x r IH]; intros i0 l1; simpl.
  - by destruct l1.
  - destruct (Py.eqc x c); [|apply IH].
    destruct l1 as [|y l1]; simpl; intros [= <- E].
    + subst l2. split; [by intros ? ?%elem_of_nil|].
      intros y [Hy _]%positions_elem. lia.
    + apply IH in E as E'. destruct E' as [H1 H2]. split; [|done].
      intros y [->|Hy]%elem_of_cons; [|by apply H1].
      assert (j ∈ positions (S i0) c r) as [Hj _]%positions_elem.
      { rewrite E. set_solver. }
      lia.
Qed.

(** The inner loop keeps the first of the columns that hold the largest
    value, when that value exceeds the best size so far. *)
Lemma best_fold_first (j2len : gmap nat nat) (i : nat) (js : list nat)
    (best : Match) :
  let v j := S (prev j2len j) in
  let mk j := {| m_a := i + 1 - v j; m_b := j + 1 - v j; m_size := v j |} in
  let res := fold_left (λ bst j, if m_size bst <? v j then mk j else bst)
               js best in
  (res = best ∧ ∀ j, j ∈ js → v j ≤ m_size best) ∨
  (∃ l1 j l2, js = l1 ++ j :: l2 ∧ res = mk j ∧ m_size best < v j ∧
      (∀ j', j' ∈ l1 → v j' < v j) ∧ (∀ j', j' ∈ l2 → v j' ≤ v j)).
Proof.
  intros v mk. revert best. induction js as [|j0 js IH]; intros best; simpl.
  - left. split; [done|]. by intros ? ?%elem_of_nil.
  - set (best1 := if m_size best <? v j0 then mk j0 else best).
    assert (m_size best ≤ m_size best1 ∧ v j0 ≤ m_size best1) as [Hb1 Hb2].
    { unfold best1. destruct (m_size best <? v j0) eqn:E; simpl.
      - apply Nat.ltb_lt in E. lia.
      - apply Nat.ltb_ge in E. lia. }
    destruct (IH best1) as [[E H]|(l1 & j & l2 & -> & E & Hlt & H1 & H2)].
    + unfold best1 in *. destruct (m_size best <? v j0) eqn:Eb.
      * right. exists [], j0, js. apply Nat.ltb_lt in Eb.
        split; [done|]. split; [done|]. split; [done|].
        split; [by intros ? ?%elem_of_nil|]. exact H.
      * left. split; [done|]. apply Nat.ltb_ge in Eb.
        intros j [->|Hj]%elem_of_cons; [done|]. by apply H.
    + right. exists (j0 :: l1), j, l2.
      split; [done|]. split; [done|]. split; [lia|]. split; [|done].
      intros j' [->|Hj']%elem_of_cons; [lia|]. by apply H1.
Qed.

Lemma extend_left_size (a b : str) (i j k : nat) :
  k ≤ m_size (extend_left a b i j k).
Proof.
  revert j k. induction i as [|i IH]; intros j k; simpl; [done|].
  destruct j as [|j]; [done|].
  destruct (same_at a b i j); [|done].
  specialize (IH j (S k)). lia.
Qed.

Lemma extend_left_same (a b : str) (i j k : nat) :
  m_size (extend_left a b i j k) ≤ k →
  extend_left a b i j k = {| m_a := i; m_b := j; m_size := k |}.
Proof.
  destruct i as [|i]; simpl; [done|]. destruct j as [|j]; [done|].
  destruct (same_at a b i j); [|done].
  pose proof (extend_left_size a b i j (S k)). lia.
Qed.

Section Rows.
Variables (a b : str) (b2j : gmap ascii (list nat)).

Hypothesis b2j_entry : ∀ c l, b2j !! c = Some l → l = positions 0 c b.

Lemma cand_sorted (i j : nat) (l1 l2 : list nat) :
  cand b2j a i = l1 ++ j :: l2 →
  (∀ x, x ∈ l1 → x < j) ∧ (∀ x, x ∈ l2 → j < x).
Proof.
  unfold cand. destruct (a !! i) as [c|]; [|by destruct l1].
  destruct (b2j !! c) as [l|] eqn:E; simpl; [|by destruct l1].
  rewrite (b2j_entry c l E). apply positions_sorted.
Qed.

Lemma rows_first (r : str) (i : nat) (j2len : gmap nat nat) (best : Match) :
  drop i a = r →
  (∀ j, default 0 (j2len !! j)
        = match i with O => 0 | S i' => cell b2j a i' j end) →
  (∀ i' j, i' < i → cell b2j a i' j ≤ m_size best) →
  first_cell b2j a i best →
  first_cell b2j a (length a) (rows b2j i r j2len best).
Proof.
  revert i j2len best.
  induction r as [|ai r IH]; intros i j2len best Hr HJ HM HF; simpl.
  - destruct HF as [HF|(i0 & j0 & H0 & H1 & H2 & H3 & H4 & H5)]; [by left|].
    right. exists i0, j0. apply drop_nil_inv in Hr.
    assert (i0 < length a) as Hi0.
    { destruct (decide (i0 < length a)); [done|].
      rewrite cell_unfold in H2. unfold cand in H2.
      rewrite (lookup_ge_None_2 a i0), bool_decide_false in H2 by
        (lia || apply not_elem_of_nil). lia. }
    repeat (split; [done|]). intros i' j' _ Hc. apply H5; [|done].
    destruct (decide (i' < i)); [done|].
    rewrite cell_unfold in Hc. unfold cand in Hc.
    rewrite (lookup_ge_None_2 a i'), bool_decide_false in Hc by
      (lia || apply not_elem_of_nil). lia.
  - assert (a !! i = Some ai) as Hai.
    { rewrite <- (Nat.add_0_r i), <- lookup_drop, Hr. done. }
    assert (i < length a) as Hi by by eapply lookup_lt_Some.
    assert (drop (S i) a = r) as Hr'.
    { replace (S i) with (i + 1) by lia. rewrite <- drop_drop, Hr. done. }
    assert (cand b2j a i = default [] (b2j !! ai)) as Hcand.
    { unfold cand. by rewrite Hai. }
    rewrite <- Hcand.
    pose proof (inner_fold j2len i (cand b2j a i) ∅ best) as Hin.
    pose proof (inner_fold_best j2len i (cand b2j a i) ∅ best) as Hbest.
    cbv zeta in Hin.
    destruct (fold_left (inner j2len i) (cand b2j a i) (∅, best))
      as [new best'] eqn:E.
    simpl in Hin, Hbest. destruct Hin as (H1 & H2 & H3 & _).
    assert (∀ j, j ∈ cand b2j a i → S (prev j2len j) = cell b2j a i j) as HK.
    { intros j Hj. rewrite cell_unfold, bool_decide_true by done. f_equal.
      unfold prev. destruct j as [|j']; [by destruct i|].
      rewrite HJ. by destruct i. }
    assert (∀ j, j ∉ cand b2j a i → cell b2j a i j = 0) as HZ.
    { intros j Hj. by rewrite cell_unfold, bool_decide_false. }
    apply IH; [done|..].
    + intros j. rewrite H1, lookup_empty.
      destruct (decide (j ∈ cand b2j a i)) as [Hj|Hj].
      * rewrite bool_decide_true by done. simpl. by apply HK.
      * rewrite bool_decide_false, HZ by done. done.
    + intros i' j Hi'. destruct (decide (i' = i)) as [->|Hne].
      * destruct (decide (j ∈ cand b2j a i)) as [Hj|Hj].
        -- rewrite <- (HK j Hj). by apply H3.
        -- rewrite HZ by done. lia.
      * etrans; [apply HM; lia|done].
    + pose proof (best_fold_first j2len i (cand b2j a i) best) as Hfirst.
      cbv beta zeta in Hfirst. rewrite <- Hbest in Hfirst.
      destruct Hfirst as [[-> Hrow]|(l1 & j & l2 & El & -> & Hlt & Hl1 & Hl2)].
      * destruct HF as [HF|(i0 & j0 & H0 & G1 & G2 & G3 & G4 & G5)];
          [by left|].
        right. exists i0, j0. split; [lia|]. repeat (split; [done|]).
        intros i' j' Hi' Hc. destruct (decide (i' = i)) as [->|Hne].
        -- left. done.
        -- apply G5; [lia|done].
      * assert (j ∈ cand b2j a i) as Hj by (rewrite El; set_solver).
        destruct (cand_sorted i j l1 l2 El) as [Hs1 Hs2].
        right. exists i, j. simpl. split; [lia|]. split; [lia|].
        split; [by rewrite HK|]. split; [lia|]. split; [lia|].
        intros i' j' Hi' Hc. destruct (decide (i' = i)) as [->|Hne].
        -- right. split; [done|].
           destruct (decide (j' ∈ cand b2j a i)) as [Hj'|Hj'].
           ++ rewrite <- (HK j' Hj') in Hc. rewrite El in Hj'.
              apply elem_of_app in Hj' as [Hj'|[->|Hj']%elem_of_cons].
              ** apply Hl1 in Hj'. lia.
              ** done.
              ** apply Hs2 in Hj'. lia.
           ++ rewrite HZ in Hc by done. lia.
        -- assert (cell b2j a i' j' ≤ m_size best) by (apply HM; lia). lia.
Qed.

End Rows.

(** Below 200 characters the block reported is the unextended best of
    the table. *)
Lemma find_longest_match_first_cell (a b : str) :
  length b < 200 →
  let m := find_longest_match a b in
  first_cell (chain_b b) a (length a) m ∧
  ∀ i j, cell (chain_b b) a i j ≤ m_size m.
Proof.
  intros Hlen m.
  set (best := rows (chain_b b) 0 a ∅ {| m_a := 0; m_b := 0; m_size := 0 |}).
  assert (common_block a b (m_a best) (m_b best) (m_size best) ∧
          ∀ i' j', cell (chain_b b) a i' j' ≤ m_size best) as [HV HM].
  { eapply (rows_spec a b (chain_b b)); try done.
    - apply chain_b_sound.
    - apply common_block_nil.
    - intros; lia. }
  assert (first_cell (chain_b b) a (length a) best) as HF.
  { apply (rows_first a b (chain_b b)); try done.
    - apply chain_b_entry.
    - intros; lia.
    - by left. }
  set (el := extend_left a b (m_a best) (m_b best) (m_size best)).
  set (er := extend_right (length a) a b (m_a el) (m_b el) (m_size el)).
  assert (m = {| m_a := m_a el; m_b := m_b el; m_size := er |}) as Em
    by reflexivity.
  pose proof (extend_left_spec a b _ _ _ HV) as [HV' Hle1].
  cbv zeta in HV', Hle1. fold el in HV', Hle1.
  pose proof (extend_right_spec a b (length a) _ _ _ HV') as [HV'' Hle2].
  fold er in HV'', Hle2.
  assert (er ≤ m_size best) as Hle.
  { destruct er as [|k] eqn:Ek; [lia|].
    pose proof (cell_complete a b (chain_b b)
                  (λ c j, chain_b_complete b c j Hlen) k _ _ HV'') as Hk.
    specialize (HM (m_a el + k) (m_b el + k)). lia. }
  assert (el = {| m_a := m_a best; m_b := m_b best; m_size := m_size best |})
    as Eel.
  { apply extend_left_same. fold el. lia. }
  rewrite Em, Eel. simpl. replace er with (m_size best) by lia.
  clearbody best. by destruct best.
Qed.

Lemma first_of_the_longest (a b : str) (i j : nat) :
  length b < 200 →
  common_block a b i j (m_size (find_longest_match a b)) →
  m_a (find_longest_match a b) ≤ i ∧
  (i = m_a (find_longest_match a b) → m_b (find_longest_match a b) ≤ j).
Proof.
  intros Hlen Hb. set (m := find_longest_match a b) in *.
  destruct (find_longest_match_first_cell a b Hlen) as [HF HM].
  fold m in HF, HM.
  destruct HF as [(H0 & Ha & Hb0)|(i0 & j0 & H0 & H1 & H2 & H3 & H4 & H5)].
  - rewrite Ha, Hb0. lia.
  - destruct (m_size m) as [|k] eqn:Ek; [lia|].
    pose proof (cell_complete a b (chain_b b)
                  (λ c j, chain_b_complete b c j Hlen) k i j Hb) as Hk.
    pose proof (HM (i + k) (j + k)) as Hk'.
    destruct (cell_block a b (chain_b b) (chain_b_sound b) i0 j0)
      as (G1 & G2 & _); [lia|].
    assert (i + k < length a) as Hia by (destruct Hb; lia).
    destruct (H5 (i + k) (j + k)) as [Hlt|[-> Hle]]; [done|lia|lia|lia].
Qed.

(** When the final text has fewer than 200 characters, the block that
    [find_longest_match] reports is a common block, no common block is
    longer, and among the longest it is the one that starts first in the
    draft and, among those, the one that starts first in the final text. *)
Theorem find_longest_match_is_the_first (a b : str) :
  length b < 200 →
  let m := find_longest_match a b in
  common_block a b (m_a m) (m_b m) (m_size m) ∧
  ∀ i j k, common_block a b i j k →
    k ≤ m_size m ∧
    (k = m_size m → m_a m ≤ i ∧ (i = m_a m → m_b m ≤ j)).
Proof.
  intros Hlen m. split; [apply find_longest_match_common|].
  intros i j k Hb. split.
  - by apply (find_longest_match_longest a b i j).
  - intros ->. by apply first_of_the_longest.
Qed.

Lemma find_longest_match_is_the_first_witness :
  let m := find_longest_match (txt "ab") (txt "xab ab") in
  common_block (txt "ab") (txt "xab ab") (m_a m) (m_b m) (m_size m) ∧
  2 ≤ m_size m ∧
  (2 = m_size m → m_a m ≤ 0 ∧ (0 = m_a m → m_b m ≤ 4)).
Proof.
  assert (length (txt "xab ab") < 200) as Hlen by (vm_compute; lia).
  assert (common_block (txt "ab") (txt "xab ab") 0 4 2) as Hb.
  { by vm_compute; repeat split; try lia; intros [|[|t]] Ht; try lia. }
  pose proof (find_longest_match_is_the_first (txt "ab") (txt "xab ab") Hlen)
    as [H1 H2].
  split; [exact H1|]. exact (H2 0 4 2 Hb).
Defined.

(** ** A final text that starts with its draft *)




End FirstBlock.

(** * What the queue counts as unfinished *)

Section Accounting.
Import Audio.
















End Accounting.

(** * The pending set and the files in flight *)

Section Exact.
Import Audio.

Lemma exact_of (m' : AudioManager) tr ws q acc qs cur :
  order_fields m' tr ws q acc → names_fields m' qs cur →
  NoDup (option_list cur ++ ((λ x, x.1.2) <$> ws) ++ omap file_of_item q) →
  (∀ f, f ∈ qs ↔
        f ∈ option_list cur ++ ((λ x, x.1.2) <$> ws) ++ omap file_of_item q) →
  exact m'.
Proof. intros [<- <- <- <-] [<- <-]. done. Qed.

Lemma exact_same (m m' : AudioManager) :
  exact m → lock_waiters m' = lock_waiters m →
  audio_queue m' = audio_queue m →
  currently_queued_files (state m') = currently_queued_files (state m) →
  current_audio_file (state m') = current_audio_file (state m) →
  exact m'.
Proof.
  unfold exact, in_flight, pending, waiting_files, queued_files.
  by intros H -> -> -> ->.
Qed.

Lemma exact_loop_again (w : nat) (m m0 : AudioManager) :
  exact m0 → lock_waiters m = lock_waiters m0 →
  omap file_of_item (audio_queue m) = omap file_of_item (audio_queue m0) →
  currently_queued_files (state m) = currently_queued_files (state m0) →
  current_audio_file (state m) = current_audio_file (state m0) →
  exact (loop_again w m).
Proof.
  intros H E1 E2 E3 E4.
  eapply exact_of; [apply loop_again_order|apply loop_again_names|..];
    rewrite ?E1, ?E2, ?E3, ?E4; apply H.
Qed.

(** A task that takes the lock: its file, first of those to play, is now
    the one that plays. *)
Lemma exact_begin (w : nat) (f : str) (d : bool) (now : nat)
    (mp3 : option nat) (m m0 : AudioManager) :
  exact m0 → current_audio_file (state m0) = None →
  f :: ((λ x, x.1.2) <$> lock_waiters m) ++ omap file_of_item (audio_queue m)
  = pending m0 →
  currently_queued_files (state m) = currently_queued_files (state m0) →
  exact (play_audio_begin w f d now mp3 m).
Proof.
  intros [H1 H2] Hc Hp Hq. unfold in_flight in *. rewrite Hc in *.
  simpl in *.
  eapply exact_of; [apply play_audio_begin_order|apply play_audio_begin_names|..];
    simpl; rewrite Hp, ?Hq; done.
Qed.

(** The task that played [f] leaves [play_audio]. *)
Lemma exact_finally (w : nat) (f : str) (d : bool) (m m0 : AudioManager) :
  exact m0 → current_audio_file (state m0) = Some f →
  lock_waiters m = lock_waiters m0 → audio_queue m = audio_queue m0 →
  currently_queued_files (state m) = currently_queued_files (state m0) →
  exact (play_audio_finally w f d m).
Proof.
  intros [H1 H2] Hc E1 E2 E3. unfold in_flight in *. rewrite Hc in *.
  simpl in *. apply NoDup_cons in H1 as [Hf Hnd].
  eapply exact_of;
    [apply play_audio_finally_order|apply play_audio_finally_names|..];
    simpl; rewrite E1, E2, ?E3; [done|].
  intros x. rewrite elem_of_difference, H2, elem_of_cons, elem_of_singleton.
  unfold pending, waiting_files, queued_files in *.
  split; [naive_solver|]. intros Hx. split; [by right|]. by intros ->.
Qed.

Lemma current_of_playing (m : AudioManager) (w : nat) ph f d :
  Inv m → loops m !! w = Some (Playing ph f d) →
  current_audio_file (state m) = Some f.
Proof. intros HI H. by destruct (inv_playing m HI _ _ _ _ H) as (_&_&_&?&_). Qed.

Lemma current_when_free (m : AudioManager) :
  Inv m → lock_held m = false → current_audio_file (state m) = None.
Proof. intros HI H. by destruct (inv_idle m HI H) as ((_&_&_&?&_)&_). Qed.

Lemma exact_queue_audio_put (o : option str) (d : bool) (m m0 : AudioManager) :
  exact m0 → lock_waiters m = lock_waiters m0 →
  audio_queue m = audio_queue m0 →
  currently_queued_files (state m) = currently_queued_files (state m0) →
  current_audio_file (state m) = current_audio_file (state m0) →
  exact (queue_audio_put o d m).
Proof.
  intros H E1 E2 E3 E4.
  assert (exact m) as [H1 H2] by by apply (exact_same m0).
  clear H E1 E2 E3 E4 m0.
  unfold queue_audio_put. destruct (already_queued o m) eqn:Ea.
  { by apply (exact_same m). }
  cbv zeta.
  assert (∀ m1, exact m1 →
            exact (if negb (is_processing_queue m1) then create_task m1 else m1))
    as Hc.
  { intros m1 Hm1. destruct (negb (is_processing_queue m1)); [|done].
    by apply (exact_same m1). }
  unfold add_queued.
  destruct o as [f|]; [destruct (Py.truthy f) eqn:Ef|]; apply Hc.
  - unfold already_queued in Ea. rewrite Ef in Ea. simpl in Ea.
    apply orb_false_iff in Ea as [Ea1 Ea2].
    apply bool_decide_eq_false in Ea1, Ea2.
    assert (f ∉ in_flight m) as Hf by by rewrite <- H2.
    unfold exact, in_flight, pending, waiting_files, queued_files in *.
    simpl. rewrite omap_app. simpl. unfold file_of_item at 2 4. simpl.
    rewrite Ef. simpl. rewrite !app_assoc. split.
    + apply NoDup_app. split; [by rewrite <- app_assoc|]. split.
      * intros x Hx ->%list_elem_of_singleton. apply Hf.
        by rewrite <- app_assoc in Hx.
      * apply NoDup_singleton.
    + intros x. rewrite elem_of_union, elem_of_singleton, H2.
      rewrite (elem_of_app _ [f]), list_elem_of_singleton, <- app_assoc.
      naive_solver.
  - unfold exact, in_flight, pending, waiting_files, queued_files in *.
    simpl. rewrite omap_app. simpl. unfold file_of_item at 2 4. simpl.
    rewrite Ef. simpl. by rewrite app_nil_r.
  - unfold exact, in_flight, pending, waiting_files, queued_files in *.
    simpl. rewrite omap_app. simpl. by rewrite app_nil_r.
Qed.

Lemma exact_step (m : AudioManager) (e : event) :
  Inv m → e ≠ ClearQueue → exact m → exact (step m e).
Proof.
  intros HI Hne He.
  destruct e as [o g d ts u tts|w|w now mp3|w|w now mp3|w ok|w rc|w| | |];
    simpl.
  - unfold queue_audio.
    destruct (given g && negb (given o));
      [|by apply (exact_queue_audio_put _ _ _ m)].
    unfold _save_tts_to_file. destruct tts; cbv zeta.
    + by apply (exact_queue_audio_put _ _ _ m).
    + by apply (exact_same m).
  - unfold process_audio_queue_start.
    destruct (loops m !! w) as [[| | | |]|] eqn:Hw;
      first [done | by apply (exact_loop_again w _ m)].
  - unfold process_audio_queue_get.
    destruct (loops m !! w) as [[| | | |]|] eqn:Hw; try done.
    destruct (audio_queue m) as [|[o d] rest] eqn:Hq; [done|].
    destruct o as [f|]; [destruct (Py.truthy f) eqn:Ef|].
    + unfold play_audio. simpl.
      destruct (negb (lock_held m) && bool_decide (lock_waiters m = [])) eqn:Hc.
      * apply andb_true_iff in Hc as [Hc1 Hc2]. apply negb_true_iff in Hc1.
        apply bool_decide_eq_true in Hc2.
        apply (exact_begin _ _ _ _ _ _ m); [done|by apply current_when_free|..].
        -- simpl. unfold pending, waiting_files, queued_files.
           rewrite Hc2, Hq. simpl. unfold file_of_item at 2. simpl.
           by rewrite Ef.
        -- done.
      * destruct He as [H1 H2].
        unfold exact, in_flight, pending, waiting_files, queued_files in *.
        simpl. rewrite Hq in *. simpl in *.
        unfold file_of_item at 1 3 in H1. unfold file_of_item at 1 2 in H2.
        simpl in *. rewrite Ef in *.
        rewrite fmap_app. simpl. rewrite <- !app_assoc. simpl. done.
    + apply (exact_loop_again w _ m); try done. simpl. rewrite Hq. simpl.
      unfold file_of_item at 2. simpl. by rewrite Ef.
    + apply (exact_loop_again w _ m); try done. simpl. by rewrite Hq.
  - unfold process_audio_queue_timeout.
    destruct (loops m !! w) as [[| | | |]|] eqn:Hw; try done.
    destruct (audio_queue m); [|done].
    by apply (exact_loop_again w _ m).
  - unfold lock_resume.
    destruct (loops m !! w) as [[| | | |]|] eqn:Hw; try done.
    destruct (lock_waiters m) as [|[[w' f] d] rest] eqn:Hws; [done|].
    destruct (lock_woken m && bool_decide (w' = w)) eqn:Hc; [|done].
    apply andb_true_iff in Hc as [Hc1 Hc2].
    pose proof (inv_woken m HI Hc1) as Hfree.
    apply (exact_begin _ _ _ _ _ _ m); [done|by apply current_when_free|..].
    + simpl. unfold pending, waiting_files, queued_files. by rewrite Hws.
    + done.
  - unfold spawn_done.
    destruct (loops m !! w) as [[| | |[] f d|]|] eqn:Hw; try done.
    destruct ok.
    + by apply (exact_same m).
    + apply (exact_finally _ _ _ _ m); try done.
      by eapply current_of_playing.
  - unfold process_exit.
    destruct (loops m !! w) as [[| | |[] f d|]|] eqn:Hw;
      first [done | by apply (exact_same m)].
  - unfold settle_done.
    destruct (loops m !! w) as [[| | |[] f d|]|] eqn:Hw; try done.
    apply (exact_finally _ _ _ _ m); try done.
    by eapply current_of_playing.
  - unfold stop_current_audio.
    destruct (current_process m) as [[]|]; try done; by apply (exact_same m).
  - done.
  - by apply (exact_same m).
Qed.

Lemma exact_run (es : list event) (m : AudioManager) :
  Inv m → ClearQueue ∉ es → exact m → exact (run m es).
Proof.
  revert m. induction es as [|e es IH]; intros m HI Hn He; [done|].
  apply IH; [by apply Inv_step|set_solver|].
  apply exact_step; [done|set_solver|done].
Qed.

Lemma exact_init (disk : gset (list ascii)) : exact (init disk).
Proof.
  split; [apply NoDup_nil_2|]. intros f. simpl.
  unfold in_flight, pending, waiting_files, queued_files. simpl.
  set_solver.
Qed.

(** In a run that never calls [clear_queue], deduplication is exact: the
    files that are playing or waiting to play are pairwise distinct, and
    an enqueue is refused as a duplicate exactly when its file is one of
    them. *)
Theorem deduplication_is_exact (disk : gset (list ascii)) (es : list event) :
  ClearQueue ∉ es →
  let m := run (init disk) es in
  NoDup (in_flight m) ∧
  ∀ f, already_queued (Some f) m = true ↔
       Py.truthy f = true ∧ f ∈ in_flight m.
Proof.
  intros Hn m.
  destruct (exact_run es (init disk)) as [H1 H2];
    [apply Inv_init|done|apply exact_init|].
  fold m in H1, H2. clearbody m. split; [done|]. intros f.
  unfold already_queued.
  rewrite andb_true_iff, orb_true_iff, !bool_decide_eq_true, H2.
  split; intros [Ht H]; (split; [done|]); [|by left].
  unfold in_flight in *. destruct H as [H| <-]; [done|]. simpl. left.
Qed.

Lemma deduplication_is_exact_witness :
  let m := run (init ∅)
             ([enq "a.mp3" false; enq "b.mp3" false; LoopStart 0]
              ++ plays 0 0%Z ++ [LoopGet 0 0 None]) in
  NoDup (in_flight m) ∧
  ∀ f, already_queued (Some f) m = true ↔
       Py.truthy f = true ∧ f ∈ in_flight m.
Proof.
  apply deduplication_is_exact. vm_compute.
  intros H. repeat (apply elem_of_cons in H as [H|H]; [done|]).
  by apply elem_of_nil in H.
Defined.

End Exact.

(** * Waiting for the audio to complete *)

Section CompletionWait.
Import Audio.

Lemma queue_audio_put_accepts (f : str) (d : bool) (m m0 : AudioManager) :
  Py.truthy f = true → already_queued (Some f) m0 = false →
  state m = state m0 → audio_queue m = audio_queue m0 →
  unfinished_tasks m = unfinished_tasks m0 →
  lock_waiters m = lock_waiters m0 → audio_complete m = audio_complete m0 →
  let m' := queue_audio_put (Some f) d m in
  is_playing (state m') = is_playing (state m0) ∧
  audio_complete m' = audio_complete m0 ∧
  unfinished_tasks m' = S (unfinished_tasks m0) ∧
  audio_queue m' = audio_queue m0 ++ [(Some f, d)] ∧
  lock_waiters m' = lock_waiters m0.
Proof.
  intros Hf Ha E1 E2 E3 E4 E5. cbv zeta. unfold queue_audio_put.
  assert (already_queued (Some f) m = false) as ->.
  { unfold already_queued in *. by rewrite E1. }
  unfold add_queued. rewrite Hf. simpl.
  destruct (is_processing_queue m); simpl; by rewrite E1, E2, E3, E4, E5.
Qed.

(** [wait_for_audio_completion] looks at the playback state only.  On a
    manager that plays nothing, it returns at once after a file has been
    accepted, while the file is still to play and [wait_for_queue_empty]
    would wait. *)
Theorem completion_wait_ignores_the_queue (m : AudioManager) (e : event)
    (f : str) :
  is_playing (state m) = false →
  identity e = Some f →
  already_queued (Some f) m = false →
  let m' := step m e in
  wait_for_audio_completion [] m' = Returned ∧
  wait_for_queue_empty [] m' = Suspended ∧
  f ∈ pending m'.
Proof.
  intros Hp Hid Ha m'.
  assert (Py.truthy f = true ∧
          ∃ d m1, m' = queue_audio_put (Some f) d m1 ∧
            state m1 = state m ∧ audio_queue m1 = audio_queue m ∧
            unfinished_tasks m1 = unfinished_tasks m ∧
            lock_waiters m1 = lock_waiters m ∧
            audio_complete m1 = audio_complete m) as (Hf & d & m1 & E & Hs).
  { destruct e as [o g d ts u tts|w|w now mp3|w|w now mp3|w ok|w rc|w| | |];
      try done.
    unfold m'. simpl in *. unfold queue_audio.
    destruct (given g && negb (given o)).
    - destruct tts as [n|]; [|done]. injection Hid as <-.
      split; [apply unique_name_truthy|].
      eexists d, _. split; [reflexivity|done].
    - unfold file_of_item in Hid. simpl in Hid.
      destruct o as [f'|]; [|done].
      destruct (Py.truthy f') eqn:Ef; [|done]. injection Hid as ->.
      split; [done|]. by exists d, m. }
  destruct Hs as (E1 & E2 & E3 & E4 & E5).
  destruct (queue_audio_put_accepts f d m1 m Hf Ha E1 E2 E3 E4 E5)
    as (G1 & G2 & G3 & G4 & G5).
  rewrite <- E in G1, G2, G3, G4, G5. clearbody m'.
  unfold wait_for_audio_completion, wait_for_queue_empty.
  rewrite G1, G3, Hp. simpl. split; [done|]. split; [done|].
  unfold pending, queued_files. rewrite G4, omap_app. simpl.
  unfold file_of_item at 2. simpl. rewrite Hf.
  rewrite !elem_of_app. right. right. left.
Qed.

Lemma completion_wait_ignores_the_queue_witness :
  let m' := step (init ∅) (speak "Hello" 17 "0f") in
  wait_for_audio_completion [] m' = Returned ∧
  wait_for_queue_empty [] m' = Suspended ∧
  _generate_unique_audio_filename 17 (txt "0f") ∈ pending m'.
Proof.
  apply (completion_wait_ignores_the_queue (init ∅) (speak "Hello" 17 "0f"));
    by vm_compute.
Defined.

End CompletionWait.

(** * What is deleted from the audio cache *)

Section Deletion.
Import Audio.

(** What a step does to the loops, the playback trace and the files. *)
Lemma step_effect_of (m m' : AudioManager) (w : nat) (old new : loop_state) :
  loops m !! w = Some old → loops m' = <[w := new]> (loops m) →
  playback_trace m `prefix_of` playback_trace m' →
  (∀ ph f d, new = Playing ph f d →
     (∃ ph', old = Playing ph' f d) ∨ f ∈ playback_trace m') →
  (∀ f, f ∈ files m → f ∈ files m' ∨ ∃ ph d, old = Playing ph f d) →
  step_effect m m'.
Proof.
  intros Hw Hl Ht Hn Hf. split; [done|]. split.
  - intros w' ph f d. rewrite Hl, (lookup_set _ _ _ _ _ Hw). case_decide.
    + subst w'. intros [= E]. destruct (Hn _ _ _ E) as [[ph' ->]|H];
        [left; by exists ph'|by right].
    + intros H'. left. by exists ph.
  - intros f Hin. destruct (Hf f Hin) as [H|(ph & d & ->)]; [by left|].
    right. by exists w, ph, d.
Qed.

Lemma step_effect_same (m m' : AudioManager) (l : list loop_state) :
  loops m' = loops m ++ l → (∀ x, x ∈ l → in_playback x = false) →
  playback_trace m' = playback_trace m → files m ⊆ files m' →
  step_effect m m'.
Proof.
  intros Hl Hx Ht Hf. split; [by rewrite Ht|]. split.
  - intros w ph f d. rewrite Hl. intros [H|[_ H]]%lookup_app_Some.
    + left. by exists ph.
    + apply list_elem_of_lookup_2 in H. by apply Hx in H.
  - intros f Hin. left. by apply Hf.
Qed.

Lemma step_effect_queue_audio_put (o : option str) (d : bool)
    (m m0 : AudioManager) :
  loops m = loops m0 → playback_trace m = playback_trace m0 →
  files m0 ⊆ files m →
  step_effect m0 (queue_audio_put o d m).
Proof.
  intros E1 E2 E3. unfold queue_audio_put.
  destruct (already_queued o m).
  { apply (step_effect_same _ _ []); simpl;
      [by rewrite app_nil_r|by intros ? ?%elem_of_nil|done..]. }
  cbv zeta.
  assert (loops (add_queued o m) = loops m ∧
          playback_trace (add_queued o m) = playback_trace m ∧
          files (add_queued o m) = files m ∧
          is_processing_queue (add_queued o m) = is_processing_queue m)
    as (G1 & G2 & G3 & G4).
  { unfold add_queued. destruct o as [f|]; [|done]. by destruct (Py.truthy f). }
  simpl. rewrite G4. destruct (is_processing_queue m); simpl.
  - apply (step_effect_same _ _ []); simpl;
      rewrite ?G1, ?G2, ?G3, ?app_nil_r;
      [done|by intros ? ?%elem_of_nil|done..].
  - apply (step_effect_same _ _ [Created]); simpl;
      rewrite ?G1, ?G2, ?G3; [by rewrite E1| |done..].
    by intros ? ->%list_elem_of_singleton.
Qed.

Lemma step_effect_loop_again (w : nat) (old : loop_state)
    (m m0 : AudioManager) :
  loops m0 !! w = Some old → loops m = loops m0 →
  playback_trace m = playback_trace m0 →
  (∀ f, f ∈ files m0 → f ∈ files m ∨ ∃ ph d, old = Playing ph f d) →
  step_effect m0 (loop_again w m).
Proof.
  intros Hw E1 E2 Hf. unfold loop_again.
  destruct (is_processing_queue m).
  - apply (step_effect_of _ _ w old AtGet); simpl;
      [done|by rewrite E1|by rewrite E2|done..].
  - apply (step_effect_of _ _ w old Finished); simpl;
      [done|by rewrite E1|by rewrite E2|done..].
Qed.

Lemma step_effect_begin (w : nat) (old : loop_state) (f : str) (d : bool)
    (now : nat) (mp3 : option nat) (m m0 : AudioManager) :
  loops m0 !! w = Some old → loops m = loops m0 →
  playback_trace m = playback_trace m0 → files m = files m0 →
  step_effect m0 (play_audio_begin w f d now mp3 m).
Proof.
  intros Hw E1 E2 E3.
  apply (step_effect_of _ _ w old (Playing Spawning f d)); [done|..].
  - unfold play_audio_begin. destruct mp3; simpl; by rewrite E1.
  - unfold play_audio_begin. destruct mp3; simpl; rewrite E2;
      by apply prefix_app_r.
  - intros ph f' d' [= <- <- <-]. right.
    unfold play_audio_begin. destruct mp3; simpl; set_solver.
  - intros f' Hf'. left.
    unfold play_audio_begin. destruct mp3; simpl; by rewrite E3.
Qed.

Lemma step_effect_finally (w : nat) (ph : phase) (f : str) (d : bool)
    (m m0 : AudioManager) :
  loops m0 !! w = Some (Playing ph f d) → loops m = loops m0 →
  playback_trace m = playback_trace m0 → files m = files m0 →
  step_effect m0 (play_audio_finally w f d m).
Proof.
  intros Hw E1 E2 E3. unfold play_audio_finally.
  destruct (d && bool_decide (f ∈ files _)) eqn:Ed; cbv zeta;
    (apply (step_effect_loop_again w (Playing ph f d)); simpl;
     [done|done|done|]); rewrite E3; intros f' Hf'.
  - destruct (decide (f' = f)) as [->|Hne].
    + right. apply andb_true_iff in Ed as [-> _]. by exists ph, true.
    + left. set_solver.
  - by left.
Qed.

Lemma step_effect_step (m : AudioManager) (e : event) :
  step_effect m (step m e).
Proof.
  assert (step_effect m m) as Hrefl.
  { apply (step_effect_same _ _ []);
      [by rewrite app_nil_r|by intros ? ?%elem_of_nil|done..]. }
  assert (∀ msg, step_effect m (print msg m)) as Hprint.
  { intros msg. apply (step_effect_same _ _ []); simpl;
      [by rewrite app_nil_r|by intros ? ?%elem_of_nil|done..]. }
  destruct e as [o g d ts u tts|w|w now mp3|w|w now mp3|w ok|w rc|w| | |];
    simpl.
  - unfold queue_audio.
    destruct (given g && negb (given o));
      [|by apply step_effect_queue_audio_put].
    unfold _save_tts_to_file. destruct tts; cbv zeta.
    + apply step_effect_queue_audio_put; simpl; [done..|set_solver].
    + apply (step_effect_same _ _ []); simpl;
        [by rewrite app_nil_r|by intros ? ?%elem_of_nil|done..].
  - unfold process_audio_queue_start.
    destruct (loops m !! w) as [[| | | |]|] eqn:Hw; try exact Hrefl.
    apply (step_effect_loop_again w Created); simpl; try done. by left.
  - unfold process_audio_queue_get.
    destruct (loops m !! w) as [[| | | |]|] eqn:Hw; try exact Hrefl.
    destruct (audio_queue m) as [|[o d] rest] eqn:Hq; [exact Hrefl|].
    assert (step_effect m (loop_again w (task_done (set_audio_queue rest m))))
      as Hagain.
    { apply (step_effect_loop_again w AtGet); simpl; try done. by left. }
    destruct o as [f|]; [|done]. destruct (Py.truthy f); [|done].
    unfold play_audio. simpl.
    destruct (negb (lock_held m) && bool_decide (lock_waiters m = [])).
    + by apply (step_effect_begin w AtGet).
    + apply (step_effect_of _ _ w AtGet Waiting); simpl; try done. by left.
  - unfold process_audio_queue_timeout.
    destruct (loops m !! w) as [[| | | |]|] eqn:Hw; try exact Hrefl.
    destruct (audio_queue m); [|exact Hrefl].
    apply (step_effect_loop_again w AtGet); simpl; try done. by left.
  - unfold lock_resume.
    destruct (loops m !! w) as [[| | | |]|] eqn:Hw; try exact Hrefl.
    destruct (lock_waiters m) as [|[[w' f] d] rest]; [exact Hrefl|].
    destruct (lock_woken m && bool_decide (w' = w)); [|exact Hrefl].
    by apply (step_effect_begin w Waiting).
  - unfold spawn_done.
    destruct (loops m !! w) as [[| | |[] f d|]|] eqn:Hw; try exact Hrefl.
    destruct ok.
    + apply (step_effect_of _ _ w (Playing Spawning f d) (Playing Running f d));
        simpl; try done.
      * intros ph f' d' [= <- <- <-]. left. by exists Spawning.
      * by left.
    + by apply (step_effect_finally w Spawning).
  - unfold process_exit.
    destruct (loops m !! w) as [[| | |[] f d|]|] eqn:Hw; try exact Hrefl.
    apply (step_effect_of _ _ w (Playing Running f d) (Playing Settling f d));
      simpl; try done.
    + intros ph f' d' [= <- <- <-]. left. by exists Running.
    + by left.
  - unfold settle_done.
    destruct (loops m !! w) as [[| | |[] f d|]|] eqn:Hw; try exact Hrefl.
    by apply (step_effect_finally w Settling).
  - unfold stop_current_audio.
    destruct (current_process m) as [[]|]; first [exact Hrefl | apply Hprint].
  - apply (step_effect_same _ _ []); simpl;
      [by rewrite app_nil_r|by intros ? ?%elem_of_nil|done..].
  - apply (step_effect_same _ _ []); simpl;
      [by rewrite app_nil_r|by intros ? ?%elem_of_nil|done..].
Qed.

Lemma traced_step (m : AudioManager) (e : event) :
  traced m → traced (step m e).
Proof.
  intros Ht. destruct (step_effect_step m e) as (Hp & Hl & _).
  intros w ph f d H. destruct (Hl _ _ _ _ H) as [(ph' & H')|H']; [|done].
  destruct Hp as [k ->]. apply elem_of_app. left. by eapply Ht.
Qed.

Lemma traced_run (es : list event) (m : AudioManager) :
  traced m → traced (run m es).
Proof.
  revert m. induction es as [|e es IH]; intros m Ht; [done|].
  apply IH, traced_step, Ht.
Qed.

Lemma kept_or_played_run (es : list event) (m : AudioManager) (f : str) :
  traced m → f ∈ files m ∨ f ∈ playback_trace m →
  f ∈ files (run m es) ∨ f ∈ playback_trace (run m es).
Proof.
  revert m. induction es as [|e es IH]; intros m Ht H; [done|].
  apply IH; [by apply traced_step|].
  destruct (step_effect_step m e) as ([k Hk] & _ & Hf).
  destruct H as [H|H].
  - destruct (Hf f H) as [H'|(w & ph & d & H')]; [by left|right].
    rewrite Hk. apply elem_of_app. left. by eapply Ht.
  - right. rewrite Hk. apply elem_of_app. by left.
Qed.

(** The manager removes from the audio cache only files that it has
    handed to the player: a file that is on disk at some point of a run
    and gone later is in the playback trace. *)
Theorem only_played_files_are_deleted (disk : gset (list ascii))
    (es1 es2 : list event) (f : str) :
  let m1 := run (init disk) es1 in
  let m2 := run m1 es2 in
  f ∈ files m1 → f ∈ files m2 ∨ f ∈ playback_trace m2.
Proof.
  intros m1 m2 Hf. apply kept_or_played_run; [|by left].
  apply traced_run. intros w ph f' d H. by destruct w.
Qed.

Lemma only_played_files_are_deleted_witness :
  let m1 := run (init ∅) [speak "Hello" 17 "0f"; speak "Bye" 18 "1a"] in
  let m2 := run m1 ([LoopStart 0] ++ plays 0 0%Z ++ [ClearQueue]) in
  let f := _generate_unique_audio_filename 17 (txt "0f") in
  f ∈ files m2 ∨ f ∈ playback_trace m2.
Proof.
  apply (only_played_files_are_deleted ∅
           [speak "Hello" 17 "0f"; speak "Bye" 18 "1a"]).
  vm_compute. set_solver.
Defined.

End Deletion.

(** * After [clear_queue] *)

Section Cleared.
Import Audio.








End Cleared.

(** * Synthesised files stay on disk until they have played *)

Section OnDisk.
Import Audio.

Lemma in_flight_of (m' : AudioManager) tr ws q acc qs cur :
  order_fields m' tr ws q acc → names_fields m' qs cur →
  in_flight m' = option_list cur ++ ((λ x, x.1.2) <$> ws) ++ omap file_of_item q.
Proof. intros [<- <- <- <-] [<- <-]. done. Qed.

Lemma flight_same (m m' : AudioManager) :
  lock_waiters m' = lock_waiters m → audio_queue m' = audio_queue m →
  current_audio_file (state m') = current_audio_file (state m) →
  files m ⊆ files m' →
  flight_effect m m'.
Proof.
  intros E1 E2 E3 Hf. left. exists []. rewrite app_nil_r.
  unfold in_flight, pending, waiting_files, queued_files.
  rewrite E1, E2, E3. split; [done|]. split; [done|].
  by intros ? ?%elem_of_nil.
Qed.

Lemma files_loop_again (w : nat) (m : AudioManager) :
  files (loop_again w m) = files m.
Proof. unfold loop_again. by destruct (is_processing_queue m). Qed.

Lemma files_begin (w : nat) (f : str) (d : bool) (now : nat)
    (mp3 : option nat) (m : AudioManager) :
  files (play_audio_begin w f d now mp3 m) = files m.
Proof. unfold play_audio_begin. by destruct mp3. Qed.

Lemma files_finally (w : nat) (f : str) (d : bool) (m : AudioManager) :
  files m ∖ {[f]} ⊆ files (play_audio_finally w f d m).
Proof.
  unfold play_audio_finally.
  destruct (d && bool_decide (f ∈ files _)); cbv zeta;
    rewrite files_loop_again; simpl; set_solver.
Qed.

Lemma flight_loop_again (w : nat) (m m0 : AudioManager) :
  lock_waiters m = lock_waiters m0 →
  omap file_of_item (audio_queue m) = omap file_of_item (audio_queue m0) →
  current_audio_file (state m) = current_audio_file (state m0) →
  files m = files m0 →
  flight_effect m0 (loop_again w m).
Proof.
  intros E1 E2 E3 E4. left. exists []. rewrite app_nil_r.
  rewrite (in_flight_of _ _ _ _ _ _ _ (loop_again_order w m)
             (loop_again_names w m)).
  rewrite files_loop_again, E1, E2, E3, E4. split; [done|]. split; [done|].
  by intros ? ?%elem_of_nil.
Qed.

Lemma flight_begin (w : nat) (f : str) (d : bool) (now : nat)
    (mp3 : option nat) (m m0 : AudioManager) :
  current_audio_file (state m0) = None →
  f :: ((λ x, x.1.2) <$> lock_waiters m) ++ omap file_of_item (audio_queue m)
  = pending m0 →
  files m = files m0 →
  flight_effect m0 (play_audio_begin w f d now mp3 m).
Proof.
  intros Hc Hp Hf. left. exists []. rewrite app_nil_r.
  rewrite (in_flight_of _ _ _ _ _ _ _ (play_audio_begin_order w f d now mp3 m)
             (play_audio_begin_names w f d now mp3 m)).
  rewrite files_begin, Hf. unfold in_flight. rewrite Hc, <- Hp.
  split; [done|]. split; [done|]. by intros ? ?%elem_of_nil.
Qed.

Lemma flight_finally (w : nat) (f : str) (d : bool) (m m0 : AudioManager) :
  current_audio_file (state m0) = Some f →
  lock_waiters m = lock_waiters m0 → audio_queue m = audio_queue m0 →
  files m = files m0 →
  flight_effect m0 (play_audio_finally w f d m).
Proof.
  intros Hc E1 E2 E3. right. exists f.
  rewrite (in_flight_of _ _ _ _ _ _ _ (play_audio_finally_order w f d m)
             (play_audio_finally_names w f d m)).
  unfold in_flight, pending, waiting_files, queued_files.
  rewrite Hc, E1, E2, <- E3. split; [done|]. apply files_finally.
Qed.

Lemma flight_queue_audio_put (o : option str) (d : bool)
    (m m0 : AudioManager) :
  lock_waiters m = lock_waiters m0 → audio_queue m = audio_queue m0 →
  current_audio_file (state m) = current_audio_file (state m0) →
  files m0 ⊆ files m →
  (∀ f, file_of_item (o, d) = Some f → f ∈ files m) →
  flight_effect m0 (queue_audio_put o d m).
Proof.
  intros E1 E2 E3 Hf Ho. left.
  exists (if already_queued o m then [] else option_list (file_of_item (o, d))).
  assert (files (queue_audio_put o d m) = files m) as ->.
  { unfold queue_audio_put. destruct (already_queued o m); [done|].
    unfold add_queued. cbv zeta.
    destruct o as [f|]; [destruct (Py.truthy f)|]; simpl;
      match goal with |- context [if ?c then _ else _] => destruct c end;
      done. }
  assert (current_audio_file (state (queue_audio_put o d m))
          = current_audio_file (state m)) as Hcur.
  { unfold queue_audio_put. destruct (already_queued o m); [done|].
    unfold add_queued. cbv zeta.
    destruct o as [f|]; [destruct (Py.truthy f)|]; simpl;
      match goal with |- context [if ?c then _ else _] => destruct c end;
      done. }
  pose proof (queue_audio_put_order o d m) as [_ Hw Hq _].
  unfold in_flight, pending, waiting_files, queued_files.
  rewrite Hcur, Hw, Hq, E1, E2, E3. split; [|split; [done|]].
  - destruct (already_queued o m); [by rewrite app_nil_r|].
    rewrite omap_app. simpl. rewrite <- !app_assoc.
    do 2 f_equal; by destruct (file_of_item (o, d)).
  - destruct (already_queued o m); [by intros ? ?%elem_of_nil|].
    intros x Hx. apply Ho. destruct (file_of_item (o, d)); simpl in Hx.
    + by apply list_elem_of_singleton in Hx as ->.
    + by apply elem_of_nil in Hx.
Qed.

Lemma not_given_no_file (o : option str) (d : bool) (f : str) :
  given o = false → file_of_item (o, d) ≠ Some f.
Proof.
  unfold given, file_of_item. simpl. destruct o as [x|]; [|done].
  by intros ->.
Qed.

Lemma flight_step (m : AudioManager) (e : event) :
  Inv m → e ≠ ClearQueue → generated e = true →
  flight_effect m (step m e).
Proof.
  intros HI Hne Hg.
  assert (flight_effect m m) as Hrefl by by apply flight_same.
  destruct e as [o g d ts u tts|w|w now mp3|w|w now mp3|w ok|w rc|w| | |];
    simpl.
  - simpl in Hg. apply negb_true_iff in Hg. unfold queue_audio.
    rewrite Hg. simpl. rewrite andb_true_r.
    destruct (given g).
    + unfold _save_tts_to_file. destruct tts; cbv zeta.
      * apply flight_queue_audio_put; simpl; try done; [set_solver|].
        intros f Hf. unfold file_of_item in Hf. simpl in Hf.
        rewrite ?unique_name_truthy in Hf. injection Hf as <-. set_solver.
      * by apply flight_same.
    + apply flight_queue_audio_put; try done.
      intros f Hf. by apply not_given_no_file in Hf.
  - unfold process_audio_queue_start.
    destruct (loops m !! w) as [[| | | |]|] eqn:Hw;
      first [exact Hrefl | by apply flight_loop_again].
  - unfold process_audio_queue_get.
    destruct (loops m !! w) as [[| | | |]|] eqn:Hw; try exact Hrefl.
    destruct (audio_queue m) as [|[o d] rest] eqn:Hq; [exact Hrefl|].
    destruct o as [f|]; [destruct (Py.truthy f) eqn:Ef|].
    + unfold play_audio. simpl.
      destruct (negb (lock_held m) && bool_decide (lock_waiters m = [])) eqn:Hc.
      * apply andb_true_iff in Hc as [Hc1 Hc2]. apply negb_true_iff in Hc1.
        apply bool_decide_eq_true in Hc2.
        apply flight_begin; [by apply current_when_free| |done].
        simpl. unfold pending, waiting_files, queued_files.
        rewrite Hc2, Hq. simpl. unfold file_of_item at 2. simpl.
        by rewrite Ef.
      * left. exists []. rewrite app_nil_r. simpl.
        unfold in_flight, pending, waiting_files, queued_files. simpl.
        rewrite Hq. simpl. unfold file_of_item at 2. simpl. rewrite Ef.
        rewrite fmap_app. simpl. rewrite <- !app_assoc. simpl.
        split; [done|]. split; [done|]. by intros ? ?%elem_of_nil.
    + apply flight_loop_again; try done. simpl. rewrite Hq. simpl.
      unfold file_of_item at 2. simpl. by rewrite Ef.
    + apply flight_loop_again; try done. simpl. by rewrite Hq.
  - unfold process_audio_queue_timeout.
    destruct (loops m !! w) as [[| | | |]|] eqn:Hw; try exact Hrefl.
    destruct (audio_queue m); [|exact Hrefl].
    by apply flight_loop_again.
  - unfold lock_resume.
    destruct (loops m !! w) as [[| | | |]|] eqn:Hw; try exact Hrefl.
    destruct (lock_waiters m) as [|[[w' f] d] rest] eqn:Hws; [exact Hrefl|].
    destruct (lock_woken m && bool_decide (w' = w)) eqn:Hc; [|exact Hrefl].
    apply andb_true_iff in Hc as [Hc1 Hc2].
    pose proof (inv_woken m HI Hc1) as Hfree.
    apply flight_begin; [by apply current_when_free| |done].
    simpl. unfold pending, waiting_files, queued_files. by rewrite Hws.
  - unfold spawn_done.
    destruct (loops m !! w) as [[| | |[] f d|]|] eqn:Hw; try exact Hrefl.
    destruct ok; [first [exact Hrefl | by apply flight_same]|].
    apply flight_finally; try done. by eapply current_of_playing.
  - unfold process_exit.
    destruct (loops m !! w) as [[| | |[] f d|]|] eqn:Hw;
      first [exact Hrefl | by apply flight_same].
  - unfold settle_done.
    destruct (loops m !! w) as [[| | |[] f d|]|] eqn:Hw; try exact Hrefl.
    apply flight_finally; try done. by eapply current_of_playing.
  - unfold stop_current_audio.
    destruct (current_process m) as [[]|];
      first [exact Hrefl | by apply flight_same].
  - done.
  - first [exact Hrefl | by apply flight_same].
Qed.

Lemma on_disk_run (es : list event) (m : AudioManager) :
  Inv m → exact m → (∀ f, f ∈ in_flight m → f ∈ files m) →
  ClearQueue ∉ es → Forall (λ e, generated e = true) es →
  ∀ f, f ∈ in_flight (run m es) → f ∈ files (run m es).
Proof.
  revert m. induction es as [|e es IH]; intros m HI He Hd Hn Hg; [done|].
  apply Forall_cons in Hg as [Hg Hgs].
  assert (e ≠ ClearQueue) as Hne by set_solver.
  apply IH; [by apply Inv_step|by apply exact_step| |set_solver|done].
  intros x Hx.
  destruct (flight_step m e HI Hne Hg) as [(added & E & Hf & Ha)|(f & E & Hf)].
  - rewrite E in Hx. apply elem_of_app in Hx as [Hx|Hx]; [|by apply Ha].
    apply Hf. by apply Hd.
  - destruct He as [Hnd _]. rewrite E in Hnd.
    apply NoDup_cons in Hnd as [Hnf _].
    apply Hf. apply elem_of_difference. split.
    + apply Hd. rewrite E. by right.
    + intros ->%elem_of_singleton. done.
Qed.

(** In a run that never calls [clear_queue] and whose calls of
    [queue_audio] give a text and no file, a synthesised file stays on
    disk until it has played: every file that is playing or waiting to
    play is on disk. *)
Theorem synthesised_files_wait_on_disk (disk : gset (list ascii))
    (es : list event) :
  ClearQueue ∉ es →
  Forall (λ e, generated e = true) es →
  let m := run (init disk) es in
  ∀ f, f ∈ in_flight m → f ∈ files m.
Proof.
  intros Hn Hg m.
  apply on_disk_run; [apply Inv_init|apply exact_init| |done|done].
  intros f Hf. by apply elem_of_nil in Hf.
Qed.

Lemma synthesised_files_wait_on_disk_witness :
  let m := run (init ∅)
             ([speak "One" 17 "0f"; speak "Two" 18 "1a"; LoopStart 0]
              ++ plays 0 0%Z ++ [LoopGet 0 5 None]) in
  let f := _generate_unique_audio_filename 18 (txt "1a") in
  f ∈ in_flight m ∧ f ∈ files m.
Proof.
  cbv zeta.
  assert (_generate_unique_audio_filename 18 (txt "1a")
          ∈ in_flight
              (run (init ∅)
                 ([speak "One" 17 "0f"; speak "Two" 18 "1a"; LoopStart 0]
                  ++ plays 0 0%Z ++ [LoopGet 0 5 None]))) as Hin
    by (vm_compute; left).
  split; [exact Hin|].
  refine (synthesised_files_wait_on_disk ∅ _ _ _ _ Hin).
  - vm_compute. intros H.
    repeat (apply elem_of_cons in H as [H|H]; [done|]).
    by apply elem_of_nil in H.
  - repeat constructor.
Defined.

End OnDisk.

(** * When a single loop runs *)

Section SingleLoop.
Import Audio.

Lemma loops_insert_count (l : list loop_state) (w : nat)
    (old new : loop_state) :
  l !! w = Some old →
  length (filter (λ x, created x = true) (<[w := new]> l))
    + (if created old then 1 else 0)
  = length (filter (λ x, created x = true) l)
    + (if created new then 1 else 0) ∧
  length (filter (λ x, active x = true) (<[w := new]> l))
    + (if active old then 1 else 0)
  = length (filter (λ x, active x = true) l)
    + (if active new then 1 else 0).
Proof.
  revert w. induction l as [|x l IH]; intros w Hw; [done|].
  destruct w as [|w]; simpl in *.
  - injection Hw as ->. rewrite !filter_cons.
    destruct (active old) eqn:Eo, (active new) eqn:En,
      (created old) eqn:Co, (created new) eqn:Cn;
      repeat case_decide; simpl; try congruence; lia.
  - rewrite !filter_cons. destruct (IH w Hw) as [H1 H2].
    repeat case_decide; simpl; lia.
Qed.

(** A step that moves loop [w] from [old] to [new]. *)
Lemma single_of (m m' : AudioManager) (w : nat) (old new : loop_state) :
  single m → loops m !! w = Some old →
  loops m' = <[w := new]> (loops m) →
  lock_waiters m' = [] →
  (created_loops m' + (if created old then 1 else 0)
   = created_loops m + (if created new then 1 else 0) →
   active_loops m' + (if active old then 1 else 0)
   = active_loops m + (if active new then 1 else 0) →
   created_loops m' + active_loops m' ≤ 1 ∧
   (is_processing_queue m' = false → active_loops m' = 0) ∧
   (is_processing_queue m' = true → created_loops m' = 0)) →
  single m'.
Proof.
  intros Hs Hw Hl Hws H.
  destruct (loops_insert_count (loops m) w old new Hw) as [H1 H2].
  unfold single, created_loops, active_loops in *. rewrite Hl in *.
  destruct (H H1 H2) as (G1 & G2 & G3). done.
Qed.

Lemma single_same (m m' : AudioManager) :
  single m → loops m' = loops m → lock_waiters m' = lock_waiters m →
  is_processing_queue m' = is_processing_queue m → single m'.
Proof.
  unfold single, created_loops, active_loops. by intros ? -> -> ->.
Qed.

Lemma single_loop_again (w : nat) (old : loop_state) (m m0 : AudioManager) :
  single m0 → loops m0 !! w = Some old → created old = false →
  active old = true →
  loops m = loops m0 → lock_waiters m = [] →
  is_processing_queue m = is_processing_queue m0 →
  single (loop_again w m).
Proof.
  intros Hs Hw Hc Ha Hl Hws Hf.
  assert (is_processing_queue m0 = true) as Hflag.
  { destruct (is_processing_queue m0) eqn:E; [done|].
    destruct Hs as (_ & Hs & _). specialize (Hs E).
    destruct (loops_insert_count (loops m0) w old Created Hw) as [_ H].
    rewrite Ha in H. unfold active_loops in Hs. simpl in H. lia. }
  unfold loop_again. rewrite Hf, Hflag.
  apply (single_of m0 _ w old AtGet); simpl; [done|done|by rewrite Hl|done|].
  rewrite Ha, Hc, Hf, Hflag. simpl.
  destruct Hs as (G1 & G2 & G3 & G4). specialize (G3 Hflag).
  intros H1 H2. split; [lia|]. split; [done|]. intros _. lia.
Qed.

Lemma active_when_single (m : AudioManager) (w : nat) (l : loop_state) :
  single m → loops m !! w = Some l → active l = true →
  ∀ w' l', loops m !! w' = Some l' → active l' = true → w' = w.
Proof.
  intros (Hs & _) Hw Ha w' l' Hw' Ha'.
  destruct (decide (w' = w)) as [|Hne]; [done|]. exfalso.
  destruct (loops_insert_count (loops m) w l Created Hw) as [_ H1].
  assert (<[w := Created]> (loops m) !! w' = Some l') as Hw''
    by by rewrite list_lookup_insert_ne.
  destruct (loops_insert_count _ w' l' Created Hw'') as [_ H2].
  rewrite Ha in H1. rewrite Ha' in H2. simpl in *.
  unfold active_loops in Hs. lia.
Qed.

Lemma single_free (m : AudioManager) (w : nat) (l : loop_state) :
  Inv m → single m → loops m !! w = Some l → active l = true →
  in_playback l = false → lock_held m = false.
Proof.
  intros HI Hs Hw Ha Hp. destruct (lock_held m) eqn:E; [|done].
  destruct (inv_held m HI E) as (w' & ph & f & d & Hw').
  assert (w' = w) as -> by by eapply active_when_single.
  rewrite Hw in Hw'. by injection Hw' as ->.
Qed.

Lemma single_queue_audio_put (o : option str) (d : bool)
    (m m0 : AudioManager) :
  single m0 → created_loops m0 = 0 →
  loops m = loops m0 → lock_waiters m = lock_waiters m0 →
  is_processing_queue m = is_processing_queue m0 →
  single (queue_audio_put o d m).
Proof.
  intros Hs Hc E1 E2 E3.
  assert (single m) as Hm by by apply (single_same m0).
  assert (created_loops m = 0) as Hcm
    by (unfold created_loops in *; by rewrite E1).
  clear Hs Hc E1 E2 E3 m0.
  unfold queue_audio_put.
  destruct (already_queued o m); [by apply (single_same m)|]. cbv zeta.
  assert (loops (add_queued o m) = loops m ∧
          lock_waiters (add_queued o m) = lock_waiters m ∧
          is_processing_queue (add_queued o m) = is_processing_queue m)
    as (G1 & G2 & G3).
  { unfold add_queued. destruct o as [f|]; [|done]. by destruct (Py.truthy f). }
  simpl. rewrite G3. destruct (is_processing_queue m) eqn:Ef; simpl.
  - apply (single_same m); simpl; by rewrite ?G1, ?G2, ?G3.
  - destruct Hm as (H1 & H2 & H3 & H4). specialize (H2 Ef).
    unfold single, created_loops, active_loops in *. simpl.
    rewrite ?G1, ?G2, ?G3, ?Ef, !filter_app, !length_app. simpl.
    split; [lia|]. split; [intros; lia|]. split; [done|done].
Qed.

Lemma single_step (m : AudioManager) (e : event) :
  Inv m → single m → e ≠ StopAudioQueue →
  (enqueues e = true → created_loops m = 0) →
  single (step m e).
Proof.
  intros HI Hs Hne Hc.
  destruct e as [o g d ts u tts|w|w now mp3|w|w now mp3|w ok|w rc|w| | |];
    simpl.
  - specialize (Hc eq_refl). unfold queue_audio.
    destruct (given g && negb (given o));
      [|by apply (single_queue_audio_put _ _ _ m)].
    unfold _save_tts_to_file. destruct tts; cbv zeta.
    + by apply (single_queue_audio_put _ _ _ m).
    + by apply (single_same m).
  - unfold process_audio_queue_start.
    destruct (loops m !! w) as [[| | | |]|] eqn:Hw; try done.
    unfold loop_again. simpl.
    apply (single_of m _ w Created AtGet); simpl; [done|done|done|apply Hs|].
    destruct Hs as (G1 & G2 & G3 & G4).
    assert (1 ≤ created_loops m) as Hpos.
    { destruct (loops_insert_count (loops m) w Created AtGet Hw) as [H _].
      simpl in H. unfold created_loops. lia. }
    intros H1 H2. split; [lia|]. split; [done|]. intros _. lia.
  - unfold process_audio_queue_get.
    destruct (loops m !! w) as [[| | | |]|] eqn:Hw; try done.
    destruct (audio_queue m) as [|[o d] rest] eqn:Hq; [done|].
    assert (single (loop_again w (task_done (set_audio_queue rest m))))
      as Hagain.
    { apply (single_loop_again w AtGet _ m); try done. apply Hs. }
    destruct o as [f|]; [|done]. destruct (Py.truthy f); [|done].
    assert (lock_held m = false) as Hfree by by eapply (single_free m w AtGet).
    destruct Hs as (G1 & G2 & G3 & G4).
    unfold play_audio. simpl. rewrite Hfree, G4. simpl.
    apply (single_of m _ w AtGet (Playing Spawning f d));
      [done|done| | |].
    + unfold play_audio_begin. by destruct mp3.
    + unfold play_audio_begin. by destruct mp3.
    + assert (is_processing_queue
                (play_audio_begin w f d now mp3
                   (set_lock true [] false (set_audio_queue rest m)))
              = is_processing_queue m) as ->.
      { unfold play_audio_begin. by destruct mp3. }
      simpl (created _). simpl (active _). intros H1 H2.
      split; [lia|]. split; [intros H; specialize (G2 H); lia|].
      intros H. specialize (G3 H). lia.
  - unfold process_audio_queue_timeout.
    destruct (loops m !! w) as [[| | | |]|] eqn:Hw; try done.
    destruct (audio_queue m); [|done].
    apply (single_loop_again w AtGet _ m); try done. apply Hs.
  - unfold lock_resume.
    destruct (loops m !! w) as [[| | | |]|] eqn:Hw; try done.
    destruct Hs as (G1 & G2 & G3 & G4). by rewrite G4.
  - unfold spawn_done.
    destruct (loops m !! w) as [[| | |[] f d|]|] eqn:Hw; try done.
    destruct ok.
    + apply (single_of m _ w (Playing Spawning f d) (Playing Running f d));
        simpl; [done|done|done|apply Hs|].
      destruct Hs as (G1 & G2 & G3 & G4). 
      intros H1 H2. split; [lia|]. split; [intros H; specialize (G2 H); lia|].
      intros H. specialize (G3 H). lia.
    + unfold play_audio_finally.
      destruct (d && bool_decide (f ∈ files _)); cbv zeta;
        (apply (single_loop_again w (Playing Spawning f d) _ m);
         simpl; try done; unfold release; simpl; apply Hs).
  - unfold process_exit.
    destruct (loops m !! w) as [[| | |[] f d|]|] eqn:Hw; try done.
    apply (single_of m _ w (Playing Running f d) (Playing Settling f d));
      simpl; [done|done|done|apply Hs|].
    destruct Hs as (G1 & G2 & G3 & G4). 
    intros H1 H2. split; [lia|]. split; [intros H; specialize (G2 H); lia|].
    intros H. specialize (G3 H). lia.
  - unfold settle_done.
    destruct (loops m !! w) as [[| | |[] f d|]|] eqn:Hw; try done.
    unfold play_audio_finally.
    destruct (d && bool_decide (f ∈ files _)); cbv zeta;
      (apply (single_loop_again w (Playing Settling f d) _ m);
       simpl; try done; unfold release; simpl; apply Hs).
  - unfold stop_current_audio.
    destruct (current_process m) as [[]|]; try done;
      by apply (single_same m).
  - by apply (single_same m).
  - done.
Qed.

Lemma single_init (disk : gset (list ascii)) : single (init disk).
Proof. unfold single, created_loops, active_loops. simpl. split; [lia|done]. Qed.

Lemma single_run (disk : gset (list ascii)) (es : list event) :
  started_promptly disk es → StopAudioQueue ∉ es →
  single (run (init disk) es).
Proof.
  induction es as [|e es IH] using rev_ind; intros Hp Hn;
    [apply single_init|].
  unfold run. rewrite fold_left_app. simpl.
  apply single_step.
  - apply reachable_Inv.
  - apply IH; [|set_solver].
    intros es1 e' es2 -> He'.
    apply (Hp es1 e' (es2 ++ [e])); [by rewrite <- app_assoc|done].
  - set_solver.
  - intros He. apply (Hp es e []); done.
Qed.

(** When every call of [queue_audio] finds the task created by the call
    before it already started, and [stop_audio_queue] is not called, one
    loop at most reads the queue and no task ever waits for the playback
    lock. *)
Theorem one_loop_when_started_promptly (disk : gset (list ascii))
    (es : list event) :
  started_promptly disk es → StopAudioQueue ∉ es →
  let m := run (init disk) es in
  active_loops m ≤ 1 ∧ lock_waiters m = [].
Proof.
  intros Hp Hn m. destruct (single_run disk es Hp Hn) as (H1 & _ & _ & H4).
  fold m in H1, H4. split; [lia|done].
Qed.

Lemma one_loop_when_started_promptly_witness :
  let m := run (init ∅)
             ([speak "One" 17 "0f"; LoopStart 0; speak "Two" 18 "1a"]
              ++ plays 0 0%Z ++ [LoopGet 0 5 None]) in
  active_loops m ≤ 1 ∧ lock_waiters m = [].
Proof.
  cbv zeta. refine (one_loop_when_started_promptly ∅ _ _ _).
  - intros es1 e es2 H He.
    repeat (destruct es1 as [|e1 es1];
      [ injection H as <- _;
        first [discriminate He | vm_compute; reflexivity]
      | injection H as <- H ]).
    by destruct es1.
  - vm_compute. intros H.
    repeat (apply elem_of_cons in H as [H|H]; [done|]).
    by apply elem_of_nil in H.
Defined.

End SingleLoop.

(** * The identifiers of the streaming handler *)

Section Identifiers.
Import Handler.

Lemma rsplit1_none (sep : ascii) (t : str) :
  sep ∉ t → PyStr.rsplit1 sep t = None.
Proof.
  induction t as [|c r IH]; intros Hn; simpl; [done|].
  rewrite IH by set_solver.
  replace (Py.eqc c sep) with false; [done|].
  symmetry. apply eqc_false. set_solver.
Qed.

Lemma rsplit1_app (sep : ascii) (x y : str) :
  sep ∉ y → PyStr.rsplit1 sep (x ++ sep :: y) = Some (x, y).
Proof.
  intros Hn. induction x as [|c r IH]; simpl.
  - rewrite rsplit1_none by done.
    replace (Py.eqc sep sep) with true; [done|]. symmetry. by apply eqc_true.
  - by rewrite IH.
Qed.

Lemma digits_of_uint (d : Decimal.uint) :
  Forall decimal_digit
    (String.list_ascii_of_string (DecimalString.NilEmpty.string_of_uint d)).
Proof.
  induction d; simpl; constructor; try done; unfold decimal_digit; simpl;
    set_solver.
Qed.

Lemma decimal_digits (n : nat) : Forall decimal_digit (Audio.decimal n).
Proof. apply digits_of_uint. Qed.

Lemma decimal_nonempty (n : nat) : Audio.decimal n ≠ [].
Proof.
  unfold Audio.decimal, txt.
  pose proof (DecimalNat.Unsigned.to_of (Nat.to_uint n)) as H.
  rewrite DecimalNat.Unsigned.of_to in H.
  pose proof (DecimalFacts.unorm_nonnil (Nat.to_uint n)) as Hn.
  rewrite <- H in Hn. by destruct (Nat.to_uint n).
Qed.

Lemma decimal_no_dash (n : nat) : "-"%char ∉ Audio.decimal n.
Proof.
  intros H. pose proof (decimal_digits n) as Hd.
  rewrite Forall_forall in Hd. apply Hd in H. unfold decimal_digit in H.
  simpl in H. set_solver.
Qed.

Lemma isdigit_decimal (n : nat) : PyStr.isdigit (Audio.decimal n) = true.
Proof.
  unfold PyStr.isdigit. apply andb_true_iff. split.
  - pose proof (decimal_nonempty n). by destruct (Audio.decimal n).
  - apply forallb_forall. intros c Hc%list_elem_of_In.
    pose proof (decimal_digits n) as Hd. rewrite Forall_forall in Hd.
    apply Hd in Hc. unfold decimal_digit in Hc. simpl in Hc.
    repeat (apply elem_of_cons in Hc as [->|Hc]; [done|]).
    by apply elem_of_nil in Hc.
Qed.

Lemma int_decimal (n : nat) :
  length (Audio.decimal n) ≤ PyStr.max_str_digits →
  PyStr.int (Audio.decimal n) = Some n.
Proof.
  intros Hlen. unfold PyStr.int.
  replace (PyStr.max_str_digits <? length (Audio.decimal n)) with false
    by (symmetry; apply Nat.ltb_ge; lia).
  unfold Audio.decimal, txt.
  rewrite String.string_of_list_ascii_of_string, DecimalString.NilEmpty.usu.
  simpl. by rewrite DecimalNat.Unsigned.of_to.
Qed.

Lemma filtered_parts_app (ps rest : list str) :
  Forall (λ p, p ∉ keywords) ps →
  filtered_parts false (ps ++ rest) = ps ++ filtered_parts false rest.
Proof.
  induction 1 as [|p ps Hp _ IH]; simpl; [done|].
  unfold Py.mem. rewrite bool_decide_false by done. by rewrite IH.
Qed.

Lemma filtered_parts_keyword (kw ts : str) :
  kw ∈ keywords → filtered_parts false [kw; ts] = [].
Proof. intros H. simpl. unfold Py.mem. by rewrite bool_decide_true. Qed.

(** Splitting what was joined gives the parts back. *)
Lemma split_join (sep : ascii) (ps : list str) :
  ps ≠ [] → Forall (λ p, sep ∉ p) ps →
  Py.split sep (Py.join sep ps) = ps.
Proof.
  intros Hne Hall. induction Hall as [|p ps Hp Hps IH]; [done|].
  destruct ps as [|q ps]; simpl.
  - by apply split_no_sep.
  - change (Py.split sep (p ++ sep :: Py.join sep (q :: ps)) = p :: q :: ps).
    rewrite split_app_sep by done. by rewrite IH.
Qed.

(** An identifier made of parts, a keyword, a time stamp and a sequence
    number is parsed into its first three parts and the sequence number;
    with a numeric time stamp and no sequence number, the time stamp is
    taken for the sequence number. *)
Theorem chunk_identifier_is_parsed (ps : list str) (kw ts : str)
    (n now : nat) :
  ps ≠ [] →
  Forall (λ p, ("-"%char ∉ p) ∧ (p ∉ keywords)) ps →
  kw ∈ keywords →
  "-"%char ∉ ts →
  length (Audio.decimal n) ≤ PyStr.max_str_digits →
  let base := Py.join "-" ps in
  _parse_response_id
    (Some (base ++ "-"%char :: kw ++ "-"%char :: ts
             ++ "-"%char :: Audio.decimal n)) now
  = (Py.join "-" (take 3 ps), n) ∧
  _parse_response_id
    (Some (base ++ "-"%char :: kw ++ "-"%char :: Audio.decimal n)) now
  = (Py.join "-" (take 3 ps), n).
Proof.
  intros Hne Hps Hkw Hts Hlen base.
  assert (Forall (λ p, "-"%char ∉ p) ps) as Hdash.
  { eapply Forall_impl; [exact Hps|]. by intros p [? _]. }
  assert (Forall (λ p, p ∉ keywords) ps) as Hkey.
  { eapply Forall_impl; [exact Hps|]. by intros p [_ ?]. }
  assert ("-"%char ∉ kw) as Hkwd.
  { unfold keywords in Hkw.
    repeat (apply elem_of_cons in Hkw as [->|Hkw];
            [vm_compute; intros H;
             repeat (apply elem_of_cons in H as [H|H]; [done|]);
             by apply elem_of_nil in H|]).
    by apply elem_of_nil in Hkw. }
  assert (Py.split "-" base = ps) as Hsplit by by apply split_join.
  split.
  - unfold _parse_response_id.
    replace (base ++ "-"%char :: kw ++ "-"%char :: ts
               ++ "-"%char :: Audio.decimal n)
      with ((base ++ "-"%char :: kw ++ "-"%char :: ts)
              ++ "-"%char :: Audio.decimal n)
      by (rewrite <- !app_assoc; simpl; by rewrite <- !app_assoc).
    rewrite rsplit1_app by apply decimal_no_dash.
    rewrite isdigit_decimal, int_decimal by done.
    replace (Py.truthy _) with true by by destruct base.
    f_equal. unfold clean_base_id.
    replace (base ++ "-"%char :: kw ++ "-"%char :: ts)
      with ((base ++ "-"%char :: kw) ++ "-"%char :: ts)
      by (by rewrite <- !app_assoc).
    rewrite !split_app, Hsplit, !split_no_sep by done.
    rewrite <- app_assoc. simpl.
    rewrite filtered_parts_app, filtered_parts_keyword, app_nil_r by done.
    done.
  - unfold _parse_response_id.
    replace (base ++ "-"%char :: kw ++ "-"%char :: Audio.decimal n)
      with ((base ++ "-"%char :: kw) ++ "-"%char :: Audio.decimal n)
      by (by rewrite <- !app_assoc).
    rewrite rsplit1_app by apply decimal_no_dash.
    rewrite isdigit_decimal, int_decimal by done.
    replace (Py.truthy _) with true by by destruct base.
    f_equal. unfold clean_base_id.
    rewrite !split_app, Hsplit, !split_no_sep by done.
    rewrite filtered_parts_app by done. simpl.
    unfold Py.mem. rewrite bool_decide_true by done. by rewrite app_nil_r.
Qed.

Lemma chunk_identifier_is_parsed_witness :
  _parse_response_id (Some (txt "1699-3-ab12-extra-chunk-77-5")) 0
  = (txt "1699-3-ab12", 5) ∧
  _parse_response_id (Some (txt "1699-3-ab12-extra-chunk-5")) 0
  = (txt "1699-3-ab12", 5).
Proof.
  apply (chunk_identifier_is_parsed
           [txt "1699"; txt "3"; txt "ab12"; txt "extra"]
           (txt "chunk") (txt "77") 5 0).
  - done.
  - repeat constructor; vm_compute; set_solver.
  - vm_compute. set_solver.
  - vm_compute. set_solver.
  - vm_compute. lia.
Defined.

End Identifiers.

(** * The names of the synthesised files *)

Section FileNames.
Import Audio.

Lemma decimal_inj (n n' : nat) : decimal n = decimal n' → n = n'.
Proof.
  unfold decimal, txt. intros H.
  apply (f_equal String.string_of_list_ascii) in H.
  rewrite !String.string_of_list_ascii_of_string in H.
  apply (f_equal DecimalString.NilEmpty.uint_of_string) in H.
  rewrite !DecimalString.NilEmpty.usu in H. injection H as H.
  by apply DecimalNat.Unsigned.to_uint_inj.
Qed.

Lemma decimal_no_underscore (n : nat) : "_"%char ∉ decimal n.
Proof.
  intros H. pose proof (decimal_digits n) as Hd.
  rewrite Forall_forall in Hd. apply Hd in H. unfold decimal_digit in H.
  simpl in H. set_solver.
Qed.

Lemma first_separator (sep : ascii) (x x' y y' : str) :
  sep ∉ x → sep ∉ x' → x ++ sep :: y = x' ++ sep :: y' → x = x' ∧ y = y'.
Proof.
  revert x'. induction x as [|c x IH]; intros [|c' x'] Hx Hx' H; simpl in H.
  - by injection H as ->.
  - injection H as <- _. set_solver.
  - injection H as -> _. set_solver.
  - injection H as -> H.
    destruct (IH x') as [-> ->]; [set_solver|set_solver|done|done].
Qed.

(** The path [_generate_unique_audio_filename] builds tells the clock
    reading and the uuid it was built from: two calls give the same path
    only when both coincide. *)
Theorem file_name_tells_its_parts (ts ts' : nat) (u u' : str) :
  _generate_unique_audio_filename ts u
    = _generate_unique_audio_filename ts' u' ↔
  ts = ts' ∧ u = u'.
Proof.
  split; [|by intros [-> ->]].
  unfold _generate_unique_audio_filename. intros H.
  do 2 apply app_inv_head in H.
  apply (first_separator "_"%char) in H as [Hd Hu];
    [|apply decimal_no_underscore..].
  apply decimal_inj in Hd. by apply app_inv_tail in Hu.
Qed.

End FileNames.

(** * The bookkeeping of the streaming handler *)

Section Bookkeeping.
Import Handler.

Lemma keyed_finish (base_id : str) (complete : bool) (s : system) :
  handler (finish base_id complete s) = handler s.
Proof.
  unfold finish, _finalize_response. destruct complete; [|done].
  by case_bool_decide.
Qed.

Lemma keyed_chunk (text : str) (complete : bool) (id : option str)
    (now : nat) (s : system) :
  keyed s → keyed (process_stream_chunk text complete id now s).1.
Proof.
  unfold keyed. intros Hk. unfold process_stream_chunk.
  destruct (_parse_response_id id now) as [base_id sequence_num].
  case_bool_decide; [done|]. cbv zeta.
  match goal with
  | |- context [if Py.truthy ?c && ?l then _ else _] =>
      destruct (Py.truthy c && l)
  end; simpl; [destruct (audio_manager (handler s)) eqn:Ea|];
    repeat (case_bool_decide; simpl; rewrite ?Ea; simpl);
    rewrite ?keyed_finish; simpl;
    rewrite ?Ea, ?dom_insert_L, ?Hk; simpl; try done;
    rewrite ?dom_insert_L; set_solver.
Qed.

Lemma keyed_step (s s' : system) (e : event) :
  keyed s → step s e = Some s' → keyed s'.
Proof.
  intros Hk. destruct e as [text complete id now|k|k|]; simpl.
  - intros [= <-]. by apply keyed_chunk.
  - intros [= <-]. unfold queue_audio_returns.
    destruct (calls s !! k) as [[base_id complete]|]; [|done].
    unfold keyed. by rewrite keyed_finish.
  - unfold _cleanup_response.
    destruct (sleepers s !! k) as [base_id|]; [|by intros [= <-]].
    repeat case_bool_decide; intros [= <-]; unfold keyed in *; simpl;
      [|done]. by rewrite !dom_delete_L, Hk.
  - intros [= <-]. unfold keyed. simpl. by rewrite !dom_empty_L.
Qed.

Lemma step_total (s : system) (e : event) : keyed s → is_Some (step s e).
Proof.
  intros Hk. destruct e as [text complete id now|k|k|]; simpl; try done.
  unfold _cleanup_response.
  destruct (sleepers s !! k) as [base_id|]; [|done].
  case_bool_decide as H1; [|done]. unfold keyed in Hk.
  rewrite Hk in H1. by rewrite bool_decide_true.
Qed.

(** [response_chunks] and [chunk_counter] always have the same keys, so
    that [_cleanup_response], which deletes from both after looking in
    the first only, never ends with a [KeyError]: every run goes through. *)
Theorem cleanup_never_raises (has_manager : bool) (es : list event) :
  ∃ s, run (start has_manager) es = Some s ∧
       dom (response_chunks (handler s)) = dom (chunk_counter (handler s)).
Proof.
  assert (keyed (start has_manager)) as Hk.
  { unfold keyed. simpl. by rewrite !dom_empty_L. }
  revert Hk. generalize (start has_manager).
  induction es as [|e es IH]; intros s Hk; simpl; [by exists s|].
  destruct (step_total s e Hk) as [s' Hs']. rewrite Hs'.
  apply IH. by eapply keyed_step.
Qed.

Lemma processed_chunk (text : str) (complete : bool) (id id' : option str)
    (now : nat) (s : system) :
  audio_manager (handler s) = true →
  id ∈ processed_response_ids (handler s) →
  let s' := (process_stream_chunk text complete id' now s).1 in
  audio_manager (handler s') = true ∧
  id ∈ processed_response_ids (handler s').
Proof.
  intros Ha Hid. cbv zeta. unfold process_stream_chunk.
  destruct (_parse_response_id id' now) as [base_id sequence_num].
  case_bool_decide; [done|]. cbv zeta.
  match goal with
  | |- context [if Py.truthy ?c && ?l then _ else _] =>
      destruct (Py.truthy c && l)
  end; simpl;
    repeat (case_bool_decide; simpl; rewrite ?Ha; simpl);
    rewrite ?keyed_finish; simpl; rewrite ?Ha; simpl;
    (split; [done|set_solver]).
Qed.

Lemma processed_run (es : list event) (s s' : system) (id : option str) :
  audio_manager (handler s) = true →
  id ∈ processed_response_ids (handler s) →
  ResetConversation ∉ es →
  run s es = Some s' →
  audio_manager (handler s') = true ∧
  id ∈ processed_response_ids (handler s').
Proof.
  revert s. induction es as [|e es IH]; intros s Ha Hid Hn; simpl.
  - by intros [= <-].
  - destruct (step s e) as [s1|] eqn:E; [|done].
    assert (audio_manager (handler s1) = true ∧
            id ∈ processed_response_ids (handler s1)) as [Ha1 Hid1].
    { destruct e as [text complete id' now|k|k|]; simpl in E.
      - injection E as <-. by apply processed_chunk.
      - injection E as <-. unfold queue_audio_returns.
        destruct (calls s !! k) as [[base_id complete]|]; [|done].
        by rewrite keyed_finish.
      - unfold _cleanup_response in E.
        destruct (sleepers s !! k) as [base_id|]; [|by injection E as <-].
        repeat case_bool_decide; by simplify_eq.
      - exfalso. apply Hn. left. }
    apply IH; [done|done|set_solver].
Qed.

(** With an audio manager, an identifier that has been processed stays
    so until the conversation is reset: neither the end of a synthesis,
    whatever its outcome, nor a cleanup takes it back, and a later chunk
    with the same identifier changes nothing and asks nothing of the
    audio manager. *)
Theorem processed_identifier_is_skipped (s s' : system) (es : list event)
    (id : option str) (text : str) (complete : bool) (now : nat) :
  audio_manager (handler s) = true →
  id ∈ processed_response_ids (handler s) →
  ResetConversation ∉ es →
  run s es = Some s' →
  id ∈ processed_response_ids (handler s') ∧
  process_stream_chunk text complete id now s' = (s', None).
Proof.
  intros Ha Hid Hn Hrun.
  destruct (processed_run es s s' id Ha Hid Hn Hrun) as [Ha' Hid'].
  split; [done|]. unfold process_stream_chunk.
  destruct (_parse_response_id id now). by rewrite bool_decide_true.
Qed.

Lemma processed_identifier_is_skipped_witness :
  let id := Some (txt "1699-3-ab12-chunk-77-0") in
  let s := (process_stream_chunk (txt "Hello, world") true id 10
              (start true)).1 in
  let s' := default s (run s [QueueAudioReturns 0; CleanupWakes 0]) in
  id ∈ processed_response_ids (handler s') ∧
  process_stream_chunk (txt "Hello, world") true id 400 s' = (s', None).
Proof.
  cbv zeta.
  set (s := (process_stream_chunk (txt "Hello, world") true
               (Some (txt "1699-3-ab12-chunk-77-0")) 10 (start true)).1).
  apply (processed_identifier_is_skipped s _
           [QueueAudioReturns 0; CleanupWakes 0]).
  - reflexivity.
  - vm_compute. set_solver.
  - set_solver.
  - reflexivity.
Defined.

(** A chunk of five characters or fewer, white space at the ends not
    counted, is never spoken, with or without an audio manager; its
    identifier is used up all the same, so that sending it again is
    skipped as a duplicate. *)
Theorem short_chunk_is_dropped (s : system) (text : str) (complete : bool)
    (id : option str) (now : nat) :
  id ∉ processed_response_ids (handler s) →
  length (Py.strip text) ≤ 5 →
  let r := process_stream_chunk text complete id now s in
  r.2 = None ∧ calls r.1 = calls s ∧
  id ∈ processed_response_ids (handler r.1) ∧
  process_stream_chunk text complete id now r.1 = (r.1, None).
Proof.
  intros Hid Hlen r.
  assert (r.2 = None ∧ calls r.1 = calls s ∧
          id ∈ processed_response_ids (handler r.1)) as (H1 & H2 & H3).
  { unfold r, process_stream_chunk.
    destruct (_parse_response_id id now) as [base_id sequence_num].
    rewrite bool_decide_false by done. cbv zeta. simpl.
    replace (5 <? length (Py.strip text)) with false
      by (symmetry; apply Nat.ltb_ge; lia).
    rewrite andb_false_r. simpl. split; [done|].
    unfold finish, _finalize_response.
    destruct complete; repeat case_bool_decide; simpl;
      (split; [done|set_solver]). }
  repeat (split; [done|]). unfold process_stream_chunk.
  destruct (_parse_response_id id now). by rewrite bool_decide_true.
Qed.

Lemma short_chunk_is_dropped_witness :
  let r := process_stream_chunk (txt "  Yes. ") true
             (Some (txt "1699-3-ab12-final-77-0")) 10 (start true) in
  r.2 = None ∧ calls r.1 = calls (start true) ∧
  Some (txt "1699-3-ab12-final-77-0")
    ∈ processed_response_ids (handler r.1) ∧
  process_stream_chunk (txt "  Yes. ") true
    (Some (txt "1699-3-ab12-final-77-0")) 10 r.1 = (r.1, None).
Proof.
  apply (short_chunk_is_dropped (start true)).
  - vm_compute. set_solver.
  - vm_compute. lia.
Defined.

End Bookkeeping.

(** * What the processor hands to the audio manager *)

Section HandedOver.
Import Dedup.

Lemma clean_and_queue_Some (x t : str) :
  clean_and_queue x = Some t → t = _clean_text_for_tts x ∧ t ≠ [].
Proof.
  unfold clean_and_queue.
  destruct (_clean_text_for_tts x) eqn:E; simpl; [done|].
  by intros [= <-].
Qed.

(** Whatever [process_chunk] hands to the audio manager is a cleaned
    text that is not empty and not longer than the chunk: no empty item
    reaches the queue through the processor. *)
Theorem processor_hands_over_clean_text (p : SimplifiedTTSProcessor)
    (text id t : str) (is_complete : bool) :
  (process_chunk p text id is_complete).2 = Some t →
  t ≠ [] ∧ length t ≤ length text ∧
  (∃ k, t = _clean_text_for_tts (drop k text)) ∧
  (∀ c, c ∈ t → Py.isspace c = true → c = " "%char).
Proof.
  intros H.
  assert (∃ k, clean_and_queue (drop k text) = Some t) as [k Hk].
  { unfold process_chunk in H.
    destruct (audio_manager p); simpl in H; [|done].
    destruct is_complete; simpl in H.
    - destruct (oneshot_raw_texts p !! _); [|by exists 0].
      destruct (good_match _ _); [|by exists 0].
      match type of H with
      | context [Py.strip (drop ?n text)] => exists n
      end.
      destruct (Py.truthy _) eqn:E; simpl in H; [|done].
      unfold clean_and_queue in *. by rewrite clean_strip in H.
    - destruct (Py.contains _ id); simpl in H; [by exists 0|done]. }
  apply clean_and_queue_Some in Hk as [-> Hne].
  split; [done|]. split.
  - etrans; [apply clean_length|].
    rewrite length_drop. lia.
  - split; [by exists k|]. apply clean_space.
Qed.

Lemma processor_hands_over_clean_text_witness :
  let t := txt "Hello. world" in
  t ≠ [] ∧ length t ≤ length (txt "  Hello

 world ()  ") ∧
  (∃ k, t = _clean_text_for_tts (drop k (txt "  Hello

 world ()  "))) ∧
  (∀ c, c ∈ t → Py.isspace c = true → c = " "%char).
Proof.
  apply (processor_hands_over_clean_text (init true) _ (txt "r-1-complete")
           _ true).
  by vm_compute.
Defined.

End HandedOver.

(** * [_normalize_for_comparison] *)

Section Normalized.
Import Comparison.

Lemma lstrip_chars_length (chars : list ascii) (t : str) :
  length (PyStr.lstrip_chars chars t) ≤ length t.
Proof.
  induction t as [|c r IH]; simpl; [done|].
  case_bool_decide; simpl; lia.
Qed.

Lemma sub_trailing_period_length (t : str) :
  length (PyStr.sub_trailing_period t) ≤ length t.
Proof.
  induction t as [|c r IH]; [done|].
  change (length (if PyStr.period_to_end (c :: r) then []
                  else c :: PyStr.sub_trailing_period r) ≤ S (length r)).
  destruct (PyStr.period_to_end (c :: r)); simpl; lia.
Qed.

Lemma normalize_unfold (t : str) :
  _normalize_for_comparison t
  = Py.strip (Py.collapse_ws (PyStr.sub_trailing_period
      (PyStr.lstrip_chars quotes (Py.strip (Py.collapse_ws t))))).
Proof. unfold _normalize_for_comparison. by destruct t. Qed.

(** The normalised text is in normal form for white space: it neither
    starts nor ends with white space, its only white space characters
    are blanks, no two of them are adjacent, and it is not longer than
    the text. *)
Theorem normalized_text_is_single_spaced (t : str) :
  let u := _normalize_for_comparison t in
  Py.strip u = u ∧ Py.collapse_ws u = u ∧
  (∀ c, c ∈ u → Py.isspace c = true → c = " "%char) ∧
  length u ≤ length t.
Proof.
  cbv zeta. rewrite normalize_unfold.
  split; [apply strip_strip|]. split; [|split].
  - apply collapse_fixed_strip, collapse_ws_from_idemp.
  - intros c Hc%strip_elem Hs.
    eapply collapse_ws_from_space; [exact Hc|done].
  - etrans; [apply strip_length|].
    etrans; [apply collapse_ws_from_length|].
    etrans; [apply sub_trailing_period_length|].
    etrans; [apply lstrip_chars_length|].
    etrans; [apply strip_length|]. apply collapse_ws_from_length.
Qed.

End Normalized.
